(** * Conversion pipeline and batch scheduler of squoosh-dev

    A shallow embedding of [src/client/lazy-app/core/convert.ts]
    ([decodeImage], [preprocessImage], [processImage], [encodeImage],
    [convertFile], [convertFiles]) and of the [decodeImage] of the Batch
    component, followed by the properties of the specification.

    An [async] function is embedded as a tree of its suspension points
    ([Async]); the capabilities it awaits (worker bridge, codecs, browser
    decoders) are answered by an environment.  The batch scheduler is a
    transition system over the state shared by the [run] closures: one step
    resumes one worker, or fires the abort signal. *)

From Stdlib Require Import ZArith Lia String Ascii.
From stdpp Require Import base list.

Local Open Scope string_scope.

(** ** Data model *)

(** [File] (and [Blob], which the code only reads through capabilities). *)
Record File := mkFile {
  file_name : string;
  file_type : string;
  file_bits : list Z;
}.

Record ImageData := mkImageData {
  img_width : Z;
  img_height : Z;
  img_data : list Z;
}.

(** What [createImageBitmap] returns. *)
Record ImageBitmap := { bitmap_pixels : ImageData }.

(** A codec- or processor-specific option record; the core never looks
    inside one. *)
Definition OptionRecord := list (string * Z).

Record RotateOptions := { rotate_angle : Z }.                (* .rotate *)
Record PreprocessorState := { pre_rotate : RotateOptions }.  (* .rotate *)

Record ResizeOptions := { resize_enabled : bool; resize_options : OptionRecord }.
Record QuantizeOptions := { quantize_enabled : bool; quantize_options : OptionRecord }.
Record ProcessorState := {
  proc_resize : ResizeOptions;      (* .resize *)
  proc_quantize : QuantizeOptions;  (* .quantize *)
}.

(** The encoders the application selects from
    ([State.encoder] in SimpleApp). *)
Inductive EncoderType := mozJPEG | webP | avif.

Definition EncoderOptions := OptionRecord.

Record EncoderState := {
  enc_type : EncoderType;
  enc_options : EncoderOptions;
}.

Record EncoderMeta := {
  mimeType : string;
  extension : string;
  defaultOptions : EncoderOptions;
}.

(** Modelled from the spec: the module [feature-meta] is not part of the
    sources.  It is the "Codec Descriptor Registry", a read-only mapping
    from codec selector to MIME type, file extension and default options,
    together with the default preprocessor and processor states. *)
Record FeatureMeta := {
  encoderMap : EncoderType → EncoderMeta;
  defaultPreprocessorState : PreprocessorState;
  defaultProcessorState : ProcessorState;
}.

Record ConvertOptions := {
  encoder : EncoderType;
  encoderOptions : option EncoderOptions;
  preprocessorState : option PreprocessorState;
  processorState : option ProcessorState;
}.

Record ConvertResult := {
  input : File;
  output : File;
  processed : option ImageData;
}.

Record BatchOptions := {
  convert_options :> ConvertOptions;   (* BatchOptions extends ConvertOptions *)
  concurrency : option Z;
  onProgress : bool;                   (* whether a callback was supplied *)
}.

(** ** Errors and settled promises *)

(** A thrown JavaScript value, as far as the code inspects it:
    [err instanceof Error] and [err.name]; the message is what a caller
    sees. *)
Record JsError := mkError {
  is_Error : bool;
  err_name : string;
  err_message : string;
}.

(** [new DOMException('AbortError', 'AbortError')] *)
Definition AbortError : JsError := mkError true "AbortError" "AbortError".

(** [Error("Couldn't decode image")] *)
Definition CouldntDecode : JsError := mkError true "Error" "Couldn't decode image".

Inductive Settled (A : Type) : Type :=
| Fulfilled (a : A)
| Rejected (e : JsError).
Arguments Fulfilled {A} a.
Arguments Rejected {A} e.

(** ** Capabilities

    Every external asynchronous operation the code awaits.  The index is
    the type the returned promise fulfils with. *)
Inductive Cap : Type → Type :=
| sniffMimeType (blob : File) : Cap string
| canDecodeImageType (mime : string) : Cap bool
| avifDecode (blob : File) : Cap ImageData
| webpDecode (blob : File) : Cap ImageData
| jxlDecode (blob : File) : Cap ImageData
| wp2Decode (blob : File) : Cap ImageData
| qoiDecode (blob : File) : Cap ImageData
| builtinDecode (blob : File) : Cap ImageData
| rotate (data : ImageData) (opts : RotateOptions) : Cap ImageData
| resize (preprocessed decoded : ImageData) (opts : ResizeOptions) : Cap ImageData
| quantize (data : ImageData) (opts : QuantizeOptions) : Cap ImageData
| encode (type : EncoderType) (image : ImageData) (opts : EncoderOptions) : Cap (list Z)
| blobToText (blob : File) : Cap string                 (* Batch component only *)
| createImageBitmap (blob : File) : Cap ImageBitmap.     (* Batch component only *)

(** A capability call with its result type hidden, for call traces. *)
Inductive Invocation : Type :=
| invoke {X : Type} (c : Cap X).

(** ** Asynchronous computations *)

Inductive Async (A : Type) : Type :=
| Ret (a : A)                                     (* return a *)
| Throw (e : JsError)                             (* throw e *)
| Signal (k : bool → Async A)                     (* read signal.aborted *)
| Await {X : Type} (c : Cap X) (k : Settled X → Async A)
                                                  (* call c, suspend until it settles *)
| Yield (k : Async A).                            (* await of a settled promise: one turn *)
Arguments Ret {A} a.
Arguments Throw {A} e.
Arguments Signal {A} k.
Arguments Await {A X} c k.
Arguments Yield {A} k.

(** Continue with [ok] after a normal completion and with [err] after a
    throw. *)
Fixpoint settle_with {A B} (p : Async A) (ok : A → Async B) (err : JsError → Async B)
  : Async B :=
  match p with
  | Ret a => ok a
  | Throw e => err e
  | Signal k => Signal (λ b, settle_with (k b) ok err)
  | Await c k => Await c (λ r, settle_with (k r) ok err)
  | Yield k => Yield (settle_with k ok err)
  end.

#[export] Instance Async_ret : MRet Async := @Ret.
#[export] Instance Async_bind : MBind Async := λ A B f p, settle_with p f Throw.

(** [try { p } catch (err) { h err }] *)
Definition try_catch {A} (p : Async A) (h : JsError → Async A) : Async A :=
  settle_with p Ret h.

Definition of_settled {A} (r : Settled A) : Async A :=
  match r with
  | Fulfilled a => Ret a
  | Rejected e => Throw e
  end.

(** [await c(...)] for an external capability. *)
Definition await {X} (c : Cap X) : Async X := Await c of_settled.

(** [await f(...)] for an [async function] [f] of this module: its body
    runs up to its own suspension points, and the caller is resumed one
    turn after it completes. *)
Definition await_async {A} (body : Async A) : Async A :=
  settle_with body (λ a, Yield (Ret a)) (λ e, Yield (Throw e)).

(** Modelled from the spec: [assertSignal] of [util] is not part of the
    sources.  "Cancellation is checked cooperatively immediately before
    dispatching each stage": [assertSignal] throws the cancellation error
    when the token has fired. *)
Definition assertSignal : Async unit :=
  Signal (λ aborted, if aborted then Throw AbortError else Ret tt).

(** Modelled from the spec: [abortable] of [util] is not part of the
    sources; this is [await abortable(signal, c(...))].  At every call site
    the promise is an argument, so the call [c] is made before [abortable]
    runs, whether or not the token has fired; [aborted_at_call] is
    [signal.aborted] as [abortable] then finds it, in the same turn.  With
    the token fired, [abortable] throws the cancellation error, and its
    caller is resumed with it one turn later, whatever becomes of the call.
    Otherwise the promise of [abortable] settles as the call does, or with
    the cancellation error when the token has fired by then; its caller is
    resumed one turn after that, and the token may fire in between. *)
Definition abortable {X} (c : Cap X) : Async X :=
  Signal (λ aborted_at_call,
    Await c (λ r,
      if aborted_at_call then Throw AbortError
      else Signal (λ aborted,
             Yield (if aborted then Throw AbortError else of_settled r)))).

(** ** The stage functions *)

Definition is_AbortError (err : JsError) : bool :=
  is_Error err && (err_name err =? "AbortError")%string.

Definition decodeImage (blob : File) : Async ImageData :=
  assertSignal ;;
  mimeType ← abortable (sniffMimeType blob);
  canDecode ← abortable (canDecodeImageType mimeType);
  try_catch
    (if negb canDecode then
       if (mimeType =? "image/avif")%string then await (avifDecode blob)
       else if (mimeType =? "image/webp")%string then await (webpDecode blob)
       else if (mimeType =? "image/jxl")%string then await (jxlDecode blob)
       else if (mimeType =? "image/webp2")%string then await (wp2Decode blob)
       else if (mimeType =? "image/qoi")%string then await (qoiDecode blob)
       else await (builtinDecode blob)
     else await (builtinDecode blob))
    (λ err, if is_AbortError err then Throw err else Throw CouldntDecode).

Definition preprocessImage (data : ImageData) (preprocessorState : PreprocessorState)
  : Async ImageData :=
  assertSignal ;;
  if negb (rotate_angle (pre_rotate preprocessorState) =? 0)%Z
  then await (rotate data (pre_rotate preprocessorState))
  else mret data.

Definition processImage (preprocessed decoded : ImageData)
    (processorState : ProcessorState) : Async ImageData :=
  assertSignal ;;
  let result := preprocessed in
  result ← (if resize_enabled (proc_resize processorState)
            then await (resize result decoded (proc_resize processorState))
            else mret result);
  result ← (if quantize_enabled (proc_quantize processorState)
            then await (quantize result (proc_quantize processorState))
            else mret result);
  mret result.

(** *** Output file name: [sourceFilename.replace(/\.[^.]*$/, repl)] *)

Definition is_dot (c : ascii) : bool := (c =? ".")%char.

(** [[^.]*$] matches the whole of [s]. *)
Fixpoint no_dot (s : string) : bool :=
  match s with
  | EmptyString => true
  | String c t => negb (is_dot c) && no_dot t
  end.

(** Leftmost match of [/\.[^.]*$/] in [s]: the text before the match and
    the matched text. *)
Fixpoint match_extension (s : string) : option (string * string) :=
  match s with
  | EmptyString => None
  | String c t =>
      if is_dot c && no_dot t then Some (EmptyString, s)
      else match match_extension t with
           | Some (before, matched) => Some (String c before, matched)
           | None => None
           end
  end.

(** The replacement patterns of [String.prototype.replace] for a regular
    expression without capture groups: [$$], [$&], [$`] and [$']. *)
Fixpoint substitution (matched before after repl : string) : string :=
  match repl with
  | EmptyString => EmptyString
  | String c r =>
      if (c =? "$")%char then
        match r with
        | EmptyString => String c EmptyString
        | String d r' =>
            if (d =? "$")%char then String "$" (substitution matched before after r')
            else if (d =? "&")%char then matched ++ substitution matched before after r'
            else if (d =? "`")%char then before ++ substitution matched before after r'
            else if (d =? "'")%char then after ++ substitution matched before after r'
            else String c (String d (substitution matched before after r'))
        end
      else String c (substitution matched before after r)
  end.

Definition replace_extension (sourceFilename repl : string) : string :=
  match match_extension sourceFilename with
  | None => sourceFilename
  | Some (before, matched) => before ++ substitution matched before EmptyString repl
  end.

Section WithFeatureMeta.
Variable fm : FeatureMeta.

Definition encodeImage (image : ImageData) (encodeData : EncoderState)
    (sourceFilename : string) : Async File :=
  assertSignal ;;
  let encoder := encoderMap fm (enc_type encodeData) in
  compressedData ← await (encode (enc_type encodeData) image (enc_options encodeData));
  let type := mimeType encoder in
  let filename := replace_extension sourceFilename ("." ++ extension encoder) in
  mret (mkFile filename type compressedData).

Definition convertFile (file : File) (opts : ConvertOptions) : Async ConvertResult :=
  let encoderState :=
    {| enc_type := encoder opts;
       enc_options := default (defaultOptions (encoderMap fm (encoder opts)))
                              (encoderOptions opts) |} in
  let preState := default (defaultPreprocessorState fm) (preprocessorState opts) in
  let procState := default (defaultProcessorState fm) (processorState opts) in
  decoded ← await_async (decodeImage file);
  preprocessed ← await_async (preprocessImage decoded preState);
  processed ← await_async (processImage preprocessed decoded procState);
  output ← await_async (encodeImage processed encoderState (file_name file));
  mret {| input := file; output := output; processed := Some processed |}.

End WithFeatureMeta.

(** ** Running one asynchronous computation

    An environment answers the capability calls: at a given turn, and given
    whether the signal has fired by then, a call settles with a value or an
    error.  A world fixes, in addition, when the signal fires. *)

Definition Env := nat → bool → ∀ X, Cap X → Settled X.

Record World := {
  env_of : Env;
  fired : nat → bool;     (* signal.aborted at each turn *)
}.

Definition answer (w : World) (turn : nat) {X} (c : Cap X) : Settled X :=
  env_of w turn (fired w turn) X c.

(** The capability calls made, in order, and the way the computation
    settles, when it starts at [turn]. *)
Fixpoint exec {A} (w : World) (turn : nat) (p : Async A) : list Invocation * Settled A :=
  match p with
  | Ret a => ([], Fulfilled a)
  | Throw e => ([], Rejected e)
  | Signal k => exec w turn (k (fired w turn))
  | Await c k =>
      let '(calls, r) := exec w (S turn) (k (answer w (S turn) c)) in
      (invoke c :: calls, r)
  | Yield k => exec w (S turn) k
  end.

(** Run the synchronous part: up to the next suspension or completion. *)
Fixpoint sync {A} (aborted : bool) (p : Async A) : Async A :=
  match p with
  | Signal k => sync aborted (k aborted)
  | _ => p
  end.

(** The awaited promise settles: continue up to the next suspension. *)
Definition resume {A} (ans : ∀ X, Cap X → Settled X) (aborted : bool) (p : Async A)
  : Async A :=
  match p with
  | Await c k => sync aborted (k (ans _ c))
  | Yield k => sync aborted k
  | _ => sync aborted p
  end.

(** ** The batch scheduler: [convertFiles] *)

(** One execution of the [finally] block of [run]: the arguments
    [opts.onProgress] is called with, when it is supplied.  The last three
    fields are not seen by the callback: the item whose completion caused
    the call, how its [convertFile] settled, and the [results] array at
    the time of the call. *)
Record Completion := {
  arg_done : nat;
  arg_total : nat;
  of_item : nat;
  item_settled : Settled ConvertResult;
  results_then : list (option ConvertResult);
}.

(** The promise of one [run()]. *)
Inductive Worker : Type :=
| Busy (idx : nat) (pending : Async ConvertResult)  (* in [await convertFile(file, ...)] *)
| Finished                                           (* [run] returned *)
| Crashed (e : JsError).                             (* [run] threw *)

Record Batch := {
  queue : list nat;
  results : list (option ConvertResult);   (* a JavaScript array, with holes *)
  done : nat;
  completions : list Completion;           (* oldest first *)
  aborted : bool;                          (* signal.aborted *)
  workers : list Worker;
  rejection : option JsError;              (* Promise.all: the first rejection *)
  turn : nat;
}.

(** [a[i] = x] on a JavaScript array: an index past the end extends the
    array, leaving holes. *)
Definition array_set {A} (a : list (option A)) (i : nat) (x : A) : list (option A) :=
  if decide (i < length a) then <[i := Some x]> a
  else a ++ replicate (i - length a) None ++ [Some x].

Inductive Event :=
| Resume (w : nat)   (* what worker [w] awaits settles *)
| Fire.              (* the abort signal fires *)

(** What the caller of [convertFiles] observes. *)
Inductive Outcome :=
| Pending
| Returns (rs : list (option ConvertResult))
| Rejects (e : JsError).

Definition is_Busy (w : Worker) : bool :=
  match w with Busy _ _ => true | _ => false end.

Definition is_Finished (w : Worker) : bool :=
  match w with Finished => true | _ => false end.

Section Scheduler.
Variable fm : FeatureMeta.
Variable env : Env.
Variable files : list File.
Variable opts : BatchOptions.

Definition total : nat := length files.

(** [convertFile(files[idx], opts, signal)]; the queue only holds indices
    of [files]. *)
Definition item (idx : nat) : Async ConvertResult :=
  match files !! idx with
  | Some file => convertFile fm file opts
  | None => Throw (mkError true "TypeError" "file is undefined")
  end.

(** [run], from the loop test to the next suspension or to its end. *)
Definition run (st : Batch) : Batch * Worker :=
  match queue st with
  | [] => (st, Finished)
  | idx :: rest =>
      ({| queue := rest; results := results st; done := done st; completions := completions st;
          aborted := aborted st; workers := workers st; rejection := rejection st;
          turn := turn st |},
       Busy idx (sync (aborted st) (item idx)))
  end.

(** [results[idx] = res] *)
Definition store (idx : nat) (res : ConvertResult) (st : Batch) : Batch :=
  {| queue := queue st; results := array_set (results st) idx res; done := done st;
     completions := completions st; aborted := aborted st; workers := workers st;
     rejection := rejection st; turn := turn st |}.

(** The [finally] block: [done += 1; opts.onProgress?.(done, total)].
    The execution is recorded, whether or not there is a callback; the
    callback is taken to return normally and to leave the signal alone. *)
Definition finally (idx : nat) (how : Settled ConvertResult) (st : Batch) : Batch :=
  let done' := S (done st) in
  {| queue := queue st; results := results st; done := done';
     completions := completions st ++
                      [ {| arg_done := done'; arg_total := total; of_item := idx;
                           item_settled := how; results_then := results st |} ];
     aborted := aborted st; workers := workers st; rejection := rejection st;
     turn := turn st |}.

Definition set_worker (w : nat) (x : Worker) (st : Batch) : Batch :=
  {| queue := queue st; results := results st; done := done st; completions := completions st;
     aborted := aborted st; workers := <[w := x]> (workers st);
     rejection := rejection st; turn := turn st |}.

(** A rejected [run()] rejects [Promise.all], unless it is rejected
    already. *)
Definition reject (e : JsError) (st : Batch) : Batch :=
  {| queue := queue st; results := results st; done := done st; completions := completions st;
     aborted := aborted st; workers := workers st;
     rejection := Some (default e (rejection st)); turn := turn st |}.

Definition next_turn (st : Batch) : Batch :=
  {| queue := queue st; results := results st; done := done st; completions := completions st;
     aborted := aborted st; workers := workers st; rejection := rejection st;
     turn := S (turn st) |}.

Definition fire (st : Batch) : Batch :=
  {| queue := queue st; results := results st; done := done st; completions := completions st;
     aborted := true; workers := workers st; rejection := rejection st;
     turn := turn st |}.

(** Worker [w] is resumed in [await convertFile(...)].  When [convertFile]
    has returned, the result is stored, the [finally] block runs and the
    loop goes on; when it has thrown, the [finally] block runs and the
    error leaves [run]. *)
Definition resume_worker (w : nat) (st : Batch) : Batch :=
  match workers st !! w with
  | Some (Busy idx pending) =>
      match resume (env (turn st) (aborted st)) (aborted st) pending with
      | Ret res =>
          let st := finally idx (Fulfilled res) (store idx res st) in
          let '(st, next) := run st in
          set_worker w next st
      | Throw e =>
          let st := finally idx (Rejected e) st in
          reject e (set_worker w (Crashed e) st)
      | pending' => set_worker w (Busy idx pending') st
      end
  | _ => st
  end.

Definition step (st : Batch) (ev : Event) : Batch :=
  match ev with
  | Resume w => resume_worker w (next_turn st)
  | Fire => fire (next_turn st)
  end.

(** [Array.from({ length: n }, () => run())] *)
Fixpoint spawn (n : nat) (st : Batch) : Batch :=
  match n with
  | O => st
  | S n' =>
      let '(st, w) := run st in
      spawn n' {| queue := queue st; results := results st; done := done st;
                  completions := completions st; aborted := aborted st;
                  workers := workers st ++ [w]; rejection := rejection st;
                  turn := turn st |}
  end.

(** [Math.max(1, Math.min(opts.concurrency ?? 2, 8))], for an integral
    [concurrency]. *)
Definition conc : Z := Z.max 1 (Z.min (default 2%Z (concurrency opts)) 8).

(** The state in which [convertFiles] reaches [await Promise.all(workers)];
    [signal_aborted] tells whether the signal had fired before the call. *)
Definition convertFiles (signal_aborted : bool) : Batch :=
  let queue := seq 0 total in       (* files.map((f, i) => i) *)
  spawn (Z.to_nat (Z.min conc (Z.of_nat total)))
    {| queue := queue; results := []; done := 0; completions := []; aborted := signal_aborted;
       workers := []; rejection := None; turn := 0 |}.

(** The calls of [opts.onProgress], oldest first. *)
Definition calls (st : Batch) : list Completion :=
  if onProgress opts then completions st else [].

(** [await Promise.all(workers); return results] *)
Definition outcome (st : Batch) : Outcome :=
  match rejection st with
  | Some e => Rejects e
  | None => if forallb is_Finished (workers st) then Returns (results st) else Pending
  end.

Definition run_schedule (st : Batch) (schedule : list Event) : Batch :=
  fold_left step schedule st.

(** No worker is suspended any more. *)
Definition quiescent (st : Batch) : bool :=
  forallb (λ w, negb (is_Busy w)) (workers st).

End Scheduler.

(** ** The Batch component's own [decodeImage]

    The Batch component carries a copy of [decodeImage] which, in addition,
    handles SVG sources. *)

(** An SVG document, as far as the code touches it: the attributes of the
    root element, and the rest of the markup. *)
Record SvgDocument := {
  root_attributes : list (string * string);
  markup : string;
}.

(** Modelled from the spec: the browser's [DOMParser] and [XMLSerializer]
    and [drawableToImageData] of [util/canvas] are not part of the sources;
    "SVG is normalized first, then rasterized" only fixes how they are
    used. *)
Record Dom := {
  parseFromString : string → SvgDocument;
  serializeToString : SvgDocument → string;
  drawableToImageData : ImageBitmap → ImageData;
}.

Definition hasAttribute (svg : SvgDocument) (name : string) : bool :=
  existsb (λ a, (a.1 =? name)%string) (root_attributes svg).

Definition getAttribute (svg : SvgDocument) (name : string) : option string :=
  snd <$> find (λ a, (a.1 =? name)%string) (root_attributes svg).

Fixpoint set_assoc (name value : string) (l : list (string * string)) : list (string * string) :=
  match l with
  | [] => [(name, value)]
  | a :: l' => if (a.1 =? name)%string then (name, value) :: l' else a :: set_assoc name value l'
  end.

Definition setAttribute (svg : SvgDocument) (name value : string) : SvgDocument :=
  {| root_attributes := set_assoc name value (root_attributes svg); markup := markup svg |}.

(** Strings are held as the bytes of their UTF-8 encoding.  [\s] matches
    the white space and line terminator characters of ECMAScript: U+0009 to
    U+000D, U+0020, U+00A0, U+1680, U+2000 to U+200A, U+2028, U+2029,
    U+202F, U+205F, U+3000 and U+FEFF. *)
Definition space1 (b0 : nat) : bool :=
  (b0 =? 32)%nat || ((9 <=? b0)%nat && (b0 <=? 13)%nat).

Definition space2 (b0 b1 : nat) : bool :=
  (b0 =? 194)%nat && (b1 =? 160)%nat.                               (* U+00A0 *)

Definition space3 (b0 b1 b2 : nat) : bool :=
  (b0 =? 225)%nat && (b1 =? 154)%nat && (b2 =? 128)%nat             (* U+1680 *)
  || (b0 =? 226)%nat && (b1 =? 128)%nat &&
     ((128 <=? b2)%nat && (b2 <=? 138)%nat                          (* U+2000 to U+200A *)
      || (b2 =? 168)%nat || (b2 =? 169)%nat || (b2 =? 175)%nat)     (* U+2028, U+2029, U+202F *)
  || (b0 =? 226)%nat && (b1 =? 129)%nat && (b2 =? 159)%nat          (* U+205F *)
  || (b0 =? 227)%nat && (b1 =? 128)%nat && (b2 =? 128)%nat          (* U+3000 *)
  || (b0 =? 239)%nat && (b1 =? 187)%nat && (b2 =? 191)%nat.         (* U+FEFF *)

(** The number of bytes of the character at the head of [s] when [\s]
    matches it, and 0 when it does not. *)
Definition space_length (s : string) : nat :=
  match s with
  | EmptyString => 0
  | String c0 t0 =>
      if space1 (nat_of_ascii c0) then 1
      else match t0 with
           | EmptyString => 0
           | String c1 t1 =>
               if space2 (nat_of_ascii c0) (nat_of_ascii c1) then 2
               else match t1 with
                    | EmptyString => 0
                    | String c2 _ =>
                        if space3 (nat_of_ascii c0) (nat_of_ascii c1) (nat_of_ascii c2)
                        then 3 else 0
                    end
           end
  end.

(** [s.split(/\s+/)]: [current] is the part being read, [skipping] tells
    whether a separator is being read, and [pending] counts the bytes of
    its current character that are still to come. *)
Fixpoint split_spaces (s : string) (current : string) (skipping : bool) (pending : nat)
  : list string :=
  match s with
  | EmptyString => [current]
  | String c t =>
      match pending with
      | S pending' => split_spaces t current skipping pending'
      | O =>
          match space_length s with
          | O => split_spaces t (current ++ String c EmptyString) false 0
          | S more =>
              if skipping then split_spaces t current true more
              else current :: split_spaces t EmptyString true more
          end
      end
  end.

Definition split (s : string) : list string := split_spaces s EmptyString false 0.

(** [parts[i]] converted to a string by [setAttribute]. *)
Definition part (parts : list string) (i : nat) : string :=
  default "undefined" (parts !! i).

Definition utf8 (s : string) : list Z :=
  map (λ c, Z.of_nat (nat_of_ascii c)) (list_ascii_of_string s).

Module BatchComponent.

(** "Ensure SVG has width/height" *)
Definition ensure_size (svg : SvgDocument) : SvgDocument :=
  if negb (hasAttribute svg "width") || negb (hasAttribute svg "height") then
    match getAttribute svg "viewBox" with
    | Some viewBox =>
        if (viewBox =? "")%string then svg
        else
          let parts := split viewBox in
          setAttribute (setAttribute svg "width" (part parts 2)) "height" (part parts 3)
    | None => svg
    end
  else svg.

Definition decodeImage (dom : Dom) (blob : File) : Async ImageData :=
  assertSignal ;;
  mimeType ← abortable (sniffMimeType blob);
  canDecode ← abortable (canDecodeImageType mimeType);
  try_catch
    (if negb canDecode then
       if (mimeType =? "image/avif")%string then await (avifDecode blob)
       else if (mimeType =? "image/webp")%string then await (webpDecode blob)
       else if (mimeType =? "image/jxl")%string then await (jxlDecode blob)
       else if (mimeType =? "image/webp2")%string then await (wp2Decode blob)
       else if (mimeType =? "image/qoi")%string then await (qoiDecode blob)
       else if (mimeType =? "image/svg+xml")%string then
         text ← abortable (blobToText blob);
         let document := parseFromString dom text in
         let svg := ensure_size document in
         let newSource := serializeToString dom svg in
         let imgBlob := mkFile "" "image/svg+xml" (utf8 newSource) in
         img ← abortable (createImageBitmap imgBlob);
         mret (drawableToImageData dom img)
       else await (builtinDecode blob)
     else await (builtinDecode blob))
    (λ err, if is_AbortError err then Throw err else Throw CouldntDecode).

End BatchComponent.

(** ** Notions used to state the properties *)

(** The turn at which a computation that starts at [turn] completes. *)
Fixpoint turns {A} (w : World) (turn : nat) (p : Async A) : nat :=
  match p with
  | Ret _ | Throw _ => turn
  | Signal k => turns w turn (k (fired w turn))
  | Await c k => turns w (S turn) (k (answer w (S turn) c))
  | Yield k => turns w (S turn) k
  end.

(** Whatever the capabilities answer, a value returned by [p] satisfies
    [P]. *)
Fixpoint AllRet {A} (P : A → Prop) (p : Async A) : Prop :=
  match p with
  | Ret a => P a
  | Throw _ => True
  | Signal k => ∀ b, AllRet P (k b)
  | Await c k => ∀ r, AllRet P (k r)
  | Yield k => AllRet P k
  end.

(** The decoder [decodeImage] of [convert.ts] calls inside its [try]
    block. *)
Definition decoder_for (mimeType : string) (canDecode : bool) (blob : File) : Cap ImageData :=
  if negb canDecode then
    if (mimeType =? "image/avif")%string then avifDecode blob
    else if (mimeType =? "image/webp")%string then webpDecode blob
    else if (mimeType =? "image/jxl")%string then jxlDecode blob
    else if (mimeType =? "image/webp2")%string then wp2Decode blob
    else if (mimeType =? "image/qoi")%string then qoiDecode blob
    else builtinDecode blob
  else builtinDecode blob.

(** [a[i]]: reading a hole, or past the end, gives [undefined]. *)
Definition slot {A} (a : list (option A)) (i : nat) : option A :=
  default None (a !! i).

(** Slot [i] of the collection [rs] holds the outcome [how] of converting
    [file]: the conversion result, whose [input] is [file], or the failure
    of the item, for which an array of [ConvertResult] has no value but the
    hole that [start] reads as "Failed". *)
Definition slot_holds (rs : list (option ConvertResult)) (i : nat) (file : File)
    (how : Settled ConvertResult) : Prop :=
  match how with
  | Fulfilled r => rs !! i = Some (Some r) ∧ input r = file
  | Rejected _ => slot rs i = None
  end.

Fixpoint no_dollar (s : string) : bool :=
  match s with
  | EmptyString => true
  | String c t => negb (c =? "$")%char && no_dollar t
  end.

Definition is_Fulfilled {A} (r : Settled A) : bool :=
  match r with
  | Fulfilled _ => true
  | Rejected _ => false
  end.

(** ** Sample data, for concrete runs *)

Definition sample_meta : FeatureMeta :=
  {| encoderMap := λ t,
       match t with
       | mozJPEG => {| mimeType := "image/jpeg"; extension := "jpg";
                       defaultOptions := [("quality", 75%Z)] |}
       | webP => {| mimeType := "image/webp"; extension := "webp";
                    defaultOptions := [("quality", 75%Z)] |}
       | avif => {| mimeType := "image/avif"; extension := "avif";
                    defaultOptions := [("cqLevel", 33%Z)] |}
       end;
     defaultPreprocessorState := {| pre_rotate := {| rotate_angle := 0 |} |};
     defaultProcessorState :=
       {| proc_resize := {| resize_enabled := false; resize_options := [] |};
          proc_quantize := {| quantize_enabled := false; quantize_options := [] |} |} |}.

(** A source without content cannot be decoded. *)
Definition decode_bits (blob : File) : Settled ImageData :=
  match file_bits blob with
  | [] => Rejected (mkError true "Error" "corrupt data")
  | bits => Fulfilled (mkImageData 1 1 bits)
  end.

(** Capabilities that honour the signal; the browser decodes PNG and JPEG
    natively, and an encoder refuses an image wider than 16383 pixels. *)
Definition sample_env : Env := λ _ aborted X c,
  match c in Cap X return Settled X with
  | sniffMimeType blob => Fulfilled (file_type blob)
  | canDecodeImageType mime =>
      Fulfilled ((mime =? "image/png")%string || (mime =? "image/jpeg")%string)
  | avifDecode blob | webpDecode blob | jxlDecode blob | wp2Decode blob | qoiDecode blob
  | builtinDecode blob =>
      if aborted then Rejected AbortError else decode_bits blob
  | createImageBitmap blob =>
      if aborted then Rejected AbortError
      else match decode_bits blob with
           | Fulfilled img => Fulfilled {| bitmap_pixels := img |}
           | Rejected e => Rejected e
           end
  | rotate data _ | resize data _ _ | quantize data _ =>
      if aborted then Rejected AbortError else Fulfilled data
  | encode _ image _ =>
      if aborted then Rejected AbortError
      else if (16383 <? img_width image)%Z
           then Rejected (mkError true "RangeError" "image too large")
           else Fulfilled (img_data image)
  | blobToText blob => Fulfilled "<svg/>"
  end.

Definition calm : World := {| env_of := sample_env; fired := λ _, false |}.

Definition png (name : string) : File := mkFile name "image/png" [137%Z; 80%Z; 78%Z; 71%Z].
Definition broken (name : string) : File := mkFile name "image/png" [].
Definition wide : ImageData := mkImageData 20000 1 [0%Z].

Definition sample_options : ConvertOptions :=
  {| encoder := mozJPEG; encoderOptions := None; preprocessorState := None;
     processorState := None |}.

Definition batch_options (c : option Z) : BatchOptions :=
  {| convert_options := sample_options; concurrency := c; onProgress := true |}.

(** Sources for the SVG path. *)
Definition text_of (bits : list Z) : string :=
  string_of_list_ascii (map (λ b, ascii_of_nat (Z.to_nat b)) bits).

Definition svg_source : string := "<svg viewBox='0 0 10 20'><rect/></svg>".

Definition svg_file : File := mkFile "logo.svg" "image/svg+xml" (utf8 svg_source).

(** A toy DOM which knows the one document above. *)
Definition sample_dom : Dom :=
  {| parseFromString := λ text,
       if (text =? svg_source)%string
       then {| root_attributes := [("viewBox", "0 0 10 20")]; markup := "<rect/>" |}
       else {| root_attributes := []; markup := text |};
     serializeToString := λ doc,
       ("<svg"
        ++ fold_right (λ a s, " " ++ a.1 ++ "='" ++ a.2 ++ "'" ++ s) "" (root_attributes doc)
        ++ ">" ++ markup doc ++ "</svg>")%string;
     drawableToImageData := bitmap_pixels |}.

(** The sample capabilities, except that the text of a blob can be read. *)
Definition reading_env : Env := λ turn aborted X c,
  match c in Cap X return Settled X with
  | blobToText blob => Fulfilled (text_of (file_bits blob))
  | c => sample_env turn aborted _ c
  end.

Definition reading : World := {| env_of := reading_env; fired := λ _, false |}.





(** The states [convertFile] builds from its options. *)
Definition encoder_state (fm : FeatureMeta) (opts : ConvertOptions) : EncoderState :=
  {| enc_type := encoder opts;
     enc_options := default (defaultOptions (encoderMap fm (encoder opts)))
                            (encoderOptions opts) |}.

Definition pre_state (fm : FeatureMeta) (opts : ConvertOptions) : PreprocessorState :=
  default (defaultPreprocessorState fm) (preprocessorState opts).

Definition proc_state (fm : FeatureMeta) (opts : ConvertOptions) : ProcessorState :=
  default (defaultProcessorState fm) (processorState opts).





(** ** The invariant of the scheduler *)

Section Invariant.
Variable files : list File.

(** How many items have been taken from the queue. *)
Definition started (st : Batch) : nat := total files - length (queue st).

(** Item [i] is being converted; item [i] has been through the
    [finally] block. *)
Definition busy_with (st : Batch) (i : nat) : Prop :=
  ∃ w pending, workers st !! w = Some (Busy i pending).

Definition completed (st : Batch) (i : nat) : Prop :=
  i ∈ of_item <$> completions st.

Record Inv (st : Batch) : Prop := {
  inv_queue : queue st = seq (started st) (length (queue st));
  inv_queue_le : length (queue st) ≤ total files;
  inv_busy_lt : ∀ w i p, workers st !! w = Some (Busy i p) → i < started st;
  inv_busy_inj : ∀ w w' i p p',
    workers st !! w = Some (Busy i p) → workers st !! w' = Some (Busy i p') → w = w';
  inv_busy_ret : ∀ w i p,
    workers st !! w = Some (Busy i p) → AllRet (λ r, files !! i = Some (input r)) p;
  inv_done_lt : ∀ c, c ∈ completions st → of_item c < started st;
  inv_done_nodup : NoDup (of_item <$> completions st);
  inv_done_busy : ∀ c, c ∈ completions st → ¬ busy_with st (of_item c);
  inv_cover : ∀ i, i < started st → busy_with st i ∨ completed st i;
  inv_count : arg_done <$> completions st = seq 1 (done st);
  inv_total : ∀ c, c ∈ completions st → arg_total c = total files;
  inv_snapshot : ∀ c r,
    c ∈ completions st → item_settled c = Fulfilled r →
    slot (results_then c) (of_item c) = Some r ∧
    slot (results st) (of_item c) = Some r ∧
    files !! of_item c = Some (input r);
  inv_results : ∀ i r,
    slot (results st) i = Some r →
    ∃ c, c ∈ completions st ∧ of_item c = i ∧ item_settled c = Fulfilled r;
  inv_length : length (results st) ≤ started st;
  inv_rejection :
    rejection st = None → ∀ c, c ∈ completions st → is_Fulfilled (item_settled c) = true;
  inv_finished : Finished ∈ workers st → queue st = [];
  inv_crashed : ∀ e, Crashed e ∈ workers st → rejection st ≠ None;
}.

(** The state while [Array.from] is still calling [run]: a state with
    the same shared variables and more workers. *)
Definition with_workers (ws : list Worker) (st : Batch) : Batch :=
  {| queue := queue st; results := results st; done := done st;
     completions := completions st; aborted := aborted st; workers := ws;
     rejection := rejection st; turn := turn st |}.
End Invariant.

(** [clamp(x, lo, hi)], in the words of the specification. *)
Definition clamp (x lo hi : Z) : Z :=
  if (x <? lo)%Z then lo else if (hi <? x)%Z then hi else x.

(** The pending [convertFile] of an item taken after the signal has fired:
    the first check of [decodeImage] throws, and [convertFile] is resumed
    one turn later. *)
Definition doomed : Async ConvertResult := Yield (Throw AbortError).

(** Sample batches. *)
Definition two_files : list File := [png "a.png"; png "b.png"].
Definition one_broken : list File := [broken "a.png"; png "b.png"].

(** What the sample capabilities make of a sample source. *)
Definition converted (file : File) : ConvertResult :=
  {| input := file;
     output := mkFile (replace_extension (file_name file) ".jpg") "image/jpeg" (file_bits file);
     processed := Some (mkImageData 1 1 (file_bits file)) |}.

(** Two workers taking turns. *)
Definition alternating : list Event :=
  concat (replicate 10 [Resume 1; Resume 0]).

(** ** A batch whose signal had fired before the call

    [n] items have been taken, each by the worker of the same number, and
    each is bound to fail at the first check of [decodeImage]. *)
Record Cancelled (files : list File) (n : nat) (st : Batch) : Prop := {
  can_aborted : aborted st = true;
  can_results : results st = [];
  can_queue : queue st = seq n (total files - n);
  can_completions : ∀ c, c ∈ completions st → item_settled c = Rejected AbortError;
  can_workers : ∀ w wk,
    workers st !! w = Some wk → wk = Busy w doomed ∨ wk = Crashed AbortError;
  can_rejection : ∀ e, rejection st = Some e → e = AbortError;
}.

(** What resuming worker [w] alone, some number of times, achieves: the
    other workers are as they were, and [w] has stopped, or has taken the
    next item from the queue. *)
Definition advanced (w : nat) (st st' : Batch) : Prop :=
  (∀ w', w' ≠ w → workers st' !! w' = workers st !! w') ∧
  length (workers st') = length (workers st) ∧
  ((∃ wk, workers st' !! w = Some wk ∧ is_Busy wk = false) ∧
   length (queue st') ≤ length (queue st)
   ∨ (∃ idx p, workers st' !! w = Some (Busy idx p)) ∧
     S (length (queue st')) = length (queue st)).

(** The computation has completed. *)
Definition is_done {A} (p : Async A) : bool :=
  match p with
  | Ret _ | Throw _ => true
  | _ => false
  end.

(** ** Notions used for the further properties of the pipeline *)

From Stdlib Require Import Sorted Decimal DecimalNat DecimalString.
From stdpp Require sorting.

(** The step of the pipeline a capability belongs to. *)
Definition stage_of (i : Invocation) : nat :=
  match i with
  | invoke c =>
      match c with
      | sniffMimeType _ => 0
      | canDecodeImageType _ => 1
      | avifDecode _ | webpDecode _ | jxlDecode _ | wp2Decode _ | qoiDecode _
      | builtinDecode _ | blobToText _ | createImageBitmap _ => 2
      | rotate _ _ => 3
      | resize _ _ _ => 4
      | quantize _ _ => 5
      | encode _ _ _ => 6
      end
  end.

(** The calls of a trace belong to the steps [lo] to [hi], and no two of
    them to the same step or to steps in the wrong order. *)
Definition staged (lo hi : nat) (trace : list Invocation) : Prop :=
  StronglySorted lt (stage_of <$> trace) ∧ Forall (λ i, lo ≤ stage_of i ≤ hi) trace.

(** The arguments of a call of the encoder. *)
Definition encode_call (i : Invocation)
  : option (EncoderType * ImageData * EncoderOptions) :=
  match i with
  | invoke c =>
      match c with
      | encode type image options => Some (type, image, options)
      | _ => None
      end
  end.

(** The capability calls of a computation that starts at [turn], each with
    the turn at which it is dispatched. *)
Fixpoint dispatched {A} (w : World) (turn : nat) (p : Async A) : list (nat * Invocation) :=
  match p with
  | Ret _ | Throw _ => []
  | Signal k => dispatched w turn (k (fired w turn))
  | Await c k => (turn, invoke c) :: dispatched w (S turn) (k (answer w (S turn) c))
  | Yield k => dispatched w (S turn) k
  end.

(** ** Notions used for the further properties of the scheduler *)

(** The errors of the conversions that have failed, oldest first. *)
Definition failures (st : Batch) : list JsError :=
  omap (λ c, match item_settled c with
             | Rejected e => Some e
             | Fulfilled _ => None
             end) (completions st).

(** The items being converted. *)
Definition in_flight (st : Batch) : list nat :=
  omap (λ wk, match wk with
              | Busy idx _ => Some idx
              | _ => None
              end) (workers st).

(** Sample data: every step of the pipeline switched on, and capabilities
    that do not look at the signal. *)
Definition all_steps : ConvertOptions :=
  {| encoder := webP; encoderOptions := Some [("quality", 60%Z)];
     preprocessorState := Some {| pre_rotate := {| rotate_angle := 90 |} |};
     processorState :=
       Some {| proc_resize := {| resize_enabled := true; resize_options := [("width", 8%Z)] |};
               proc_quantize := {| quantize_enabled := true;
                                   quantize_options := [("maxNumColors", 16%Z)] |} |} |}.

Definition deaf_env : Env := λ turn _ X c, sample_env turn false X c.

(** The signal fires after MIME sniffing has settled and before
    [decodeImage] is resumed. *)
Definition gap_cancel : World := {| env_of := deaf_env; fired := λ turn, (2 <=? turn)%nat |}.

(** Once fired, the signal stays fired. *)
Definition fires_once (w : World) : Prop :=
  ∀ n m, n ≤ m → fired w n = true → fired w m = true.

(** In a list of dispatched calls, a call dispatched after the signal has
    fired satisfies [P], and no call follows it when the signal stays
    fired. *)
Definition late_calls (w : World) (P : Invocation → Prop) (l : list (nat * Invocation))
  : Prop :=
  ∀ i x, l !! i = Some x → fired w x.1 = true →
    P x.2 ∧ (fires_once w → S i = length l).

(** ** Notions used for the SVG path of the Batch component *)

(** No match of [\s] starts in [s]. *)
Fixpoint no_space (s : string) : bool :=
  match s with
  | EmptyString => true
  | String c t => (space_length s =? 0)%nat && no_space t
  end.

(** [s] consists of characters that [\s] matches, after [pending] bytes
    that end such a character. *)
Fixpoint all_space (s : string) (pending : nat) : bool :=
  match s with
  | EmptyString => (pending =? 0)%nat
  | String c t =>
      match pending with
      | S pending' => all_space t pending'
      | O => match space_length s with
             | O => false
             | S more => all_space t more
             end
      end
  end.

(** A separator: one or more characters that [\s] matches. *)
Definition is_gap (s : string) : bool :=
  negb (s =? "")%string && all_space s 0.

(** The first byte of [s] is a continuation byte of UTF-8. *)
Definition continues (s : string) : bool :=
  match s with
  | EmptyString => false
  | String c _ => (128 <=? nat_of_ascii c)%nat && (nat_of_ascii c <=? 191)%nat
  end.

(** Words with a separator after each but the last. *)
Fixpoint join (words seps : list string) : string :=
  match words, seps with
  | word :: rest, sep :: seps' => word ++ sep ++ join rest seps'
  | word :: _, [] => word
  | [], _ => ""
  end.

(** The words of a text that [split] gives back: none contains white
    space, and only the first and the last may be empty. *)
Definition words_of_text (words seps : list string) : Prop :=
  length words = S (length seps) ∧
  Forall (λ word, no_space word = true) words ∧
  Forall (λ sep, is_gap sep = true) seps ∧
  ∀ i word, 0 < i < length seps → words !! i = Some word → word ≠ "".

(** U+00A0 and U+2003. *)
Definition nbsp : string := String (ascii_of_nat 194) (String (ascii_of_nat 160) "").
Definition em_space : string :=
  String (ascii_of_nat 226) (String (ascii_of_nat 128) (String (ascii_of_nat 131) "")).

(** ** SimpleApp

    The component that drives [convertFiles], in its version with a choice
    of encoder and quality: [start] marks every item as being converted,
    runs the batch, and maps the results back to the items by index;
    [cancel] fires the signal of the batch; [downloadZip] collects the
    output files in an archive. *)

Module SimpleApp.

Inductive ItemStatus := pending | processing | done | error.

Record Item := {
  file : File;
  status : ItemStatus;
  message : option string;
  downloadUrl : option string;
  outputFile : option File;
}.

Record State := {
  s_items : list Item;         (* .items *)
  s_running : bool;            (* .running *)
  s_done : nat;                (* .done *)
  s_total : nat;               (* .total *)
  s_encoder : EncoderType;     (* .encoder *)
  s_quality : Z;               (* .quality *)
}.

(** The options object of an encoder; [true] is written 1. *)
Definition getEncoderOptions (encoder : EncoderType) (quality : Z) : EncoderOptions :=
  match encoder with
  | mozJPEG => [("quality", quality); ("progressive", 1%Z); ("optimize_coding", 1%Z)]
  | webP => [("quality", quality); ("method", 4%Z); ("lossless", 0%Z)]
  | avif => [("quality", quality); ("speed", 6%Z)]
  end.


Definition batchOpts (s : State) : BatchOptions :=
  {| convert_options :=
       {| encoder := s_encoder s;
          encoderOptions := Some (getEncoderOptions (s_encoder s) (s_quality s));
          preprocessorState := None; processorState := None |};
     concurrency := Some 2%Z;
     onProgress := true |}.


(** The progress callback: [this.setState({ done, total })]. *)
Definition progress (s : State) (c : Completion) : State :=
  {| s_items := s_items s; s_running := s_running s; s_done := arg_done c;
     s_total := arg_total c; s_encoder := s_encoder s; s_quality := s_quality s |}.

Section Start.
(** [URL.createObjectURL], for the call made for the item of a given
    index. *)
Variable createObjectURL : nat → File → string.





End Start.

(** *** [downloadZip] *)





Section Zip.
(** The property names an object literal inherits, all of them with
    values that are not falsy. *)
Variable inherited : list string.











End Zip.

End SimpleApp.

(** Sample data for SimpleApp. *)
Definition fresh_app : SimpleApp.State :=
  {| SimpleApp.s_items := []; SimpleApp.s_running := false; SimpleApp.s_done := 0;
     SimpleApp.s_total := 0; SimpleApp.s_encoder := mozJPEG; SimpleApp.s_quality := 75 |}.

Definition blob_url (i : nat) (f : File) : string := "blob:" ++ file_name f.



(** ** The Batch component

    [start] runs one or two workers over the queue of item indices; each
    item goes through [processOne], which decodes, encodes with MozJPEG and
    reports the outcome in the item's state; a failure is caught per item.
    The run is a transition system, as for [convertFiles]: one step resumes
    one worker at the [await] it is suspended in, or fires the abort
    signal. *)

Module BatchApp.

Inductive Status := pending | processing | done | error.

Record ItemState := {
  file : File;
  status : Status;
  downloadUrl : option string;
  message : option string;
}.

(** Where a [runWorker] is suspended. *)
Inductive Job :=
| Decoding (index : nat) (srcFile : File) (decoding : Async ImageData)
    (* in [processOne]: [await decodeImage(signal, srcFile, worker)] *)
| Encoding (index : nat) (srcFile : File) (decoded : ImageData)
    (* in [processOne]: [await encoder.encode(signal, worker, decoded, ...)] *)
| Looping
    (* in [runWorker]: [await this.processOne(...).catch(...)], settled *)
| Returned.

Record Run := {
  queue : list nat;
  items : list ItemState;        (* this.state.items *)
  snacks : list string;          (* the calls of props.showSnack, oldest first *)
  jobs : list Job;
  aborted : bool;                (* this.abortController.signal.aborted *)
  turn : nat;
}.

Definition is_Returned (j : Job) : bool :=
  match j with Returned => true | _ => false end.

(** [this.state.running], between [setState({ running: true })] and
    [setState({ running: false })] after [Promise.all]. *)
Definition running (st : Run) : bool := negb (forallb is_Returned (jobs st)).

(** [s.items.map((it, i) => (i === index ? f(it) : it))] *)
Definition update (index : nat) (f : ItemState → ItemState) (l : list ItemState)
  : list ItemState :=
  imap (λ i it, if (i =? index)%nat then f it else it) l.

Definition with_items (f : list ItemState → list ItemState) (st : Run) : Run :=
  {| queue := queue st; items := f (items st); snacks := snacks st; jobs := jobs st;
     aborted := aborted st; turn := turn st |}.

Definition set_job (w : nat) (j : Job) (st : Run) : Run :=
  {| queue := queue st; items := items st; snacks := snacks st;
     jobs := <[w := j]> (jobs st); aborted := aborted st; turn := turn st |}.

Definition next_turn (st : Run) : Run :=
  {| queue := queue st; items := items st; snacks := snacks st; jobs := jobs st;
     aborted := aborted st; turn := S (turn st) |}.

Definition fire (st : Run) : Run :=
  {| queue := queue st; items := items st; snacks := snacks st; jobs := jobs st;
     aborted := true; turn := turn st |}.

(** [fail(index, message)] *)
Definition fail (index : nat) (msg : string) (st : Run) : Run :=
  {| queue := queue st;
     items := update index (λ it, {| file := file it; status := error;
                                     downloadUrl := downloadUrl it;
                                     message := Some msg |}) (items st);
     snacks := snacks st ++ [msg]; jobs := jobs st; aborted := aborted st;
     turn := turn st |}.

(** [Math.min(2, Math.max(1, navigator.hardwareConcurrency || 2))], for an
    integral [hardwareConcurrency]; [None] is [undefined]. *)
Definition concurrency (hardwareConcurrency : option Z) : Z :=
  let cores := match hardwareConcurrency with
               | Some n => if (n =? 0)%Z then 2%Z else n
               | None => 2%Z
               end in
  Z.min 2 (Z.max 1 cores).

Section Run.
Variable fm : FeatureMeta.
Variable env : Env.
Variable dom : Dom.
(** [URL.createObjectURL], for the call made for the item of a given
    index. *)
Variable createObjectURL : nat → File → string.

(** [processOne(index, worker)], up to its first [await].  An index
    without an item makes it throw, which [runWorker] catches. *)
Definition processOne (w index : nat) (st : Run) : Run :=
  let st := with_items (update index (λ it, {| file := file it; status := processing;
                                               downloadUrl := downloadUrl it;
                                               message := Some "Decoding…" |})) st in
  match items st !! index with
  | Some it =>
      let srcFile := file it in
      set_job w (Decoding index srcFile
                   (sync (aborted st) (BatchComponent.decodeImage dom srcFile))) st
  | None => set_job w Looping st
  end.

(** [runWorker], from the loop test to the next suspension or to its
    end. *)
Definition runWorker (w : nat) (st : Run) : Run :=
  match queue st with
  | [] => set_job w Returned st
  | idx :: rest =>
      processOne w idx {| queue := rest; items := items st; snacks := snacks st;
                          jobs := jobs st; aborted := aborted st; turn := turn st |}
  end.

(** Worker [w] is resumed. *)
Definition resume_job (w : nat) (st : Run) : Run :=
  match jobs st !! w with
  | Some (Decoding index srcFile decoding) =>
      match resume (env (turn st) (aborted st)) (aborted st) decoding with
      | Ret decoded =>
          let st := with_items (update index (λ it, {| file := file it; status := status it;
                                                       downloadUrl := downloadUrl it;
                                                       message := Some "Encoding (mozJPEG)…" |}))
                      st in
          set_job w (Encoding index srcFile decoded) st
      | Throw _ => set_job w Looping (fail index "Decode failed" st)
      | decoding' => set_job w (Decoding index srcFile decoding') st
      end
  | Some (Encoding index srcFile decoded) =>
      let encoder := encoderMap fm mozJPEG in
      match env (turn st) (aborted st) _ (encode mozJPEG decoded (defaultOptions encoder)) with
      | Fulfilled blob =>
          let outFile := mkFile (replace_extension (file_name srcFile)
                                   ("." ++ extension encoder))
                           (mimeType encoder) blob in
          let url := createObjectURL index outFile in
          let st := with_items (update index (λ it, {| file := file it; status := done;
                                                       downloadUrl := Some url;
                                                       message := Some "Done" |})) st in
          set_job w Looping st
      | Rejected _ => set_job w Looping (fail index "Encode failed" st)
      end
  | Some Looping => runWorker w st
  | _ => st
  end.

Definition step (st : Run) (ev : Event) : Run :=
  match ev with
  | Resume w => resume_job w (next_turn st)
  | Fire => fire (next_turn st)
  end.

Definition run_schedule (st : Run) (schedule : list Event) : Run :=
  fold_left step schedule st.

(** [componentDidMount] and [start], up to [await Promise.all(...)]: the
    workers are started one after the other. *)
Definition start (hardwareConcurrency : option Z) (files : list File)
    (signal_aborted : bool) : Run :=
  let items := (λ f, {| file := f; status := pending; downloadUrl := None;
                        message := None |}) <$> files in
  let n := Z.to_nat (concurrency hardwareConcurrency) in
  fold_left (λ st w, runWorker w st) (seq 0 n)
    {| queue := seq 0 (length items); items := items; snacks := [];
       jobs := replicate n Looping; aborted := signal_aborted; turn := 0 |}.

End Run.

(** The item a worker is busy with. *)
Definition job_index (j : Job) : option nat :=
  match j with
  | Decoding index _ _ | Encoding index _ _ => Some index
  | _ => None
  end.

Definition working (st : Run) (i : nat) : Prop :=
  ∃ w j, jobs st !! w = Some j ∧ job_index j = Some i.

(** How [processOne] leaves an item. *)
Definition settled (it : ItemState) : Prop :=
  status it = done ∧ message it = Some "Done" ∧ is_Some (downloadUrl it)
  ∨ status it = error ∧
    (message it = Some "Decode failed" ∨ message it = Some "Encode failed").

Definition started (files : list File) (st : Run) : nat :=
  length files - length (queue st).

Record Inv (files : list File) (st : Run) : Prop := {
  inv_files : file <$> items st = files;
  inv_queue : queue st = seq (started files st) (length (queue st));
  inv_queue_le : length (queue st) ≤ length files;
  inv_job_lt : ∀ w j i, jobs st !! w = Some j → job_index j = Some i → i < started files st;
  inv_job_inj : ∀ w w' j j' i,
    jobs st !! w = Some j → jobs st !! w' = Some j' →
    job_index j = Some i → job_index j' = Some i → w = w';
  inv_item : ∀ i it, items st !! i = Some it →
    if decide (started files st ≤ i) then status it = pending
    else working st i ∧ status it = processing ∨ ¬ working st i ∧ settled it;
  inv_snacks : Forall (λ msg, msg = "Decode failed" ∨ msg = "Encode failed") (snacks st);
  inv_returned : Returned ∈ jobs st → queue st = [];
}.

(** A run whose signal had fired before it started. *)
Record Cancelled (files : list File) (st : Run) : Prop := {
  can_aborted : aborted st = true;
  can_jobs : ∀ w j, jobs st !! w = Some j →
    j = Looping ∨ j = Returned ∨ ∃ i f, j = Decoding i f (Throw AbortError);
  can_items : ∀ i it, items st !! i = Some it →
    status it = pending ∨ status it = processing
    ∨ status it = error ∧ message it = Some "Decode failed";
  can_snacks : snacks st = replicate (length (snacks st)) "Decode failed";
  can_count : length (snacks st) + length (omap job_index (jobs st)) = started files st;
}.

End BatchApp.

(** Resuming worker [w] alone leaves the other workers as they are. *)
Definition others_kept (w : nat) (st st' : BatchApp.Run) : Prop :=
  (∀ w', w' ≠ w → BatchApp.jobs st' !! w' = BatchApp.jobs st !! w') ∧
  length (BatchApp.jobs st') = length (BatchApp.jobs st) ∧
  length (BatchApp.queue st') ≤ length (BatchApp.queue st).

(** Worker [w] has left the decoding of item [idx]. *)
Definition decoded_or_failed (w idx : nat) (f : File) (st st' : BatchApp.Run) : Prop :=
  (BatchApp.jobs st' !! w = Some BatchApp.Looping
   ∨ ∃ d, BatchApp.jobs st' !! w = Some (BatchApp.Encoding idx f d)) ∧
  BatchApp.queue st' = BatchApp.queue st.

(** Worker [w] is between two items, or has returned. *)
Definition between_items (w : nat) (st st' : BatchApp.Run) : Prop :=
  (BatchApp.jobs st' !! w = Some BatchApp.Looping
   ∨ BatchApp.jobs st' !! w = Some BatchApp.Returned) ∧
  BatchApp.queue st' = BatchApp.queue st.

(** ** A batch after its signal has fired

    From a moment at which the signal has fired, [n0] items had been taken
    and [q0] were queued: the workers [ws] have each taken one item since;
    every item taken since is bound to fail at the first check of
    [decodeImage]. *)
Record AfterCancel (files : list File) (n0 q0 : nat) (ws : list nat) (st : Batch)
  : Prop := {
  ac_aborted : aborted st = true;
  ac_started : n0 ≤ started files st;
  ac_nodup : NoDup ws;
  ac_taken : q0 ≤ length (queue st) + length ws;
  ac_spent : ∀ w, w ∈ ws →
    (∃ e, workers st !! w = Some (Crashed e)) ∨
    (∃ idx, workers st !! w = Some (Busy idx doomed));
  ac_doomed : ∀ w idx p,
    workers st !! w = Some (Busy idx p) → n0 ≤ idx → p = doomed ∧ w ∈ ws;
  ac_failed : ∀ c,
    c ∈ completions st → n0 ≤ of_item c → item_settled c = Rejected AbortError;
}.

(** ** The Batch component after its signal has fired

    From a moment at which the signal has fired and [n0] items had been
    taken: the decoding of an item taken since is bound to fail at its
    first check, and such an item is never done. *)
Record Unmounted (files : list File) (n0 : nat) (st : BatchApp.Run) : Prop := {
  un_aborted : BatchApp.aborted st = true;
  un_started : n0 ≤ BatchApp.started files st;
  un_jobs : ∀ w j i,
    BatchApp.jobs st !! w = Some j → BatchApp.job_index j = Some i → n0 ≤ i →
    ∃ f, j = BatchApp.Decoding i f (Throw AbortError);
  un_items : ∀ i it,
    BatchApp.items st !! i = Some it → n0 ≤ i →
    BatchApp.status it = BatchApp.pending ∨ BatchApp.status it = BatchApp.processing
    ∨ BatchApp.status it = BatchApp.error ∧
      BatchApp.message it = Some "Decode failed";
}.

(** ** Asynchronous computations: running a composite *)

Section Exec.
Context {A B : Type}.
Implicit Types (w : World) (p : Async A).

Lemma exec_settle_with w p (ok : A → Async B) (err : JsError → Async B) t :
  exec w t (settle_with p ok err) =
    let rest := match (exec w t p).2 with
                | Fulfilled a => ok a
                | Rejected e => err e
                end in
    (((exec w t p).1 ++ (exec w (turns w t p) rest).1)%list, (exec w (turns w t p) rest).2).
Proof.
  revert t; induction p as [a|e|k IH|X c k IH|k IH]; intros t; simpl.
  - by destruct (exec w t (ok a)).
  - by destruct (exec w t (err e)).
  - apply IH.
  - rewrite IH. by destruct (exec w (S t) (k (answer w (S t) c))).
  - apply IH.
Qed.

Lemma turns_settle_with w p (ok : A → Async B) (err : JsError → Async B) t :
  turns w t (settle_with p ok err) =
    turns w (turns w t p) match (exec w t p).2 with
                          | Fulfilled a => ok a
                          | Rejected e => err e
                          end.
Proof.
  revert t; induction p as [a|e|k IH|X c k IH|k IH]; intros t; simpl; try done.
  rewrite IH. by destruct (exec w (S t) (k (answer w (S t) c))).
Qed.

Lemma exec_bind w p (f : A → Async B) t :
  exec w t (p ≫= f) =
    match (exec w t p).2 with
    | Fulfilled a => (((exec w t p).1 ++ (exec w (turns w t p) (f a)).1)%list,
                      (exec w (turns w t p) (f a)).2)
    | Rejected e => ((exec w t p).1, Rejected e)
    end.
Proof.
  unfold mbind, Async_bind. rewrite exec_settle_with.
  destruct (exec w t p).2; simpl; [done|]. by rewrite app_nil_r.
Qed.

End Exec.

Lemma exec_await_async {A} w (p : Async A) t :
  exec w t (await_async p) = exec w t p.
Proof.
  unfold await_async. rewrite exec_settle_with.
  destruct (exec w t p) as [calls [a|e]]; simpl; by rewrite app_nil_r.
Qed.

Lemma turns_await_async {A} w (p : Async A) t :
  turns w t (await_async p) = S (turns w t p).
Proof.
  unfold await_async. rewrite turns_settle_with.
  by destruct (exec w t p).2.
Qed.

(** ** The stages, one by one *)

Lemma exec_decodeImage w t blob :
  exec w t (decodeImage blob) =
    if fired w t then ([], Rejected AbortError)
    else
      let sniff := sniffMimeType blob in
      if fired w (S t) then ([invoke sniff], Rejected AbortError)
      else match answer w (S t) sniff with
           | Rejected e => ([invoke sniff], Rejected e)
           | Fulfilled mimeType =>
               let probe := canDecodeImageType mimeType in
               if fired w (2 + t) || fired w (3 + t)
               then ([invoke sniff; invoke probe], Rejected AbortError)
               else match answer w (3 + t) probe with
                    | Rejected e => ([invoke sniff; invoke probe], Rejected e)
                    | Fulfilled canDecode =>
                        let decoder := decoder_for mimeType canDecode blob in
                        ([invoke sniff; invoke probe; invoke decoder],
                         match answer w (5 + t) decoder with
                         | Fulfilled image => Fulfilled image
                         | Rejected e =>
                             Rejected (if is_AbortError e then e else CouldntDecode)
                         end)
                    end
           end.
Proof.
  unfold decodeImage. cbn [Nat.add]. simpl.
  destruct (fired w t) eqn:F0; simpl; [done|]. rewrite F0; simpl.
  destruct (answer w (S t) (sniffMimeType blob)) as [mimeType|e];
    destruct (fired w (S t)) eqn:F1; simpl; try done.
  destruct (answer w (S (S (S t))) (canDecodeImageType mimeType)) as [canDecode|e];
    destruct (fired w (S (S t))) eqn:F2; simpl; try done;
    destruct (fired w (S (S (S t)))) eqn:F3; simpl; try done.
  unfold decoder_for.
  destruct (negb canDecode); simpl;
    repeat (match goal with |- context [if (?a =? ?b)%string then _ else _] =>
              destruct (a =? b)%string end); simpl;
    match goal with |- context [answer w ?n ?c] =>
      destruct (answer w n c) as [?|e]; simpl; [done|by destruct (is_AbortError e)]
    end.
Qed.

Lemma exec_preprocessImage w t data st :
  exec w t (preprocessImage data st) =
    if fired w t then ([], Rejected AbortError)
    else if (rotate_angle (pre_rotate st) =? 0)%Z then ([], Fulfilled data)
         else ([invoke (rotate data (pre_rotate st))],
               answer w (S t) (rotate data (pre_rotate st))).
Proof.
  unfold preprocessImage. simpl.
  destruct (fired w t); simpl; [done|].
  destruct (rotate_angle (pre_rotate st) =? 0)%Z; simpl; [done|].
  by destruct (answer w (S t) _).
Qed.

Lemma exec_processImage w t preprocessed decoded st :
  exec w t (processImage preprocessed decoded st) =
    if fired w t then ([], Rejected AbortError)
    else
      let to_resize := resize preprocessed decoded (proc_resize st) in
      if resize_enabled (proc_resize st) then
        match answer w (S t) to_resize with
        | Fulfilled resized =>
            let to_quantize := quantize resized (proc_quantize st) in
            if quantize_enabled (proc_quantize st)
            then ([invoke to_resize; invoke to_quantize], answer w (S (S t)) to_quantize)
            else ([invoke to_resize], Fulfilled resized)
        | Rejected e => ([invoke to_resize], Rejected e)
        end
      else
        let to_quantize := quantize preprocessed (proc_quantize st) in
        if quantize_enabled (proc_quantize st)
        then ([invoke to_quantize], answer w (S t) to_quantize)
        else ([], Fulfilled preprocessed).
Proof.
  unfold processImage. simpl.
  destruct (fired w t); simpl; [done|].
  destruct (resize_enabled (proc_resize st)); simpl.
  - destruct (answer w (S t) _) as [resized|e]; simpl; [|done].
    destruct (quantize_enabled (proc_quantize st)); simpl; [|done].
    by destruct (answer w (S (S t)) _).
  - destruct (quantize_enabled (proc_quantize st)); simpl; [|done].
    by destruct (answer w (S t) _).
Qed.

Lemma exec_encodeImage fm w t image st name :
  exec w t (encodeImage fm image st name) =
    if fired w t then ([], Rejected AbortError)
    else
      let meta := encoderMap fm (enc_type st) in
      let call := encode (enc_type st) image (enc_options st) in
      ([invoke call],
       match answer w (S t) call with
       | Fulfilled compressedData =>
           Fulfilled (mkFile (replace_extension name ("." ++ extension meta))
                             (mimeType meta) compressedData)
       | Rejected e => Rejected e
       end).
Proof.
  unfold encodeImage. simpl.
  destruct (fired w t); simpl; [done|].
  by destruct (answer w (S t) _).
Qed.


(** ** File names *)

Lemma is_dot_true c : is_dot c = true ↔ c = "."%char.
Proof. apply Ascii.eqb_eq. Qed.

Lemma substitution_no_dollar matched before after repl :
  no_dollar repl = true → substitution matched before after repl = repl.
Proof.
  induction repl as [|c r IH]; simpl; [done|].
  destruct (c =? "$")%char; simpl; [done|].
  intros H. by rewrite IH.
Qed.

Lemma no_dot_app_dot base old : no_dot (base ++ String "." old) = false.
Proof.
  induction base as [|c b IH]; simpl; [done|].
  rewrite IH. apply andb_false_r.
Qed.

Lemma match_extension_last_dot base old :
  no_dot old = true →
  match_extension (base ++ String "." old) = Some (base, String "." old).
Proof.
  intros Hold. induction base as [|c b IH]; simpl.
  - by rewrite Hold.
  - by rewrite no_dot_app_dot, andb_false_r, IH.
Qed.

Lemma match_extension_no_dot s : no_dot s = true → match_extension s = None.
Proof.
  induction s as [|c s IH]; simpl; [done|].
  intros [Hc Hs]%andb_true_iff. rewrite IH by done.
  apply negb_true_iff in Hc. by rewrite Hc.
Qed.

Lemma last_dot_exists s :
  no_dot s = false → ∃ base old, s = (base ++ String "." old)%string ∧ no_dot old = true.
Proof.
  induction s as [|c s IH]; simpl; [done|].
  destruct (no_dot s) eqn:Hs.
  - rewrite andb_true_r. intros Hc%negb_false_iff%is_dot_true. subst c.
    by exists EmptyString, s.
  - intros _. destruct IH as (base & old & -> & Hold); [done|].
    by exists (String c base), old.
Qed.

Lemma replace_extension_last_dot base old ext :
  no_dot old = true → no_dollar ext = true →
  replace_extension (base ++ "." ++ old) ("." ++ ext) = (base ++ "." ++ ext)%string.
Proof.
  intros Hold Hext. unfold replace_extension. simpl.
  rewrite match_extension_last_dot by done. simpl.
  by rewrite substitution_no_dollar.
Qed.

Lemma replace_extension_no_dot name repl :
  no_dot name = true → replace_extension name repl = name.
Proof. intros H. unfold replace_extension. by rewrite match_extension_no_dot. Qed.

(** ** Properties of the stages *)

(** C9. When the rotation angle is 0, Preprocess calls no capability, and
    it returns the image it was given, unchanged (provided the token has
    not fired when the stage is entered: a stage entered after cancellation
    raises the cancellation error, still without a call). *)
Theorem preprocessImage_identity (w : World) (t : nat) (data : ImageData)
    (st : PreprocessorState) :
  rotate_angle (pre_rotate st) = 0%Z →
  (exec w t (preprocessImage data st)).1 = [] ∧
  (fired w t = false → exec w t (preprocessImage data st) = ([], Fulfilled data)).
Proof.
  intros Hangle. rewrite exec_preprocessImage, Hangle. simpl.
  split; [by destruct (fired w t)|]. by intros ->.
Qed.

Lemma preprocessImage_identity_witness :
  exec calm 0 (preprocessImage wide {| pre_rotate := {| rotate_angle := 0 |} |})
  = ([], Fulfilled wide).
Proof.
  apply (preprocessImage_identity calm 0 wide {| pre_rotate := {| rotate_angle := 0 |} |});
    reflexivity.
Defined.

(** C8. Process applies resize and quantize according to their own
    [enabled] flags; when both are enabled, resize is called first and
    quantize is called on the image resize returned.  (A stage entered
    after cancellation raises the cancellation error; a failing resize ends
    the stage.) *)
Theorem processImage_resize_then_quantize (w : World) (t : nat)
    (preprocessed decoded : ImageData) (st : ProcessorState) :
  fired w t = false →
  let to_resize := resize preprocessed decoded (proc_resize st) in
  exec w t (processImage preprocessed decoded st) =
    match resize_enabled (proc_resize st), quantize_enabled (proc_quantize st) with
    | false, false => ([], Fulfilled preprocessed)
    | false, true =>
        ([invoke (quantize preprocessed (proc_quantize st))],
         answer w (S t) (quantize preprocessed (proc_quantize st)))
    | true, false => ([invoke to_resize], answer w (S t) to_resize)
    | true, true =>
        match answer w (S t) to_resize with
        | Fulfilled resized =>
            ([invoke to_resize; invoke (quantize resized (proc_quantize st))],
             answer w (S (S t)) (quantize resized (proc_quantize st)))
        | Rejected e => ([invoke to_resize], Rejected e)
        end
    end.
Proof.
  intros Hlive. rewrite exec_processImage, Hlive. simpl.
  destruct (resize_enabled _), (quantize_enabled _); try done;
    by destruct (answer w (S t) _).
Qed.

Lemma processImage_resize_then_quantize_witness :
  let st := {| proc_resize := {| resize_enabled := true; resize_options := [("width", 2%Z)] |};
               proc_quantize := {| quantize_enabled := true; quantize_options := [] |} |} in
  exec calm 0 (processImage wide wide st) =
    ([invoke (resize wide wide (proc_resize st)); invoke (quantize wide (proc_quantize st))],
     Fulfilled wide).
Proof.
  intros st. exact (processImage_resize_then_quantize calm 0 wide wide st eq_refl).
Defined.

(** C10. The name of the output file: when the source name contains a dot,
    what follows its last dot is replaced by the codec's extension; when it
    contains none, the name is kept and no extension is appended.  (The
    extension is inserted through [String.prototype.replace], so it must
    not contain a [$], which no file extension does.) *)
Theorem encodeImage_output_name (fm : FeatureMeta) (w : World) (t : nat)
    (image : ImageData) (st : EncoderState) (name : string) (out : File) :
  let ext := extension (encoderMap fm (enc_type st)) in
  no_dollar ext = true →
  (exec w t (encodeImage fm image st name)).2 = Fulfilled out →
  (∀ base old, name = (base ++ "." ++ old)%string → no_dot old = true →
     file_name out = (base ++ "." ++ ext)%string) ∧
  (no_dot name = false →
     ∃ base old, name = (base ++ "." ++ old)%string ∧ no_dot old = true) ∧
  (no_dot name = true → file_name out = name).
Proof.
  intros ext Hext. rewrite exec_encodeImage. simpl.
  destruct (fired w t); simpl; [done|].
  destruct (answer w (S t) _) as [bytes|e]; [|done].
  intros [= <-]; simpl. fold ext. split_and!.
  - intros base old -> Hold. by apply replace_extension_last_dot.
  - apply last_dot_exists.
  - apply replace_extension_no_dot.
Qed.

Lemma encodeImage_output_name_witness :
  let image := mkImageData 1 1 [7%Z] in
  let st := encoder_state sample_meta sample_options in
  (exec calm 0 (encodeImage sample_meta image st "photo.final.png")).2
    = Fulfilled (mkFile "photo.final.jpg" "image/jpeg" [7%Z]) ∧
  (exec calm 0 (encodeImage sample_meta image st "README")).2
    = Fulfilled (mkFile "README" "image/jpeg" [7%Z]) ∧
  file_name (mkFile "photo.final.jpg" "image/jpeg" [7%Z]) = "photo.final.jpg" ∧
  file_name (mkFile "README" "image/jpeg" [7%Z]) = "README".
Proof.
  intros image st. split_and!; [reflexivity..| |].
  - exact (proj1 (encodeImage_output_name sample_meta calm 0 image st "photo.final.png"
                    (mkFile "photo.final.jpg" "image/jpeg" [7%Z]) eq_refl eq_refl)
             "photo.final" "png" eq_refl eq_refl).
  - exact (proj2 (proj2 (encodeImage_output_name sample_meta calm 0 image st "README"
                           (mkFile "README" "image/jpeg" [7%Z]) eq_refl eq_refl))
             eq_refl).
Defined.




(** The Decode stage of [convert.ts] hands a source sniffed as SVG to the
    built-in decoder as it is. *)
Lemma decoder_for_svg canDecode blob :
  decoder_for "image/svg+xml" canDecode blob = builtinDecode blob.
Proof. by destruct canDecode. Qed.

Lemma decodeImage_svg_calls w t blob :
  answer w (S t) (sniffMimeType blob) = Fulfilled "image/svg+xml" →
  ∀ c, c ∈ (exec w t (decodeImage blob)).1 →
    c = invoke (sniffMimeType blob) ∨
    c = invoke (canDecodeImageType "image/svg+xml") ∨
    c = invoke (builtinDecode blob).
Proof.
  intros Hsniff c. rewrite exec_decodeImage. cbv zeta. rewrite Hsniff.
  cbn [Nat.add].
  destruct (fired w t), (fired w (S t)), (fired w (S (S t))), (fired w (S (S (S t))));
    try destruct (answer w (S (S (S t))) _) as [canDecode|e];
    try rewrite decoder_for_svg; simpl;
    rewrite ?elem_of_cons, ?elem_of_nil; tauto.
Qed.

(** C7 fails on the code.  An SVG source with a [viewBox] and no size: the
    Decode stage of [convertFile] never reads its text and passes the
    original blob to the built-in decoder, whereas the [decodeImage] of the
    Batch component reads the text, adds [width] and [height] taken from
    the [viewBox], and rasterizes the new document. *)
Theorem decodeImage_skips_svg_normalization :
  (exec reading 0 (decodeImage svg_file)).1 =
    [invoke (sniffMimeType svg_file);
     invoke (canDecodeImageType "image/svg+xml");
     invoke (builtinDecode svg_file)] ∧
  (exec reading 0 (BatchComponent.decodeImage sample_dom svg_file)).1 =
    [invoke (sniffMimeType svg_file);
     invoke (canDecodeImageType "image/svg+xml");
     invoke (blobToText svg_file);
     invoke (createImageBitmap
               (mkFile "" "image/svg+xml"
                  (utf8 "<svg viewBox='0 0 10 20' width='10' height='20'><rect/></svg>")))].
Proof. split; reflexivity. Qed.

Local Open Scope list_scope.

(** ** What a computation can return *)

Lemma AllRet_mono {A} (P Q : A → Prop) (p : Async A) :
  (∀ a, P a → Q a) → AllRet P p → AllRet Q p.
Proof. intros HPQ. induction p; simpl; eauto. Qed.

Lemma AllRet_settle_with {A B} (P : B → Prop) (p : Async A) ok err :
  (∀ a, AllRet P (ok a)) → (∀ e, AllRet P (err e)) → AllRet P (settle_with p ok err).
Proof. intros Hok Herr. induction p; simpl; eauto. Qed.

Lemma AllRet_bind {A B} (P : B → Prop) (p : Async A) (f : A → Async B) :
  (∀ a, AllRet P (f a)) → AllRet P (p ≫= f).
Proof. intros Hf. by apply AllRet_settle_with. Qed.

Lemma AllRet_sync {A} (P : A → Prop) aborted (p : Async A) :
  AllRet P p → AllRet P (sync aborted p).
Proof. induction p; simpl; eauto. Qed.

Lemma AllRet_resume {A} (P : A → Prop) ans aborted (p : Async A) :
  AllRet P p → AllRet P (resume ans aborted p).
Proof.
  destruct p; simpl; intros H; try done.
  - by apply (AllRet_sync P aborted (Signal k)).
  - by apply AllRet_sync.
  - by apply AllRet_sync.
Qed.

Lemma convertFile_input fm file opts :
  AllRet (λ r, input r = file) (convertFile fm file opts).
Proof. unfold convertFile. cbv zeta. repeat (apply AllRet_bind; intros ?). done. Qed.

Lemma item_input fm files opts idx :
  AllRet (λ r, files !! idx = Some (input r)) (item fm files opts idx).
Proof.
  unfold item. destruct (files !! idx) as [file|] eqn:Hfile; [|done].
  eapply AllRet_mono; [|apply convertFile_input]. by intros r ->.
Qed.

(** ** JavaScript arrays *)

Lemma slot_array_set_eq {A} (a : list (option A)) i x : slot (array_set a i x) i = Some x.
Proof.
  unfold slot, array_set. case_decide.
  - by rewrite list_lookup_insert_eq.
  - rewrite lookup_app_r by lia. rewrite lookup_app_r; rewrite length_replicate; [|lia].
    by replace (i - length a - (i - length a)) with 0 by lia.
Qed.

Lemma slot_array_set_ne {A} (a : list (option A)) i j x :
  i ≠ j → slot (array_set a i x) j = slot a j.
Proof.
  intros Hij. unfold slot, array_set. case_decide.
  - by rewrite list_lookup_insert_ne.
  - destruct (decide (j < length a)).
    + by rewrite lookup_app_l.
    + rewrite (lookup_ge_None_2 a j) by lia. rewrite lookup_app_r by lia.
      destruct (decide (j < i)).
      * rewrite lookup_app_l by (rewrite length_replicate; lia).
        by rewrite lookup_replicate_2 by lia.
      * rewrite lookup_app_r by (rewrite length_replicate; lia).
        rewrite length_replicate.
        rewrite lookup_ge_None_2; [done|simpl; lia].
Qed.

Lemma length_array_set {A} (a : list (option A)) i x :
  length (array_set a i x) = length a `max` S i.
Proof.
  unfold array_set. case_decide.
  - rewrite length_insert. lia.
  - rewrite !length_app, length_replicate. simpl. lia.
Qed.

Lemma forallb_lookup {A} (f : A → bool) (l : list A) :
  forallb f l = true ↔ ∀ i x, l !! i = Some x → f x = true.
Proof.
  rewrite <- Is_true_true, forallb_True, Forall_lookup.
  split; intros H i x Hx; apply Is_true_true, (H i x Hx).
Qed.

Lemma quiescent_lookup st w wk :
  quiescent st = true → workers st !! w = Some wk → is_Busy wk = false.
Proof.
  unfold quiescent. rewrite forallb_lookup. intros H Hw.
  specialize (H w wk Hw). by destruct (is_Busy wk).
Qed.

(** ** The invariant is kept *)

Section InvariantProofs.
Variable fm : FeatureMeta.
Variable env : Env.
Variable files : list File.
Variable opts : BatchOptions.

(** [Inv] only reads the shared variables and the workers. *)
Lemma Inv_same st st' :
  queue st' = queue st → results st' = results st → done st' = done st →
  completions st' = completions st → workers st' = workers st →
  rejection st' = rejection st →
  Inv files st → Inv files st'.
Proof.
  intros Hq Hr Hd Hc Hw Hj [].
  split; unfold started, busy_with, completed in *;
    rewrite ?Hq, ?Hr, ?Hd, ?Hc, ?Hw, ?Hj; done.
Qed.

Lemma queue_head st idx rest :
  Inv files st → queue st = idx :: rest →
  idx = started files st ∧ rest = seq (S (started files st)) (length rest) ∧
  started files st < total files ∧ total files - length rest = S (started files st).
Proof.
  intros HI Hq. pose proof (inv_queue _ _ HI) as Hseq.
  pose proof (inv_queue_le _ _ HI) as Hle.
  unfold started in *. rewrite Hq in *. simpl in *.
  injection Hseq as Hidx Hrest. repeat split; try done; lia.
Qed.

Lemma lookup_insert_worker (ws : list Worker) w x w0 y :
  <[w := x]> ws !! w0 = Some y → (w0 = w ∧ y = x) ∨ (w0 ≠ w ∧ ws !! w0 = Some y).
Proof.
  rewrite list_lookup_insert_Some. intros [(-> & -> & _)|(Hne & H)]; auto.
Qed.

Section Resumed.
(** Worker [w] is converting item [idx]. *)
Variables (st : Batch) (w idx : nat) (p : Async ConvertResult).
Hypothesis HI : Inv files st.
Hypothesis Hw : workers st !! w = Some (Busy idx p).

Lemma resumed_lt : w < length (workers st).
Proof. by eapply lookup_lt_Some. Qed.

Lemma resumed_started : idx < started files st.
Proof. by eapply inv_busy_lt. Qed.

Lemma resumed_not_completed c : c ∈ completions st → of_item c ≠ idx.
Proof.
  intros Hc Heq. eapply inv_done_busy; [done..|]. rewrite Heq. by exists w, p.
Qed.

Lemma resumed_only w' p' : workers st !! w' = Some (Busy idx p') → w' = w.
Proof. intros Hw'. by eapply inv_busy_inj. Qed.

(** [convertFile] is still running. *)
Lemma Inv_continue st' p' :
  queue st' = queue st → results st' = results st → done st' = done st →
  completions st' = completions st → rejection st' = rejection st →
  workers st' = <[w := Busy idx p']> (workers st) →
  AllRet (λ r, files !! idx = Some (input r)) p' →
  Inv files st'.
Proof.
  intros Hq Hr Hd Hc Hj Hws Hp'.
  pose proof resumed_lt as Hlt.
  assert (Hbusy : ∀ i, busy_with st' i ↔ busy_with st i).
  { intros i. unfold busy_with. rewrite Hws. split.
    - intros (w0 & q & [[-> [= -> ->]]|[_ H]]%lookup_insert_worker); eauto.
    - intros (w0 & q & H). destruct (decide (w0 = w)) as [->|Hne].
      + rewrite Hw in H. injection H as -> ->.
        exists w, p'. by rewrite list_lookup_insert_eq.
      + exists w0, q. by rewrite list_lookup_insert_ne. }
  destruct HI as [Iq Ile Ilt Iinj Iret Idlt Ind Idb Icov Icnt Itot Isnap Ires Ilen Irej Ifin Icr].
  split; unfold started, completed in *; rewrite ?Hq, ?Hr, ?Hd, ?Hc, ?Hj; try done.
  - intros w0 i q. rewrite Hws.
    intros [[-> [= -> ->]]|[_ H]]%lookup_insert_worker; eauto.
  - intros w0 w1 i q q'. rewrite Hws.
    intros [[-> [= -> ->]]|[Hne H]]%lookup_insert_worker
           [[-> [= ->]]|[Hne' H']]%lookup_insert_worker; try done.
    + subst. by apply resumed_only in H'.
    + apply resumed_only in H. done.
    + eauto.
  - intros w0 i q. rewrite Hws.
    intros [[-> [= -> ->]]|[_ H]]%lookup_insert_worker; eauto.
  - intros c Hc'. rewrite Hbusy. auto.
  - intros i Hi. rewrite Hbusy. auto.
  - rewrite Hws. intros (w0 & [[-> [=]]|[_ H]]%lookup_insert_worker)%list_elem_of_lookup.
    apply Ifin, list_elem_of_lookup. eauto.
  - intros e. rewrite Hws.
    intros (w0 & [[-> [=]]|[_ H]]%lookup_insert_worker)%list_elem_of_lookup.
    apply (Icr e), list_elem_of_lookup. eauto.
Qed.

(** [convertFile] has settled: the [finally] block has run for item
    [idx], recorded as [c], and worker [w] has become [x]: it has
    taken the next item, has found the queue empty, or has thrown. *)
Lemma Inv_finish st' c x :
  of_item c = idx → arg_done c = S (done st) → arg_total c = total files →
  completions st' = completions st ++ [c] →
  done st' = S (done st) →
  workers st' = <[w := x]> (workers st) →
  match item_settled c with
  | Fulfilled r =>
      results st' = array_set (results st) idx r ∧ results_then c = results st' ∧
      files !! idx = Some (input r) ∧ rejection st' = rejection st
  | Rejected e => results st' = results st ∧ rejection st' ≠ None
  end →
  match x with
  | Busy i q =>
      queue st = i :: queue st' ∧ AllRet (λ r, files !! i = Some (input r)) q
  | Finished => queue st = [] ∧ queue st' = []
  | Crashed _ => queue st' = queue st ∧ rejection st' ≠ None
  end →
  Inv files st'.
Proof.
  intros Hitem Hadone Hatotal Hc Hd Hws Hsettled Hx.
  pose proof resumed_lt as Hlt. pose proof resumed_started as Hidx.
  pose proof resumed_not_completed as Hfresh.
  set (S0 := started files st) in *. set (S' := started files st').
  assert (Hqueue : queue st' = seq S' (length (queue st')) ∧
                   length (queue st') ≤ total files ∧ S0 ≤ S' ∧
                   (queue st = [] → queue st' = []) ∧
                   (S' ≠ S0 → ∃ q, x = Busy S0 q ∧ S' = S S0)).
  { subst S0 S'. destruct x as [i q| |e].
    - destruct Hx as [Hq _].
      destruct (queue_head st i (queue st') HI Hq) as (-> & Hrest & Hlt' & Hs).
      pose proof (inv_queue_le _ _ HI) as Hle. rewrite Hq in Hle. simpl in Hle.
      assert (Hs' : started files st' = S (started files st)) by exact Hs.
      rewrite Hs'. split_and!; [done|lia|lia|by rewrite Hq|eauto].
    - destruct Hx as [Hq Hq']. unfold started. rewrite Hq, Hq'. simpl.
      split_and!; try done; lia.
    - destruct Hx as [Hx _]. unfold started. rewrite Hx. split_and!; try done.
      + apply (inv_queue _ _ HI).
      + apply (inv_queue_le _ _ HI). }
  destruct Hqueue as (Hq1 & Hq2 & Hq3 & Hq4 & Hq5).
  assert (Hnew : ∀ i q, x = Busy i q →
            i = S0 ∧ S' = S S0 ∧ AllRet (λ r, files !! i = Some (input r)) q).
  { intros i q ->. destruct Hx as [Hq Hq'].
    destruct (queue_head st i (queue st') HI Hq) as (-> & _ & _ & Hs).
    by split_and!. }
  destruct HI as [Iq Ile Ilt Iinj Iret Idlt Ind Idb Icov Icnt Itot Isnap Ires Ilen Irej Ifin Icr].
  fold S0 in Ilt, Idlt, Icov, Ilen.
  assert (Hin : ∀ c', c' ∈ completions st' ↔ c' ∈ completions st ∨ c' = c).
  { intros c'. by rewrite Hc, elem_of_app, list_elem_of_singleton. }
  assert (Hlt_c : ∀ c', c' ∈ completions st' → of_item c' < S0).
  { intros c' [H| ->]%Hin; [by apply Idlt|by rewrite Hitem]. }
  split; fold S'.
  - done.
  - done.
  - intros w0 i q. rewrite Hws. intros [[-> <-]|[_ H]]%lookup_insert_worker.
    + destruct (Hnew i q eq_refl) as (-> & -> & _). lia.
    + apply Ilt in H. lia.
  - intros w0 w1 i q q'. rewrite Hws.
    intros [[-> <-]|[Hne H]]%lookup_insert_worker
           [[-> Heq]|[Hne' H']]%lookup_insert_worker; try done.
    + destruct (Hnew i q eq_refl) as (-> & _). apply Ilt in H'. lia.
    + destruct (Hnew i q' (eq_sym Heq)) as (-> & _). apply Ilt in H. lia.
    + eauto.
  - intros w0 i q. rewrite Hws. intros [[-> <-]|[_ H]]%lookup_insert_worker.
    + by destruct (Hnew i q eq_refl) as (_ & _ & ?).
    + eauto.
  - intros c' Hc'. apply Hlt_c in Hc'. lia.
  - rewrite Hc, fmap_app. apply NoDup_app. split_and!; [done| |].
    + intros i (c' & -> & Hc')%list_elem_of_fmap. simpl.
      rewrite list_elem_of_singleton, Hitem. by apply Hfresh.
    + simpl. apply NoDup_singleton.
  - intros c' Hc' (w0 & q & Hb). rewrite Hws in Hb.
    apply lookup_insert_worker in Hb as [[-> <-]|[Hne H]].
    + destruct (Hnew _ q eq_refl) as (Heq & _). apply Hlt_c in Hc'. lia.
    + apply Hin in Hc' as [Hc'| ->].
      * apply (Idb c' Hc'). by exists w0, q.
      * rewrite Hitem in H. by apply resumed_only in H.
  - intros i Hi. destruct (decide (i < S0)) as [Hi0|Hi0].
    + destruct (Icov i Hi0) as [(w0 & q & Hb)|Hdone].
      * destruct (decide (w0 = w)) as [->|Hne].
        -- rewrite Hw in Hb. injection Hb as -> ->. right.
           unfold completed. rewrite Hc, fmap_app, elem_of_app. right.
           simpl. rewrite Hitem. apply list_elem_of_singleton. done.
        -- left. exists w0, q. rewrite Hws. by rewrite list_lookup_insert_ne.
      * right. unfold completed in *. rewrite Hc, fmap_app, elem_of_app. by left.
    + destruct Hq5 as (q & -> & HS'); [lia|]. left.
      assert (i = S0) as -> by lia.
      exists w, q. rewrite Hws. by rewrite list_lookup_insert_eq.
  - rewrite Hc, fmap_app, Icnt, Hd, seq_S. simpl. by rewrite Hadone.
  - intros c' [H| ->]%Hin; auto.
  - intros c' r [Hc'| ->]%Hin Hr.
    + destruct (Isnap c' r Hc' Hr) as (H1 & H2 & H3). split_and!; try done.
      destruct (item_settled c) as [r0|e].
      * destruct Hsettled as (-> & _). rewrite slot_array_set_ne; [done|].
        intros Heq. by apply (Hfresh c').
      * by destruct Hsettled as (-> & _).
    + rewrite Hr in Hsettled. destruct Hsettled as (Hres & Hthen & Hfile & _).
      rewrite Hthen, Hres, Hitem. split_and!; try done; apply slot_array_set_eq.
  - intros i r Hslot. destruct (item_settled c) as [r0|e] eqn:Hr.
    + destruct Hsettled as (Hres & _). rewrite Hres in Hslot.
      destruct (decide (idx = i)) as [<-|Hne].
      * rewrite slot_array_set_eq in Hslot. injection Hslot as <-.
        exists c. rewrite Hin. auto.
      * rewrite slot_array_set_ne in Hslot by done.
        destruct (Ires i r Hslot) as (c' & ? & ? & ?). exists c'. rewrite Hin. auto.
    + destruct Hsettled as (Hres & _). rewrite Hres in Hslot.
      destruct (Ires i r Hslot) as (c' & ? & ? & ?). exists c'. rewrite Hin. auto.
  - destruct (item_settled c) as [r0|e].
    + destruct Hsettled as (-> & _). rewrite length_array_set. lia.
    + destruct Hsettled as (-> & _). lia.
  - intros Hrej c' [Hc'| ->]%Hin.
    + destruct (item_settled c) as [r0|e].
      * destruct Hsettled as (_ & _ & _ & Heq). rewrite Heq in Hrej. by apply Irej.
      * by destruct Hsettled as (_ & ?).
    + destruct (item_settled c) as [r0|e]; [done|]. by destruct Hsettled as (_ & ?).
  - rewrite Hws. intros (w0 & [[-> <-]|[_ H]]%lookup_insert_worker)%list_elem_of_lookup.
    + by destruct Hx.
    + apply Hq4, Ifin, list_elem_of_lookup. eauto.
  - intros e. rewrite Hws.
    intros (w0 & [[-> <-]|[_ H]]%lookup_insert_worker)%list_elem_of_lookup.
    + by destruct Hx.
    + assert (rejection st ≠ None) as Hold.
      { apply (Icr e), list_elem_of_lookup. eauto. }
      destruct (item_settled c) as [r0|e0].
      * destruct Hsettled as (_ & _ & _ & Heq). by rewrite Heq.
      * by destruct Hsettled as (_ & ?).
Qed.
End Resumed.

Lemma Inv_next_turn st : Inv files st → Inv files (next_turn st).
Proof. by apply Inv_same. Qed.

Lemma Inv_resume_worker w st : Inv files st → Inv files (resume_worker fm env files opts w st).
Proof.
  intros HI. unfold resume_worker.
  destruct (workers st !! w) as [[idx p| |e]|] eqn:Hw; try done.
  pose proof (inv_busy_ret _ _ HI w idx p Hw) as Hp.
  apply (AllRet_resume _ (env (turn st) (aborted st)) (aborted st)) in Hp.
  destruct (resume _ _ p) as [res|e|k|X c k|k] eqn:Hres.
  - simpl in Hp. unfold run. simpl.
    set (c := {| arg_done := S (done st); arg_total := total files; of_item := idx;
                 item_settled := Fulfilled res;
                 results_then := array_set (results st) idx res |}).
    destruct (queue st) as [|idx' rest] eqn:Hq.
    + eapply (Inv_finish st w idx p HI Hw _ c Finished); simpl; try done.
    + eapply (Inv_finish st w idx p HI Hw _ c (Busy idx' _)); simpl; try done.
      split; [done|]. apply AllRet_sync, item_input.
  - set (c := {| arg_done := S (done st); arg_total := total files; of_item := idx;
                 item_settled := Rejected e; results_then := results st |}).
    eapply (Inv_finish st w idx p HI Hw _ c (Crashed e)); simpl; try done.
  - by eapply (Inv_continue st w idx p HI Hw).
  - by eapply (Inv_continue st w idx p HI Hw).
  - by eapply (Inv_continue st w idx p HI Hw).
Qed.

Lemma Inv_step st ev : Inv files st → Inv files (step fm env files opts st ev).
Proof.
  intros HI. destruct ev as [w|]; unfold step.
  - by apply Inv_resume_worker, Inv_next_turn.
  - by apply (Inv_same st).
Qed.

Lemma Inv_run_schedule st schedule :
  Inv files st → Inv files (run_schedule fm env files opts st schedule).
Proof.
  unfold run_schedule. revert st.
  induction schedule as [|ev schedule IH]; intros st HI; simpl; [done|].
  by apply IH, Inv_step.
Qed.

(** [Array.from] calls [run] once more. *)
Lemma Inv_spawn_one st :
  Inv files st →
  Inv files (with_workers (workers (run fm files opts st).1 ++ [(run fm files opts st).2])
               (run fm files opts st).1).
Proof.
  intros HI. unfold run.
  destruct (queue st) as [|idx rest] eqn:Hq; simpl.
  - assert (Hbusy : ∀ i, busy_with (with_workers (workers st ++ [Finished]) st) i
                         ↔ busy_with st i).
    { intros i. unfold busy_with. simpl. split.
      - intros (w & q & [[_ H]|[_ [=]]]%lookup_snoc_Some). eauto.
      - intros (w & q & H). exists w, q. apply lookup_snoc_Some.
        left. split; [by eapply lookup_lt_Some|done]. }
    destruct HI as [Iq Ile Ilt Iinj Iret Idlt Ind Idb Icov Icnt Itot Isnap Ires Ilen Irej Ifin Icr].
    split; unfold started, completed in *; simpl; try done.
    + intros w i q [[_ H]|[_ [=]]]%lookup_snoc_Some. eauto.
    + intros w w' i q q' [[_ H]|[_ [=]]]%lookup_snoc_Some
                         [[_ H']|[_ [=]]]%lookup_snoc_Some. eauto.
    + intros w i q [[_ H]|[_ [=]]]%lookup_snoc_Some. eauto.
    + intros c Hc. rewrite Hbusy. auto.
    + intros i Hi. rewrite Hbusy. auto.
    + intros e [H|[=]%list_elem_of_singleton]%elem_of_app. eauto.
  - destruct (queue_head st idx rest HI Hq) as (-> & Hrest & Hlt & Hs).
    set (st' := with_workers _ _).
    assert (Hs' : started files st' = S (started files st)) by exact Hs.
    assert (Hold : ∀ i, busy_with st i → busy_with st' i).
    { intros i (w & q & H). exists w, q. apply lookup_snoc_Some.
      left. split; [by eapply lookup_lt_Some|done]. }
    destruct HI as [Iq Ile Ilt Iinj Iret Idlt Ind Idb Icov Icnt Itot Isnap Ires Ilen Irej Ifin Icr].
    split; rewrite ?Hs'; simpl; try done.
    + rewrite Hq in Ile. simpl in Ile. lia.
    + intros w i q [[_ H]|[_ [= <- _]]]%lookup_snoc_Some; [|lia].
      apply Ilt in H. lia.
    + intros w w' i q q' [[Hl H]|[-> [= <- _]]]%lookup_snoc_Some
                         [[Hl' H']|[-> Heq]]%lookup_snoc_Some; try done.
      * eauto.
      * injection Heq as <- _. apply Ilt in H. lia.
      * apply Ilt in H'. lia.
    + intros w i q [[_ H]|[_ [= <- <-]]]%lookup_snoc_Some; [eauto|].
      apply AllRet_sync, item_input.
    + intros c Hc. apply Idlt in Hc. lia.
    + intros c Hc (w & q & [[_ H]|[_ [= Heq _]]]%lookup_snoc_Some).
      * apply (Idb c Hc). by exists w, q.
      * apply Idlt in Hc. lia.
    + intros i Hi. destruct (decide (i < started files st)) as [Hi0|Hi0].
      * destruct (Icov i Hi0) as [Hb|Hd]; [left; by apply Hold|by right].
      * left. assert (i = started files st) as -> by lia.
        exists (length (workers st)), (sync (aborted st) (item fm files opts (started files st))).
        apply lookup_snoc_Some. by right.
    + lia.
    + intros [H|[=]%list_elem_of_singleton]%elem_of_app.
      apply Ifin in H. by rewrite Hq in H.
    + intros e [H|[=]%list_elem_of_singleton]%elem_of_app. eauto.
Qed.

Lemma Inv_spawn n st : Inv files st → Inv files (spawn fm files opts n st).
Proof.
  revert st. induction n as [|n IH]; intros st HI; simpl; [done|].
  pose proof (Inv_spawn_one st HI) as H1.
  destruct (run fm files opts st) as [st1 wk]. by apply IH.
Qed.

Lemma Inv_convertFiles signal_aborted :
  Inv files (convertFiles fm files opts signal_aborted).
Proof.
  apply Inv_spawn.
  split; unfold started, busy_with, completed; simpl;
    rewrite ?length_seq, ?Nat.sub_diag; try done.
  - by intros c ?%elem_of_nil.
  - apply NoDup_nil_2.
  - by intros c ?%elem_of_nil.
  - lia.
  - by intros c ?%elem_of_nil.
  - by intros c r ?%elem_of_nil.
  - by intros _ c ?%elem_of_nil.
  - by intros ?%elem_of_nil.
  - by intros e ?%elem_of_nil.
Qed.
End InvariantProofs.

(** ** The scheduler: workers *)

Section Workers.
Variable fm : FeatureMeta.
Variable env : Env.
Variable files : list File.
Variable opts : BatchOptions.

Lemma length_workers_spawn n st :
  length (workers (spawn fm files opts n st)) = length (workers st) + n.
Proof.
  revert st. induction n as [|n IH]; intros st; simpl; [lia|].
  unfold run. destruct (queue st); rewrite IH; simpl; rewrite length_app; simpl; lia.
Qed.

Lemma length_workers_resume w st :
  length (workers (resume_worker fm env files opts w st)) = length (workers st).
Proof.
  unfold resume_worker.
  destruct (workers st !! w) as [[idx p| |e]|]; try done.
  destruct (resume _ _ p); simpl; rewrite ?length_insert; try done.
  unfold run; simpl. destruct (queue st); simpl; by rewrite length_insert.
Qed.

Lemma length_workers_step st ev :
  length (workers (step fm env files opts st ev)) = length (workers st).
Proof. destruct ev; simpl; [|done]. by rewrite length_workers_resume. Qed.

Lemma length_workers_run_schedule st schedule :
  length (workers (run_schedule fm env files opts st schedule)) = length (workers st).
Proof.
  unfold run_schedule. revert st.
  induction schedule as [|ev schedule IH]; intros st; simpl; [done|].
  by rewrite IH, length_workers_step.
Qed.

Lemma conc_clamp : conc opts = clamp (default 2%Z (concurrency opts)) 1 8.
Proof.
  unfold conc, clamp.
  destruct (Z.ltb_spec (default 2%Z (concurrency opts)) 1);
    destruct (Z.ltb_spec 8 (default 2%Z (concurrency opts))); lia.
Qed.
End Workers.

(** C6. At any moment of any run, the number of workers is
    [min(clamp(requested, 1, 8), T)], where the requested concurrency is 2
    when none is given: a request of 0 or less gives [min(1, T)] workers
    and a request of 100 gives [min(8, T)]. *)
Theorem workers_spawned (fm : FeatureMeta) (env : Env) (files : list File)
    (opts : BatchOptions) (signal_aborted : bool) (schedule : list Event) :
  let st := run_schedule fm env files opts
              (convertFiles fm files opts signal_aborted) schedule in
  let requested := default 2%Z (concurrency opts) in
  conc opts = clamp requested 1 8 ∧
  length (workers st) = Z.to_nat (clamp requested 1 8) `min` length files ∧
  (concurrency opts = None → length (workers st) = 2 `min` length files) ∧
  ((requested ≤ 0)%Z → conc opts = 1%Z ∧ length (workers st) = 1 `min` length files) ∧
  (requested = 100%Z → conc opts = 8%Z ∧ length (workers st) = 8 `min` length files).
Proof.
  intros st requested.
  assert (Hn : length (workers st) = Z.to_nat (clamp requested 1 8) `min` length files).
  { subst st. rewrite length_workers_run_schedule. unfold convertFiles.
    rewrite length_workers_spawn, conc_clamp. simpl. unfold total. fold requested. lia. }
  split_and!; [apply conc_clamp|done|..].
  - intros Hnone. rewrite Hn. subst requested. by rewrite Hnone.
  - intros Hle. rewrite Hn, conc_clamp. fold requested. unfold clamp.
    destruct (Z.ltb_spec requested 1); [done|lia].
  - intros Heq. rewrite Hn, conc_clamp. fold requested. by rewrite Heq.
Qed.

Lemma workers_spawned_witness :
  let files := [png "1.png"; png "2.png"; png "3.png"; png "4.png"; png "5.png";
                png "6.png"; png "7.png"; png "8.png"; png "9.png"; png "10.png"] in
  let workers_for opts :=
    workers (run_schedule sample_meta sample_env files opts
               (convertFiles sample_meta files opts false) []) in
  length (workers_for (batch_options None)) = 2 `min` length files ∧
  length (workers_for (batch_options (Some (-3)%Z))) = 1 `min` length files ∧
  length (workers_for (batch_options (Some 100%Z))) = 8 `min` length files.
Proof.
  intros files workers_for. split_and!.
  - exact (proj1 (proj2 (proj2 (workers_spawned sample_meta sample_env files
                                  (batch_options None) false []))) eq_refl).
  - refine (proj2 (proj1 (proj2 (proj2 (proj2 (workers_spawned sample_meta sample_env files
                                  (batch_options (Some (-3)%Z)) false [])))) _)).
    simpl. lia.
  - exact (proj2 (proj2 (proj2 (proj2 (proj2 (workers_spawned sample_meta sample_env files
                                  (batch_options (Some 100%Z)) false [])))) eq_refl)).
Defined.

(** ** The scheduler: results and progress *)

Section Reachable.
Variable fm : FeatureMeta.
Variable env : Env.
Variable files : list File.
Variable opts : BatchOptions.
Variable signal_aborted : bool.
Variable schedule : list Event.

Lemma reachable_Inv :
  Inv files (run_schedule fm env files opts
               (convertFiles fm files opts signal_aborted) schedule).
Proof. apply Inv_run_schedule, Inv_convertFiles. Qed.

Lemma reachable_workers :
  length (workers (run_schedule fm env files opts
                     (convertFiles fm files opts signal_aborted) schedule))
  = Z.to_nat (Z.min (conc opts) (Z.of_nat (total files))).
Proof.
  rewrite length_workers_run_schedule. unfold convertFiles.
  by rewrite length_workers_spawn.
Qed.

(** The batch has returned: nothing is queued, nobody is busy and no item
    has failed. *)
Lemma returned rs :
  outcome (run_schedule fm env files opts
             (convertFiles fm files opts signal_aborted) schedule) = Returns rs →
  rs = results (run_schedule fm env files opts
                  (convertFiles fm files opts signal_aborted) schedule) ∧
  rejection (run_schedule fm env files opts
               (convertFiles fm files opts signal_aborted) schedule) = None ∧
  started files (run_schedule fm env files opts
                   (convertFiles fm files opts signal_aborted) schedule) = total files ∧
  ∀ i, ¬ busy_with (run_schedule fm env files opts
                      (convertFiles fm files opts signal_aborted) schedule) i.
Proof.
  pose proof reachable_Inv as HI. pose proof reachable_workers as Hlen.
  set (st := run_schedule _ _ _ _ _ _) in *.
  unfold outcome. destruct (rejection st) eqn:Hrej; [done|].
  destruct (forallb is_Finished (workers st)) eqn:Hall; [|done].
  intros [= <-]. rewrite forallb_lookup in Hall.
  assert (Hidle : ∀ i, ¬ busy_with st i).
  { intros i (w & p & Hw). by apply Hall in Hw. }
  split_and!; try done.
  assert (queue st = []) as Hq; [|unfold started; rewrite Hq; simpl; lia].
  destruct (workers st) as [|wk ws] eqn:Hws.
  - simpl in Hlen. pose proof (inv_queue_le _ _ HI) as Hle.
    assert (total files = 0) as Htot by (unfold conc in Hlen; lia).
    rewrite Htot in Hle. destruct (queue st); [done|simpl in Hle; lia].
  - apply (inv_finished _ _ HI). rewrite Hws.
    specialize (Hall 0 wk eq_refl). destruct wk; try done. apply elem_of_cons; auto.
Qed.
End Reachable.

(** ** Progress *)

Section Progress.
Variable files : list File.
Variable opts : BatchOptions.
Variable st : Batch.
Hypothesis HI : Inv files st.

Lemma started_total : started files st ≤ length files.
Proof. unfold started, total. lia. Qed.

Lemma queued_started i : i ∈ queue st → started files st ≤ i.
Proof. rewrite (inv_queue _ _ HI), elem_of_seq. lia. Qed.

Lemma unqueued_started i : i < length files → i ∉ queue st → i < started files st.
Proof.
  intros Hi Hq. pose proof (inv_queue_le _ _ HI) as Hle.
  destruct (decide (i < started files st)) as [|Hge]; [done|].
  exfalso. apply Hq. rewrite (inv_queue _ _ HI), elem_of_seq.
  unfold started, total in *. lia.
Qed.

(** Every completion is one of a different item, taken from the queue
    before. *)
Lemma completions_le_started : length (completions st) ≤ started files st.
Proof.
  rewrite <- (length_fmap of_item), <- (length_seq (started files st) 0).
  apply submseteq_length, NoDup_submseteq; [apply (inv_done_nodup _ _ HI)|].
  intros i (c & -> & Hc)%list_elem_of_fmap. apply elem_of_seq.
  apply (inv_done_lt _ _ HI) in Hc. lia.
Qed.

Lemma completions_done : length (completions st) = done st.
Proof. rewrite <- (length_fmap arg_done), (inv_count _ _ HI). apply length_seq. Qed.

Lemma quiescent_idle i : quiescent st = true → ¬ busy_with st i.
Proof. intros Hq (w & p & Hw). by apply (quiescent_lookup _ _ _ Hq) in Hw. Qed.

Lemma completions_quiescent :
  quiescent st = true → length (completions st) = started files st.
Proof.
  intros Hq. apply Nat.le_antisymm; [by apply completions_le_started|].
  rewrite <- (length_fmap of_item), <- (length_seq (started files st) 0).
  apply submseteq_length, NoDup_submseteq; [apply NoDup_seq|].
  intros i Hi%elem_of_seq.
  destruct (inv_cover _ _ HI i) as [Hb|Hc]; [lia| |done].
  by apply quiescent_idle in Hb.
Qed.

Lemma calls_completions c : c ∈ calls opts st → c ∈ completions st.
Proof. unfold calls. destruct (onProgress opts); [done|by intros ?%elem_of_nil]. Qed.

Lemma calls_count : arg_done <$> calls opts st = seq 1 (length (calls opts st)).
Proof.
  unfold calls. destruct (onProgress opts); [|done].
  rewrite completions_done. apply (inv_count _ _ HI).
Qed.

Lemma calls_bound c :
  c ∈ calls opts st → arg_total c = length files ∧ (1 ≤ arg_done c ≤ length files).
Proof.
  intros Hc%calls_completions. split; [by apply (inv_total _ _ HI)|].
  assert (arg_done c ∈ seq 1 (done st)) as Hin%elem_of_seq.
  { rewrite <- (inv_count _ _ HI). by apply list_elem_of_fmap_2. }
  pose proof completions_le_started. pose proof started_total.
  rewrite completions_done in *. lia.
Qed.

Lemma calls_nodup : NoDup (of_item <$> calls opts st).
Proof.
  unfold calls. destruct (onProgress opts); [|apply NoDup_nil_2].
  apply (inv_done_nodup _ _ HI).
Qed.

Lemma calls_final c :
  c ∈ calls opts st →
  of_item c < length files ∧ (of_item c ∉ queue st) ∧ ¬ busy_with st (of_item c) ∧
  ∀ r, item_settled c = Fulfilled r →
       slot (results_then c) (of_item c) = Some r ∧
       slot (results st) (of_item c) = Some r.
Proof.
  intros Hc%calls_completions.
  pose proof (inv_done_lt _ _ HI c Hc) as Hlt. pose proof started_total as Hle.
  split_and!.
  - lia.
  - intros Hq%queued_started. lia.
  - by apply (inv_done_busy _ _ HI).
  - intros r Hr. by destruct (inv_snapshot _ _ HI c r Hc Hr) as (? & ? & _).
Qed.

Lemma calls_cover i :
  onProgress opts = true →
  i < length files → i ∉ queue st → ¬ busy_with st i →
  ∃ c, c ∈ calls opts st ∧ of_item c = i.
Proof.
  intros Hcb Hi Hq Hidle. apply unqueued_started in Hq; [|done].
  destruct (inv_cover _ _ HI i Hq) as [Hb|(c & -> & Hc)%list_elem_of_fmap]; [done|].
  exists c. unfold calls. by rewrite Hcb.
Qed.

Lemma calls_complete :
  quiescent st = true → queue st = [] → onProgress opts = true →
  length (calls opts st) = length files ∧
  (∀ i, i < length files → ∃ c, c ∈ calls opts st ∧ of_item c = i) ∧
  (files ≠ [] → last (arg_done <$> calls opts st) = Some (length files)).
Proof.
  intros Hquiet Hq Hcb.
  assert (Hlen : length (calls opts st) = length files).
  { unfold calls. rewrite Hcb, (completions_quiescent Hquiet).
    unfold started, total. rewrite Hq. simpl. lia. }
  split_and!; [done| |].
  - intros i Hi. apply calls_cover; [done..| |by apply quiescent_idle].
    rewrite Hq. apply not_elem_of_nil.
  - intros Hne. rewrite calls_count, Hlen.
    destruct files as [|f fs]; [done|]. simpl length.
    rewrite seq_S. by rewrite last_snoc.
Qed.
End Progress.

(** When the batch returns, its workers have been through the queue. *)
Lemma returned_quiescent fm env files opts signal_aborted schedule rs :
  let st := run_schedule fm env files opts
              (convertFiles fm files opts signal_aborted) schedule in
  outcome st = Returns rs → quiescent st = true ∧ queue st = [].
Proof.
  intros st Hret.
  pose proof (reachable_Inv fm env files opts signal_aborted schedule) as HI.
  pose proof (inv_queue_le _ _ HI) as Hle.
  destruct (returned _ _ _ _ _ _ _ Hret) as (_ & _ & Hstarted & _).
  fold st in HI, Hle, Hstarted. split.
  - unfold outcome in Hret. destruct (rejection st); [done|].
    destruct (forallb is_Finished (workers st)) eqn:Hall; [|done].
    apply forallb_lookup. intros w wk Hwk.
    rewrite forallb_lookup in Hall. specialize (Hall w wk Hwk). by destruct wk.
  - unfold started in Hstarted. destruct (queue st); [done|]. simpl in *. lia.
Qed.

(** The calls of the progress callback, in any run and at any moment
    of it: [done] is 1 in the first call and one more in each next call,
    never more than [total]; no item causes two calls, and an item that
    causes one has left the queue, is no longer being converted, and, when
    its conversion succeeded, already has its result in [results] at the
    time of the call; conversely every item that has been taken and is no
    longer being converted has caused a call.  When the workers have been
    through the queue (in particular, when the batch returns) every item
    has caused exactly one call and the last [done] is [total]. *)
Theorem progress_reported (fm : FeatureMeta) (env : Env) (files : list File)
    (opts : BatchOptions) (signal_aborted : bool) (schedule : list Event) :
  let st := run_schedule fm env files opts
              (convertFiles fm files opts signal_aborted) schedule in
  let reported := calls opts st in
  arg_done <$> reported = seq 1 (length reported) ∧
  (∀ c, c ∈ reported → arg_total c = length files ∧ (1 ≤ arg_done c ≤ length files)) ∧
  NoDup (of_item <$> reported) ∧
  (∀ c, c ∈ reported →
     of_item c < length files ∧ (of_item c ∉ queue st) ∧ ¬ busy_with st (of_item c) ∧
     ∀ r, item_settled c = Fulfilled r →
          slot (results_then c) (of_item c) = Some r ∧
          slot (results st) (of_item c) = Some r) ∧
  (onProgress opts = true →
   ∀ i, i < length files → i ∉ queue st → ¬ busy_with st i →
        ∃ c, c ∈ reported ∧ of_item c = i) ∧
  (onProgress opts = true →
   quiescent st = true ∧ queue st = [] ∨ (∃ rs, outcome st = Returns rs) →
     length reported = length files ∧
     (∀ i, i < length files → ∃ c, c ∈ reported ∧ of_item c = i) ∧
     (files ≠ [] → last (arg_done <$> reported) = Some (length files))).
Proof.
  intros st reported.
  pose proof (reachable_Inv fm env files opts signal_aborted schedule) as HI.
  fold st in HI. split_and!.
  - by apply (calls_count files).
  - by apply calls_bound.
  - by apply (calls_nodup files).
  - by apply calls_final.
  - intros Hcb i. by apply calls_cover.
  - intros Hcb Hend.
    assert (quiescent st = true ∧ queue st = []) as [Hquiet Hq].
    { destruct Hend as [?|[rs Hret]]; [done|]. by eapply returned_quiescent. }
    by apply calls_complete.
Qed.

(** The first example scenario of the specification: three files, two
    workers, and the first file cannot be decoded. *)
Lemma progress_reported_witness :
  let files := [broken "a.png"; png "b.png"; png "c.png"] in
  let opts := batch_options (Some 2%Z) in
  let st := run_schedule sample_meta sample_env files opts
              (convertFiles sample_meta files opts false)
              (replicate 6 (Resume 0) ++ replicate 20 (Resume 1)) in
  quiescent st = true ∧ queue st = [] ∧
  (λ c, (arg_done c, arg_total c)) <$> calls opts st = [(1, 3); (2, 3); (3, 3)] ∧
  length (calls opts st) = length files ∧
  last (arg_done <$> calls opts st) = Some (length files).
Proof.
  intros files opts st.
  assert (Hquiet : quiescent st = true) by (vm_compute; reflexivity).
  assert (Hq : queue st = []) by (vm_compute; reflexivity).
  pose proof (progress_reported sample_meta sample_env files opts false
                (replicate 6 (Resume 0) ++ replicate 20 (Resume 1)))
    as (_ & _ & _ & _ & _ & Hdone).
  destruct (Hdone eq_refl (or_introl (conj Hquiet Hq))) as (Hlen & _ & Hlast).
  split_and!; [done|done|by vm_compute|exact Hlen|by apply Hlast].
Defined.

(** ** Cancellation before the start *)

Section CancelledProofs.
Variable fm : FeatureMeta.
Variable env : Env.
Variable files : list File.
Variable opts : BatchOptions.

Lemma item_doomed idx :
  idx < total files → sync true (item fm files opts idx) = doomed.
Proof.
  intros Hidx. unfold item.
  by destruct (lookup_lt_is_Some_2 files idx Hidx) as [file ->].
Qed.

Lemma Cancelled_spawn n k st :
  Cancelled files k st → length (workers st) = k → k + n ≤ total files →
  Cancelled files (k + n) (spawn fm files opts n st).
Proof.
  revert k st. induction n as [|n IH]; intros k st HC Hlen Hle; simpl.
  - by rewrite Nat.add_0_r.
  - destruct HC as [Ca Cr Cq Cc Cw Cj]. unfold run. rewrite Cq.
    replace (total files - k) with (S (total files - S k)) by lia. simpl.
    rewrite !Ca. rewrite item_doomed by lia.
    replace (k + S n) with (S k + n) by lia. apply IH; simpl; [|rewrite length_app; simpl; lia|lia].
    split; simpl; try done.
    intros w wk [[_ H]|[-> <-]]%lookup_snoc_Some; [eauto|]. left. by rewrite Hlen.
Qed.

Lemma Cancelled_step n st ev :
  Cancelled files n st → Cancelled files n (step fm env files opts st ev).
Proof.
  intros [Ca Cr Cq Cc Cw Cj]. destruct ev as [w|]; [|by split].
  unfold step, resume_worker. simpl.
  destruct (workers st !! w) as [wk|] eqn:Hw; [|by split].
  destruct (Cw w wk Hw) as [-> | ->]; [|by split].
  simpl. rewrite ?Ca. simpl. split; simpl; try done.
  - intros c [H| ->%list_elem_of_singleton]%elem_of_app; [eauto|done].
  - intros w' wk [[-> ->]|[_ H]]%lookup_insert_worker; [by right|eauto].
  - intros e [= <-]. destruct (rejection st) as [e'|] eqn:Hrej; [|done].
    simpl. by apply Cj.
Qed.

Lemma Cancelled_run_schedule n st schedule :
  Cancelled files n st → Cancelled files n (run_schedule fm env files opts st schedule).
Proof.
  unfold run_schedule. revert st.
  induction schedule as [|ev schedule IH]; intros st HC; simpl; [done|].
  by apply IH, Cancelled_step.
Qed.

Lemma Cancelled_convertFiles :
  Cancelled files (Z.to_nat (Z.min (conc opts) (Z.of_nat (total files))))
    (convertFiles fm files opts true).
Proof.
  unfold convertFiles.
  apply (Cancelled_spawn (Z.to_nat (Z.min (conc opts) (Z.of_nat (total files)))) 0);
    [|done|lia].
  split; simpl; try done.
  - by rewrite Nat.sub_0_r.
  - by intros c ?%elem_of_nil.
Qed.

End CancelledProofs.

(** C4, as the code has it.  When the token has fired before the call,
    there is no successful result: each of the [min(clamp(requested, 1, 8),
    T)] workers takes one item, whose conversion raises the cancellation
    error at its first check, and stops; no other item is taken.  The
    [finally] block runs for each of these items, so the callback is called
    once per worker: [done] counts from 1 to the number of workers; and a
    batch that is not empty rejects with the cancellation error. *)
Theorem cancelled_before_start (fm : FeatureMeta) (env : Env) (files : list File)
    (opts : BatchOptions) (schedule : list Event) :
  let st := run_schedule fm env files opts (convertFiles fm files opts true) schedule in
  let spawned := Z.to_nat (clamp (default 2%Z (concurrency opts)) 1 8) `min` length files in
  results st = [] ∧
  (∀ c, c ∈ completions st → item_settled c = Rejected AbortError) ∧
  queue st = seq spawned (length files - spawned) ∧
  length (calls opts st) ≤ spawned ∧
  (quiescent st = true →
     (onProgress opts = true → arg_done <$> calls opts st = seq 1 spawned) ∧
     (files ≠ [] → outcome st = Rejects AbortError)).
Proof.
  intros st spawned.
  pose proof (Cancelled_run_schedule fm env files opts _ _ schedule
                (Cancelled_convertFiles fm files opts)) as [Ca Cr Cq Cc Cw Cj].
  pose proof (reachable_Inv fm env files opts true schedule) as HI.
  pose proof (reachable_workers fm env files opts true schedule) as Hlen.
  fold st in Ca, Cr, Cq, Cc, Cw, Cj, HI, Hlen.
  assert (Hn : Z.to_nat (Z.min (conc opts) (Z.of_nat (total files))) = spawned).
  { rewrite conc_clamp. unfold total, spawned. lia. }
  rewrite Hn in Cq, Hlen.
  assert (Hstarted : started files st = spawned).
  { unfold started. rewrite Cq, length_seq. unfold total, spawned. lia. }
  pose proof (completions_le_started files st HI) as Hle.
  rewrite Hstarted in Hle.
  split_and!; try done.
  - unfold calls. destruct (onProgress opts); simpl; lia.
  - intros Hq. split.
    + intros Hcb. rewrite (calls_count files opts st HI). unfold calls. rewrite Hcb.
      by rewrite (completions_quiescent files st HI Hq), Hstarted.
    + intros Hne.
      destruct (lookup_lt_is_Some_2 (workers st) 0) as [wk Hwk].
      { rewrite Hlen. unfold spawned, clamp. destruct files; [done|].
        simpl length. repeat case_match; lia. }
      destruct (Cw 0 wk Hwk) as [-> | ->].
      { exfalso. apply (quiescent_idle st 0 Hq). by exists 0, doomed. }
      unfold outcome. destruct (rejection st) as [e|] eqn:Hrej.
      * by rewrite (Cj e).
      * exfalso. apply (inv_crashed _ _ HI AbortError); [|done].
        apply list_elem_of_lookup. eauto.
Qed.

Lemma cancelled_before_start_witness :
  let opts := batch_options (Some 2%Z) in
  let files := [png "a.png"; png "b.png"; png "c.png"] in
  let st := run_schedule sample_meta sample_env files opts
              (convertFiles sample_meta files opts true) [Resume 1; Resume 0] in
  results st = [] ∧ queue st = [2] ∧
  (arg_done <$> calls opts st) = [1; 2] ∧
  outcome st = Rejects AbortError.
Proof.
  intros opts files st.
  pose proof (cancelled_before_start sample_meta sample_env files opts [Resume 1; Resume 0])
    as (Hres & _ & Hqueue & _ & Hq).
  destruct (Hq eq_refl) as (Hcalls & Hout).
  split_and!; [exact Hres|exact Hqueue|exact (Hcalls eq_refl)|by apply Hout].
Defined.

(** C4, as stated, fails: with one file and the token fired before the
    call, the callback is called, with [(1, 1)]. *)
Lemma cancelled_batch_reports_progress :
  let opts := batch_options None in
  let files := [png "a.png"] in
  let st := run_schedule sample_meta sample_env files opts
              (convertFiles sample_meta files opts true) [Resume 0] in
  files ≠ [] ∧ results st = [] ∧
  (λ c, (arg_done c, arg_total c)) <$> calls opts st = [(1, 1)] ∧
  length (calls opts st) ≠ 0.
Proof. split_and!; [done|by vm_compute|by vm_compute|by vm_compute]. Qed.

(** ** Index fidelity *)

Section ReturnedProofs.
Variable fm : FeatureMeta.
Variable env : Env.
Variable files : list File.
Variable opts : BatchOptions.

(** When the batch returns, every item has been through the [finally]
    block and its result is in its own slot. *)
Lemma returned_outcomes signal_aborted schedule rs i file :
  let st := run_schedule fm env files opts
              (convertFiles fm files opts signal_aborted) schedule in
  outcome st = Returns rs → files !! i = Some file →
  ∃ c r, c ∈ completions st ∧ of_item c = i ∧ item_settled c = Fulfilled r ∧
         rs !! i = Some (Some r) ∧ input r = file.
Proof.
  intros st Hret Hfile.
  pose proof (reachable_Inv fm env files opts signal_aborted schedule) as HI.
  apply returned in Hret as (-> & Hrej & Hstarted & Hidle).
  fold st in HI, Hrej, Hstarted, Hidle |- *.
  assert (i < started files st) as Hi.
  { rewrite Hstarted. by eapply lookup_lt_Some. }
  destruct (inv_cover _ _ HI i Hi) as [Hb|(c & -> & Hc)%list_elem_of_fmap];
    [by apply Hidle in Hb|].
  pose proof (inv_rejection _ _ HI Hrej c Hc) as Hok.
  destruct (item_settled c) as [r|e] eqn:Hr; [|done].
  destruct (inv_snapshot _ _ HI c r Hc Hr) as (_ & Hres & Hinput).
  exists c, r. split_and!; [done..| |congruence].
  unfold slot in Hres. by destruct (results st !! of_item c) as [[r'|]|]; simplify_eq/=.
Qed.

(** A batch that is not empty and whose token had fired before the call
    never returns. *)
Lemma cancelled_never_returns schedule :
  let st := run_schedule fm env files opts (convertFiles fm files opts true) schedule in
  files ≠ [] →
  (∀ rs, outcome st ≠ Returns rs) ∧
  (quiescent st = true → outcome st = Rejects AbortError).
Proof.
  intros st Hne.
  pose proof (Cancelled_run_schedule fm env files opts _ _ schedule
                (Cancelled_convertFiles fm files opts)) as [Ca Cr Cq Cc Cw Cj].
  pose proof (reachable_Inv fm env files opts true schedule) as HI.
  pose proof (reachable_workers fm env files opts true schedule) as Hlen.
  fold st in Ca, Cr, Cq, Cc, Cw, Cj, HI, Hlen.
  destruct (lookup_lt_is_Some_2 (workers st) 0) as [wk Hwk].
  { rewrite Hlen. unfold conc, total. destruct files; [done|]. simpl length. lia. }
  assert (Hnot : forallb is_Finished (workers st) = false).
  { apply not_true_is_false. rewrite forallb_lookup. intros Hall.
    specialize (Hall 0 wk Hwk). by destruct (Cw 0 wk Hwk) as [-> | ->]. }
  split.
  - intros rs. unfold outcome. rewrite Hnot. by destruct (rejection st).
  - intros Hq. destruct (Cw 0 wk Hwk) as [-> | ->].
    { by apply (quiescent_lookup _ _ _ Hq) in Hwk. }
    unfold outcome. destruct (rejection st) as [e|] eqn:Hrej.
    + by rewrite (Cj e).
    + exfalso. apply (inv_crashed _ _ HI AbortError); [|done].
      apply list_elem_of_lookup. eauto.
Qed.
End ReturnedProofs.

(** C2, as the code has it.  Whatever the scheduling, when [convertFiles]
    returns a collection, the collection has exactly [T] slots, and slot [i]
    holds the outcome of converting file [i]: the conversion result, whose
    [input] is that file, or the item's failure.  [convertFiles] does not
    return in every run: a batch that is not empty and whose token had
    fired before the call never returns a collection, and rejects with the
    cancellation error once its workers have stopped. *)
Theorem convertFiles_index_fidelity (fm : FeatureMeta) (env : Env) (files : list File)
    (opts : BatchOptions) (signal_aborted : bool) (schedule : list Event) :
  let st := run_schedule fm env files opts
              (convertFiles fm files opts signal_aborted) schedule in
  (∀ rs, outcome st = Returns rs →
     length rs = length files ∧
     ∀ i file, files !! i = Some file →
       ∃ c, c ∈ completions st ∧ of_item c = i ∧ slot_holds rs i file (item_settled c)) ∧
  (signal_aborted = true → files ≠ [] →
     (∀ rs, outcome st ≠ Returns rs) ∧
     (quiescent st = true → outcome st = Rejects AbortError)).
Proof.
  intros st. split.
  - intros rs Hret.
    assert (Hslot : ∀ i file, files !! i = Some file →
              ∃ c r, c ∈ completions st ∧ of_item c = i ∧ item_settled c = Fulfilled r ∧
                     rs !! i = Some (Some r) ∧ input r = file).
    { intros i file. by apply returned_outcomes. }
    split.
    + pose proof (reachable_Inv fm env files opts signal_aborted schedule) as HI.
      apply returned in Hret as (-> & _). fold st in HI |- *.
      apply Nat.le_antisymm.
      * pose proof (inv_length _ _ HI). unfold started, total in *. lia.
      * destruct (decide (length files = 0)) as [->|Hne]; [lia|].
        destruct (lookup_lt_is_Some_2 files (length files - 1)) as [file Hfile]; [lia|].
        destruct (Hslot _ _ Hfile) as (c & r & _ & _ & _ & Hr%lookup_lt_Some & _).
        fold st in Hr. lia.
    + intros i file Hfile.
      destruct (Hslot i file Hfile) as (c & r & Hc & Hi & Hr & Hrs & Hinput).
      exists c. split_and!; [done..|]. by rewrite Hr.
  - intros -> Hne. by apply cancelled_never_returns.
Qed.

Lemma convertFiles_index_fidelity_witness :
  let st := run_schedule sample_meta sample_env two_files (batch_options None)
              (convertFiles sample_meta two_files (batch_options None) false)
              alternating in
  let rs := [Some (converted (png "a.png")); Some (converted (png "b.png"))] in
  outcome st = Returns rs ∧
  length rs = length two_files ∧
  ∃ c, c ∈ completions st ∧ of_item c = 1 ∧ slot_holds rs 1 (png "b.png") (item_settled c).
Proof.
  intros st rs.
  assert (Hret : outcome st = Returns rs) by (vm_compute; reflexivity).
  split; [exact Hret|]. split.
  - exact (proj1 (proj1 (convertFiles_index_fidelity sample_meta sample_env two_files
                           (batch_options None) false alternating) rs Hret)).
  - exact (proj2 (proj1 (convertFiles_index_fidelity sample_meta sample_env two_files
                           (batch_options None) false alternating) rs Hret)
             1 (png "b.png") eq_refl).
Defined.

(** C2, as stated, fails: [convertFiles] does not return a collection in
    every run.  Here the token has fired before the call; the only worker
    takes item 0, whose conversion raises the cancellation error, and the
    batch rejects with it. *)
Lemma convertFiles_cancelled_returns_nothing :
  let files := [png "a.png"] in
  let st := run_schedule sample_meta sample_env files (batch_options None)
              (convertFiles sample_meta files (batch_options None) true)
              [Resume 0] in
  quiescent st = true ∧ outcome st = Rejects AbortError ∧
  ¬ ∃ rs, outcome st = Returns rs ∧ length rs = length files.
Proof.
  intros files st.
  assert (Hrej : outcome st = Rejects AbortError) by (vm_compute; reflexivity).
  split_and!; [by vm_compute|done|]. intros (rs & Hret & _). congruence.
Qed.

(** ** Failure of an item *)

Section Quiescent.
Variable fm : FeatureMeta.
Variable env : Env.
Variable files : list File.
Variable opts : BatchOptions.

(** Once no worker is suspended, nothing happens any more. *)
Lemma quiescent_step st ev :
  quiescent st = true →
  let st' := step fm env files opts st ev in
  queue st' = queue st ∧ results st' = results st ∧ completions st' = completions st ∧
  workers st' = workers st ∧ rejection st' = rejection st.
Proof.
  intros Hq.
  destruct ev as [w|]; simpl; [|done]. unfold resume_worker. simpl.
  destruct (workers st !! w) as [[idx p| |e]|] eqn:Hw; try done.
  by apply (quiescent_lookup _ _ _ Hq) in Hw.
Qed.

Lemma quiescent_run_schedule st schedule :
  quiescent st = true →
  let st' := run_schedule fm env files opts st schedule in
  queue st' = queue st ∧ results st' = results st ∧ completions st' = completions st ∧
  workers st' = workers st ∧ rejection st' = rejection st.
Proof.
  unfold run_schedule. revert st.
  induction schedule as [|ev schedule IH]; intros st Hq; simpl; [done|].
  destruct (quiescent_step st ev Hq) as (H1 & H2 & H3 & H4 & H5).
  destruct (IH (step fm env files opts st ev)) as (H1' & H2' & H3' & H4' & H5').
  { unfold quiescent. by rewrite H4. }
  split_and!; congruence.
Qed.

(** A worker that has thrown never runs again, and a rejected batch stays
    rejected. *)
Lemma crashed_forever st w e schedule :
  workers st !! w = Some (Crashed e) →
  workers (run_schedule fm env files opts st schedule) !! w = Some (Crashed e).
Proof.
  unfold run_schedule. revert st.
  induction schedule as [|ev schedule IH]; intros st Hw; simpl; [done|].
  apply IH. destruct ev as [w'|]; simpl; [|done]. unfold resume_worker. simpl.
  destruct (workers st !! w') as [[idx p| |e']|] eqn:Hw'; try done.
  assert (w ≠ w') as Hne by congruence.
  destruct (resume _ _ p); simpl; rewrite ?list_lookup_insert_ne; try done.
  unfold run; simpl. destruct (queue st); simpl; by rewrite list_lookup_insert_ne.
Qed.

Lemma rejected_forever st e schedule :
  rejection st = Some e →
  outcome (run_schedule fm env files opts st schedule) = Rejects e.
Proof.
  unfold run_schedule. revert st.
  induction schedule as [|ev schedule IH]; intros st Hrej; simpl.
  - unfold outcome. by rewrite Hrej.
  - apply IH. destruct ev as [w|]; simpl; [|done]. unfold resume_worker. simpl.
    destruct (workers st !! w) as [[idx p| |e']|]; try done.
    destruct (resume _ _ p); simpl; rewrite ?Hrej; try done.
    unfold run; simpl. by destruct (queue st).
Qed.
End Quiescent.

(** C1 fails on the code.  Two files, the first of which cannot be decoded,
    and one worker: [convertFile] throws for item 0, the [finally] block
    reports [(1, 2)], and the error leaves [run]: the worker stops, item 1
    stays in the queue for ever, nothing is recorded for item 0, and the
    batch rejects with the error of item 0. *)
Theorem failing_item_stops_worker :
  let opts := batch_options (Some 1%Z) in
  let st := run_schedule sample_meta sample_env one_broken opts
              (convertFiles sample_meta one_broken opts false)
              (replicate 6 (Resume 0)) in
  workers st = [Crashed CouldntDecode] ∧
  queue st = [1] ∧ results st = [] ∧
  (λ c, (arg_done c, arg_total c)) <$> calls opts st = [(1, 2)] ∧
  outcome st = Rejects CouldntDecode ∧
  ∀ more,
    let st' := run_schedule sample_meta sample_env one_broken opts st more in
    queue st' = [1] ∧ results st' = [] ∧ outcome st' = Rejects CouldntDecode.
Proof.
  intros opts st.
  split_and!; [by vm_compute..|].
  intros more st'.
  destruct (quiescent_run_schedule sample_meta sample_env one_broken opts st more)
    as (Hq & Hr & _ & Hw & Hj); [by vm_compute|].
  fold st' in Hq, Hr, Hw, Hj. unfold outcome. rewrite Hq, Hr, Hj.
  split_and!; by vm_compute.
Qed.

(** With a second worker, the other items are still converted, but the
    caller does not get them: the batch has rejected. *)
Lemma failing_item_rejects_batch :
  let opts := batch_options (Some 2%Z) in
  let st := run_schedule sample_meta sample_env one_broken opts
              (convertFiles sample_meta one_broken opts false)
              (replicate 6 (Resume 0) ++ replicate 10 (Resume 1)) in
  workers st = [Crashed CouldntDecode; Finished] ∧
  results st = [None; Some (converted (png "b.png"))] ∧
  outcome st = Rejects CouldntDecode.
Proof. split_and!; by vm_compute. Qed.

(** C3 fails on the code.  Two files, the first of which cannot be decoded,
    one worker, and a token that never fires.  The [finally] block reports
    [(1, 2)] for item 0 and the error leaves [run]: the run is over (the
    batch has rejected and no worker is left), the callback has been called
    once, for item 0, and is never called for item 1, and the last [done]
    reported is 1 and not [total], whatever is resumed later. *)
Theorem progress_stops_at_failing_item :
  let opts := batch_options (Some 1%Z) in
  let st := run_schedule sample_meta sample_env one_broken opts
              (convertFiles sample_meta one_broken opts false)
              (replicate 6 (Resume 0)) in
  aborted st = false ∧ quiescent st = true ∧ outcome st = Rejects CouldntDecode ∧
  ∀ more,
    let st' := run_schedule sample_meta sample_env one_broken opts st more in
    let reported := calls opts st' in
    (λ c, (of_item c, arg_done c, arg_total c)) <$> reported = [(0, 1, 2)] ∧
    length reported ≠ length one_broken ∧
    (¬ ∃ c, c ∈ reported ∧ of_item c = 1) ∧
    last (arg_done <$> reported) ≠ Some (length one_broken).
Proof.
  intros opts st.
  split_and!; [by vm_compute..|].
  intros more st' reported.
  destruct (quiescent_run_schedule sample_meta sample_env one_broken opts st more)
    as (_ & _ & Hc & _); [by vm_compute|].
  fold st' in Hc.
  assert (Hcalls : reported = calls opts st).
  { unfold reported, calls. by rewrite Hc. }
  rewrite Hcalls. split_and!; [by vm_compute..| |by vm_compute].
  intros (c & Hin & Hitem). vm_compute in Hin.
  apply list_elem_of_singleton in Hin. by subst c.
Qed.

(** ** Every run can be completed

    From any state, resuming the suspended workers often enough leaves no
    worker suspended: each [convertFile] is a finite computation, and each
    completed item shortens the queue or stops a worker.  The batch has then
    returned or rejected. *)

Section Termination.
Variable fm : FeatureMeta.
Variable env : Env.
Variable files : list File.
Variable opts : BatchOptions.

Lemma run_schedule_app st s1 s2 :
  run_schedule fm env files opts st (s1 ++ s2) =
  run_schedule fm env files opts (run_schedule fm env files opts st s1) s2.
Proof. apply fold_left_app. Qed.

Lemma run_schedule_cons st ev s :
  run_schedule fm env files opts st (ev :: s) =
  run_schedule fm env files opts (step fm env files opts st ev) s.
Proof. done. Qed.

(** One step that ends the conversion of the current item. *)
Lemma resume_settled st w idx t :
  workers st !! w = Some (Busy idx t) →
  is_done (resume (env (S (turn st)) (aborted st)) (aborted st) t) = true →
  advanced w st (step fm env files opts st (Resume w)).
Proof.
  intros Hw Hdone. pose proof (lookup_lt_Some _ _ _ Hw) as Hlt.
  unfold advanced, step, resume_worker. simpl. rewrite Hw.
  destruct (resume _ _ t) as [res|e|k|X c k|k] eqn:Hr; try done.
  - unfold run. simpl. destruct (queue st) as [|idx' rest] eqn:Hq; simpl.
    + split_and!; [|by rewrite length_insert|].
      * intros w' Hne. by rewrite list_lookup_insert_ne.
      * left. split; [|rewrite Hq; simpl; lia]. exists Finished.
        by rewrite list_lookup_insert_eq.
    + split_and!; [|by rewrite length_insert|].
      * intros w' Hne. by rewrite list_lookup_insert_ne.
      * right. split; [|done]. eexists _, _. by rewrite list_lookup_insert_eq.
  - simpl. split_and!; [|by rewrite length_insert|].
    + intros w' Hne. by rewrite list_lookup_insert_ne.
    + left. split; [|done]. exists (Crashed e). by rewrite list_lookup_insert_eq.
Qed.

(** One step after which the conversion is still suspended. *)
Lemma resume_suspended st w idx t :
  workers st !! w = Some (Busy idx t) →
  is_done (resume (env (S (turn st)) (aborted st)) (aborted st) t) = false →
  step fm env files opts st (Resume w) =
    set_worker w (Busy idx (resume (env (S (turn st)) (aborted st)) (aborted st) t))
      (next_turn st).
Proof.
  intros Hw Hdone. unfold step, resume_worker. simpl. rewrite Hw.
  by destruct (resume _ _ t).
Qed.

Lemma finish_step st w idx t :
  workers st !! w = Some (Busy idx t) →
  let r := resume (env (S (turn st)) (aborted st)) (aborted st) t in
  let st1 := set_worker w (Busy idx r) (next_turn st) in
  (is_done r = false →
   ∃ n, advanced w st1 (run_schedule fm env files opts st1 (replicate n (Resume w)))) →
  ∃ n, advanced w st (run_schedule fm env files opts st (replicate n (Resume w))).
Proof.
  intros Hw r st1 Hrest. destruct (is_done r) eqn:Hdone.
  - exists 1. by apply (resume_settled st w idx t).
  - destruct (Hrest eq_refl) as [n (H1 & H2 & H3)]. exists (S n).
    simpl replicate. rewrite run_schedule_cons, (resume_suspended st w idx t Hw Hdone).
    fold r st1. split_and!.
    + intros w' Hne. rewrite (H1 w' Hne). simpl. by rewrite list_lookup_insert_ne.
    + rewrite H2. simpl. by rewrite length_insert.
    + done.
Qed.

(** A suspended [convertFile] completes. *)
Lemma finish_sync p st w idx :
  workers st !! w = Some (Busy idx (sync (aborted st) p)) →
  ∃ n, advanced w st (run_schedule fm env files opts st (replicate n (Resume w))).
Proof.
  revert st. induction p as [a|e|k IH|X c k IH|k IH]; intros st Hw.
  - exists 1. by apply (resume_settled st w idx (Ret a)).
  - exists 1. by apply (resume_settled st w idx (Throw e)).
  - by apply (IH (aborted st)).
  - apply (finish_step st w idx _ Hw). intros _.
    apply (IH (env (S (turn st)) (aborted st) X c)). simpl.
    apply list_lookup_insert_eq. by eapply lookup_lt_Some.
  - apply (finish_step st w idx _ Hw). intros _.
    apply IH. simpl. apply list_lookup_insert_eq. by eapply lookup_lt_Some.
Qed.

Lemma finish_item st w idx t :
  workers st !! w = Some (Busy idx t) →
  ∃ n, advanced w st (run_schedule fm env files opts st (replicate n (Resume w))).
Proof.
  intros Hw. apply (finish_step st w idx t Hw). intros _.
  assert (∃ q, resume (env (S (turn st)) (aborted st)) (aborted st) t
               = sync (aborted st) q) as [q ->].
  { destruct t as [a|e|k|X c k|k]; simpl;
      [by exists (Ret a)|by exists (Throw e)|by exists (Signal k)|by eexists|by exists k]. }
  apply (finish_sync q _ w idx). simpl. apply list_lookup_insert_eq. by eapply lookup_lt_Some.
Qed.

(** A worker stops: it completes its item, and every item it takes from
    the queue afterwards. *)
Lemma drain_worker n st w :
  length (queue st) ≤ n →
  ∃ schedule,
    let st' := run_schedule fm env files opts st schedule in
    (∀ w', w' ≠ w → workers st' !! w' = workers st !! w') ∧
    length (workers st') = length (workers st) ∧
    ∀ wk, workers st' !! w = Some wk → is_Busy wk = false.
Proof.
  revert st. induction n as [|n IH]; intros st Hn.
  - destruct (workers st !! w) as [[idx t| |e]|] eqn:Hw;
      [|exists []; simpl; split_and!; [done..|intros wk; rewrite Hw; by intros [= <-]]..].
    destruct (finish_item st w idx t Hw) as [m (H1 & H2 & [[(wk & Hwk & Hidle) _]|[_ Hq]])];
      [|lia].
    exists (replicate m (Resume w)). simpl. split_and!; [done..|].
    intros wk'. rewrite Hwk. by intros [= <-].
  - destruct (workers st !! w) as [[idx t| |e]|] eqn:Hw;
      [|exists []; simpl; split_and!; [done..|intros wk; rewrite Hw; by intros [= <-]]..].
    destruct (finish_item st w idx t Hw) as [m (H1 & H2 & [[(wk & Hwk & Hidle) _]|[_ Hq]])].
    + exists (replicate m (Resume w)). simpl. split_and!; [done..|].
      intros wk'. rewrite Hwk. by intros [= <-].
    + destruct (IH (run_schedule fm env files opts st (replicate m (Resume w))))
        as (s & H1' & H2' & H3'); [lia|].
      exists (replicate m (Resume w) ++ s). rewrite run_schedule_app. simpl.
      split_and!; [|congruence|done].
      intros w' Hne. by rewrite H1', H1.
Qed.

(** All workers stop, one after the other. *)
Lemma drain_workers k st :
  k ≤ length (workers st) →
  ∃ schedule,
    let st' := run_schedule fm env files opts st schedule in
    length (workers st') = length (workers st) ∧
    ∀ w wk, w < k → workers st' !! w = Some wk → is_Busy wk = false.
Proof.
  induction k as [|k IH]; intros Hk.
  - exists []. simpl. split; [done|]. intros w wk Hw. lia.
  - destruct IH as (s1 & Hlen1 & Hidle1); [lia|].
    destruct (drain_worker (length (queue (run_schedule fm env files opts st s1)))
                (run_schedule fm env files opts st s1) k) as (s2 & Hother & Hlen2 & Hidle2);
      [done|].
    exists (s1 ++ s2). rewrite run_schedule_app. simpl. split; [congruence|].
    intros w wk Hw Hwk. destruct (decide (w = k)) as [->|Hne]; [by eapply Hidle2|].
    rewrite Hother in Hwk by done. apply (Hidle1 w wk); [lia|done].
Qed.

Lemma run_completes st :
  ∃ schedule, quiescent (run_schedule fm env files opts st schedule) = true.
Proof.
  destruct (drain_workers (length (workers st)) st) as (s & Hlen & Hidle); [done|].
  exists s. unfold quiescent. apply forallb_lookup. intros w wk Hwk.
  rewrite (Hidle w wk); [done| |done]. rewrite <- Hlen. by eapply lookup_lt_Some.
Qed.

(** In a state where no worker is suspended, the batch has returned or
    rejected. *)
Lemma quiescent_settled st :
  Inv files st → quiescent st = true → outcome st ≠ Pending.
Proof.
  intros HI Hq. unfold outcome. destruct (rejection st) eqn:Hrej; [done|].
  assert (forallb is_Finished (workers st) = true) as ->; [|done].
  apply forallb_lookup. intros w wk Hwk.
  pose proof (quiescent_lookup _ _ _ Hq Hwk) as Hidle.
  destruct wk as [idx p| |e]; try done.
  exfalso. apply (inv_crashed _ _ HI e); [|done]. apply list_elem_of_lookup. eauto.
Qed.
End Termination.


(** Whatever has happened so far, the run of a batch can be continued until
    the batch returns or rejects. *)
Theorem convertFiles_settles (fm : FeatureMeta) (env : Env) (files : list File)
    (opts : BatchOptions) (signal_aborted : bool) (schedule : list Event) :
  ∃ more,
    let st := run_schedule fm env files opts
                (convertFiles fm files opts signal_aborted) (schedule ++ more) in
    quiescent st = true ∧ outcome st ≠ Pending.
Proof.
  destruct (run_completes fm env files opts
              (run_schedule fm env files opts
                 (convertFiles fm files opts signal_aborted) schedule)) as [more Hq].
  exists more. simpl. rewrite run_schedule_app. split; [done|].
  apply (quiescent_settled files); [|done].
  rewrite <- run_schedule_app. apply reachable_Inv.
Qed.

(** * Further properties of the code *)

(** ** One conversion, stage by stage *)

Lemma turns_bind {A B} w (p : Async A) (f : A → Async B) t :
  turns w t (p ≫= f) =
    match (exec w t p).2 with
    | Fulfilled a => turns w (turns w t p) (f a)
    | Rejected e => turns w t p
    end.
Proof.
  unfold mbind, Async_bind. rewrite turns_settle_with.
  by destruct (exec w t p).2.
Qed.

Lemma turns_encodeImage fm w t image st name :
  turns w t (encodeImage fm image st name) = if fired w t then t else S t.
Proof.
  unfold encodeImage. simpl.
  destruct (fired w t); simpl; [done|].
  by destruct (answer w (S t) _).
Qed.

(** [convertFile] runs its four stages one after the other, each entered
    one turn after the stage before has completed, and stops at the first
    that fails. *)
Lemma run_convertFile fm w t file opts :
  let decode := decodeImage file in
  let t1 := S (turns w t decode) in
  let whole := convertFile fm file opts in
  match (exec w t decode).2 with
  | Rejected e =>
      exec w t whole = ((exec w t decode).1, Rejected e) ∧ turns w t whole = t1
  | Fulfilled decoded =>
      let preprocess := preprocessImage decoded (pre_state fm opts) in
      let t2 := S (turns w t1 preprocess) in
      match (exec w t1 preprocess).2 with
      | Rejected e =>
          exec w t whole = ((exec w t decode).1 ++ (exec w t1 preprocess).1, Rejected e) ∧
          turns w t whole = t2
      | Fulfilled preprocessed =>
          let process := processImage preprocessed decoded (proc_state fm opts) in
          let t3 := S (turns w t2 process) in
          match (exec w t2 process).2 with
          | Rejected e =>
              exec w t whole =
                ((exec w t decode).1 ++ (exec w t1 preprocess).1 ++ (exec w t2 process).1,
                 Rejected e) ∧
              turns w t whole = t3
          | Fulfilled processed =>
              let encoding := encodeImage fm processed (encoder_state fm opts)
                                (file_name file) in
              exec w t whole =
                ((exec w t decode).1 ++ (exec w t1 preprocess).1 ++ (exec w t2 process).1
                 ++ (exec w t3 encoding).1,
                 match (exec w t3 encoding).2 with
                 | Rejected e => Rejected e
                 | Fulfilled output =>
                     Fulfilled {| input := file; output := output;
                                  processed := Some processed |}
                 end) ∧
              turns w t whole = S (turns w t3 encoding)
          end
      end
  end.
Proof.
  unfold convertFile, encoder_state, pre_state, proc_state. cbv zeta.
  rewrite exec_bind, turns_bind, exec_await_async, turns_await_async.
  destruct (exec w t (decodeImage file)) as [tr0 [decoded|e]]; [|done].
  cbv beta iota zeta. cbn [fst snd].
  rewrite exec_bind, turns_bind, exec_await_async, turns_await_async.
  destruct (exec w _ (preprocessImage _ _)) as [tr1 [preprocessed|e]]; [|done].
  cbv beta iota zeta. cbn [fst snd].
  rewrite exec_bind, turns_bind, exec_await_async, turns_await_async.
  destruct (exec w _ (processImage _ _ _)) as [tr2 [processed|e]]; [|done].
  cbv beta iota zeta. cbn [fst snd].
  rewrite exec_bind, turns_bind, exec_await_async, turns_await_async.
  destruct (exec w _ (encodeImage _ _ _ _)) as [tr3 [out|e]];
    simpl; by rewrite ?app_nil_r.
Qed.

(** *** The order of the calls *)

Lemma staged_nil lo hi : staged lo hi [].
Proof. split; constructor. Qed.

Lemma staged_app lo1 hi1 lo2 hi2 l1 l2 :
  staged lo1 hi1 l1 → staged lo2 hi2 l2 → hi1 < lo2 → lo1 ≤ lo2 → hi1 ≤ hi2 →
  staged lo1 hi2 (l1 ++ l2).
Proof.
  intros [S1 F1] [S2 F2] Hlt Hlo Hhi. split.
  - rewrite fmap_app. induction l1 as [|i l1 IH]; simpl; [done|].
    apply StronglySorted_inv in S1 as [S1 Hi]. apply Forall_cons in F1 as [Fi F1].
    constructor; [by apply IH|].
    apply Forall_app. split; [done|].
    apply Forall_fmap. eapply Forall_impl; [exact F2|]. simpl. lia.
  - apply Forall_app. split; (eapply Forall_impl; [eassumption|]); simpl; lia.
Qed.

Ltac staged_lists :=
  repeat first [ lia | progress simpl | apply SSorted_nil | apply SSorted_cons
               | apply Forall_nil_2 | apply Forall_cons_2 ].

Lemma stage_of_decoder_for mimeType canDecode blob :
  stage_of (invoke (decoder_for mimeType canDecode blob)) = 2.
Proof.
  unfold decoder_for. destruct (negb canDecode); [|done].
  by repeat (match goal with |- context [if (?a =? ?b)%string then _ else _] =>
               destruct (a =? b)%string end).
Qed.

Lemma staged_decodeImage w t blob : staged 0 2 (exec w t (decodeImage blob)).1.
Proof.
  rewrite exec_decodeImage. cbv zeta.
  pose proof (stage_of_decoder_for) as Hd. unfold stage_of in Hd.
  repeat case_match; split; repeat first [rewrite Hd | progress staged_lists].
Qed.

Lemma staged_preprocessImage w t data st : staged 3 3 (exec w t (preprocessImage data st)).1.
Proof.
  rewrite exec_preprocessImage.
  repeat case_match; split; staged_lists.
Qed.

Lemma staged_processImage w t preprocessed decoded st :
  staged 4 5 (exec w t (processImage preprocessed decoded st)).1.
Proof.
  rewrite exec_processImage. cbv zeta.
  repeat case_match; split; staged_lists.
Qed.

Lemma staged_encodeImage fm w t image st name :
  staged 6 6 (exec w t (encodeImage fm image st name)).1.
Proof.
  rewrite exec_encodeImage. cbv zeta.
  repeat case_match; split; staged_lists.
Qed.

(** The calls of [convertFile], in any world and whether the conversion
    succeeds, fails or is cancelled: MIME sniffing, the decodability probe,
    one decoder, rotate, resize, quantize, the encoder, in this order, each
    at most once. *)
Theorem convertFile_call_order (fm : FeatureMeta) (w : World) (t : nat) (file : File)
    (opts : ConvertOptions) :
  StronglySorted lt (stage_of <$> (exec w t (convertFile fm file opts)).1).
Proof.
  pose proof (run_convertFile fm w t file opts) as H. cbv zeta in H.
  pose proof (staged_decodeImage w t file) as H0.
  cut (staged 0 6 (exec w t (convertFile fm file opts)).1); [by intros [? _]|].
  destruct (exec w t (decodeImage file)).2 as [decoded|e].
  2:{ destruct H as [-> _]. simpl. destruct H0 as [? F]. split; [done|].
      eapply Forall_impl; [exact F|]. simpl. lia. }
  set (t1 := S (turns w t (decodeImage file))) in *.
  pose proof (staged_preprocessImage w t1 decoded (pre_state fm opts)) as H1.
  destruct (exec w t1 (preprocessImage _ _)).2 as [preprocessed|e].
  2:{ destruct H as [-> _]. simpl.
      apply (staged_app 0 2 3 6); [done| |lia..].
      destruct H1 as [? F]. split; [done|]. eapply Forall_impl; [exact F|]. simpl. lia. }
  set (t2 := S (turns w t1 _)) in *.
  pose proof (staged_processImage w t2 preprocessed decoded (proc_state fm opts)) as H2.
  destruct (exec w t2 (processImage _ _ _)).2 as [image|e].
  2:{ destruct H as [-> _]. simpl.
      apply (staged_app 0 2 3 6); [done| |lia..].
      apply (staged_app 3 3 4 6); [done| |lia..].
      destruct H2 as [? F]. split; [done|]. eapply Forall_impl; [exact F|]. simpl. lia. }
  set (t3 := S (turns w t2 _)) in *.
  pose proof (staged_encodeImage fm w t3 image (encoder_state fm opts) (file_name file)) as H3.
  destruct H as [-> _]. simpl.
  apply (staged_app 0 2 3 6); [done| |lia..].
  apply (staged_app 3 3 4 6); [done| |lia..].
  by apply (staged_app 4 5 6 6); [done| |lia..].
Qed.

(** *** A conversion that succeeds *)

Lemma decodeImage_fulfilled w t blob image :
  (exec w t (decodeImage blob)).2 = Fulfilled image →
  ∃ mime canDecode,
    (exec w t (decodeImage blob)).1 =
      [invoke (sniffMimeType blob); invoke (canDecodeImageType mime);
       invoke (decoder_for mime canDecode blob)] ∧
    answer w (1 + t) (sniffMimeType blob) = Fulfilled mime ∧
    answer w (3 + t) (canDecodeImageType mime) = Fulfilled canDecode ∧
    answer w (5 + t) (decoder_for mime canDecode blob) = Fulfilled image.
Proof.
  rewrite exec_decodeImage. cbv zeta. cbn [Nat.add]. intros H.
  destruct (fired w t); [done|]. destruct (fired w (S t)); [done|].
  destruct (answer w (S t) (sniffMimeType blob)) as [mime|e] eqn:A1; [|done].
  destruct (fired w (S (S t))); [done|]. destruct (fired w (S (S (S t)))); [done|].
  destruct (answer w (S (S (S t))) (canDecodeImageType mime)) as [canDecode|e] eqn:A2; [|done].
  simpl in *. destruct (answer w (S (S (S (S (S t))))) _) as [image'|e] eqn:A3; [|done].
  injection H as ->. by exists mime, canDecode.
Qed.

Lemma preprocessImage_fulfilled w t data st out :
  (exec w t (preprocessImage data st)).2 = Fulfilled out →
  if (rotate_angle (pre_rotate st) =? 0)%Z
  then (exec w t (preprocessImage data st)).1 = [] ∧ out = data
  else (exec w t (preprocessImage data st)).1 = [invoke (rotate data (pre_rotate st))] ∧
       answer w (S t) (rotate data (pre_rotate st)) = Fulfilled out.
Proof.
  rewrite exec_preprocessImage.
  destruct (fired w t); [done|].
  destruct (rotate_angle (pre_rotate st) =? 0)%Z; simpl; [by intros [= ->]|done].
Qed.

Lemma processImage_fulfilled w t preprocessed decoded st out :
  (exec w t (processImage preprocessed decoded st)).2 = Fulfilled out →
  ∃ resized,
    (exec w t (processImage preprocessed decoded st)).1 =
      (if resize_enabled (proc_resize st)
       then [invoke (resize preprocessed decoded (proc_resize st))] else [])
      ++ (if quantize_enabled (proc_quantize st)
          then [invoke (quantize resized (proc_quantize st))] else []) ∧
    (if resize_enabled (proc_resize st)
     then answer w (S t) (resize preprocessed decoded (proc_resize st)) = Fulfilled resized
     else resized = preprocessed) ∧
    (if quantize_enabled (proc_quantize st)
     then ∃ n, answer w n (quantize resized (proc_quantize st)) = Fulfilled out
     else out = resized).
Proof.
  rewrite exec_processImage. cbv zeta.
  destruct (fired w t); [done|].
  destruct (resize_enabled (proc_resize st)).
  - destruct (answer w (S t) _) as [resized|e]; [|done].
    destruct (quantize_enabled (proc_quantize st)); simpl; intros H; exists resized.
    + split_and!; [done..|]. by exists (S (S t)).
    + by injection H as ->.
  - destruct (quantize_enabled (proc_quantize st)); simpl; intros H; exists preprocessed.
    + split_and!; [done..|]. by exists (S t).
    + by injection H as ->.
Qed.

Lemma encodeImage_fulfilled fm w t image st name out :
  (exec w t (encodeImage fm image st name)).2 = Fulfilled out →
  (exec w t (encodeImage fm image st name)).1 =
    [invoke (encode (enc_type st) image (enc_options st))] ∧
  answer w (S t) (encode (enc_type st) image (enc_options st)) = Fulfilled (file_bits out) ∧
  file_name out = replace_extension name ("." ++ extension (encoderMap fm (enc_type st)))%string ∧
  file_type out = mimeType (encoderMap fm (enc_type st)).
Proof.
  rewrite exec_encodeImage. cbv zeta.
  destruct (fired w t); [done|]. simpl.
  destruct (answer w (S t) _) as [bytes|e]; [|done].
  by intros [= <-].
Qed.

(** When [convertFile] succeeds, it has called, in this order: MIME
    sniffing, the decodability probe, the decoder chosen from their answers,
    rotate on the decoded image when the angle is not 0, resize on the
    rotated and the decoded image when enabled, quantize on the resized
    image when enabled, and the encoder of the requested type on the image
    that comes out of the last of these steps, with the given options or,
    when none are given, the defaults of that encoder.  The result carries
    the source file, the bytes the encoder answered under the MIME type of
    the encoder, and the image that was encoded. *)
Theorem convertFile_data_flow (fm : FeatureMeta) (w : World) (t : nat) (file : File)
    (opts : ConvertOptions) (r : ConvertResult) :
  (exec w t (convertFile fm file opts)).2 = Fulfilled r →
  let turn := pre_rotate (pre_state fm opts) in
  let rz := proc_resize (proc_state fm opts) in
  let qz := proc_quantize (proc_state fm opts) in
  let meta := encoderMap fm (encoder opts) in
  let options := default (defaultOptions meta) (encoderOptions opts) in
  ∃ mime canDecode decoded preprocessed resized image,
    (exec w t (convertFile fm file opts)).1 =
      [invoke (sniffMimeType file); invoke (canDecodeImageType mime);
       invoke (decoder_for mime canDecode file)]
      ++ (if (rotate_angle turn =? 0)%Z then [] else [invoke (rotate decoded turn)])
      ++ (if resize_enabled rz then [invoke (resize preprocessed decoded rz)] else [])
      ++ (if quantize_enabled qz then [invoke (quantize resized qz)] else [])
      ++ [invoke (encode (encoder opts) image options)] ∧
    (∃ n, answer w n (sniffMimeType file) = Fulfilled mime) ∧
    (∃ n, answer w n (canDecodeImageType mime) = Fulfilled canDecode) ∧
    (∃ n, answer w n (decoder_for mime canDecode file) = Fulfilled decoded) ∧
    (if (rotate_angle turn =? 0)%Z then preprocessed = decoded
     else ∃ n, answer w n (rotate decoded turn) = Fulfilled preprocessed) ∧
    (if resize_enabled rz
     then ∃ n, answer w n (resize preprocessed decoded rz) = Fulfilled resized
     else resized = preprocessed) ∧
    (if quantize_enabled qz
     then ∃ n, answer w n (quantize resized qz) = Fulfilled image
     else image = resized) ∧
    (∃ n, answer w n (encode (encoder opts) image options)
          = Fulfilled (file_bits (output r))) ∧
    input r = file ∧
    processed r = Some image ∧
    file_type (output r) = mimeType meta ∧
    file_name (output r)
    = replace_extension (file_name file) ("." ++ extension meta)%string.
Proof.
  intros Hr turn rz qz meta options.
  pose proof (run_convertFile fm w t file opts) as H. cbv zeta in H.
  destruct (exec w t (decodeImage file)).2 as [decoded|e] eqn:H0;
    [|destruct H as [H _]; rewrite H in Hr; done].
  apply decodeImage_fulfilled in H0 as (mime & canDecode & T0 & A1 & A2 & A3).
  set (t1 := S (turns w t (decodeImage file))) in *.
  destruct (exec w t1 (preprocessImage _ _)).2 as [preprocessed|e] eqn:H1;
    [|destruct H as [H _]; rewrite H in Hr; done].
  apply preprocessImage_fulfilled in H1. fold turn in H1.
  set (t2 := S (turns w t1 _)) in *.
  destruct (exec w t2 (processImage _ _ _)).2 as [image|e] eqn:H2;
    [|destruct H as [H _]; rewrite H in Hr; done].
  apply processImage_fulfilled in H2 as (resized & T2 & B1 & B2). fold rz qz in T2, B1, B2.
  set (t3 := S (turns w t2 _)) in *.
  destruct H as [H _]. rewrite H in Hr |- *. cbn [fst snd] in Hr |- *.
  destruct (exec w t3 (encodeImage _ _ _ _)).2 as [out|e] eqn:H3; [|done].
  injection Hr as <-. cbn [input output processed].
  apply encodeImage_fulfilled in H3 as (T3 & C1 & C2 & C3).
  exists mime, canDecode, decoded, preprocessed, resized, image.
  rewrite T0, T2, T3.
  split_and!; eauto.
  - f_equal. destruct (rotate_angle turn =? 0)%Z; destruct H1 as [-> _];
      by rewrite <- app_assoc.
  - destruct (rotate_angle turn =? 0)%Z; [by destruct H1|]. destruct H1; eauto.
  - destruct (resize_enabled rz); eauto.
Qed.

Lemma convertFile_data_flow_witness :
  input (converted (png "a.png")) = png "a.png" ∧
  file_type (output (converted (png "a.png"))) = "image/jpeg"%string.
Proof.
  assert (H : (exec calm 0 (convertFile sample_meta (png "a.png") sample_options)).2
              = Fulfilled (converted (png "a.png"))) by (vm_compute; reflexivity).
  destruct (convertFile_data_flow sample_meta calm 0 (png "a.png") sample_options
              (converted (png "a.png")) H)
    as (mime & canDecode & decoded & preprocessed & resized & image & _ & _ & _ & _ & _ & _
        & _ & _ & Hin & _ & Hty & _).
  split; [exact Hin|exact Hty].
Defined.

(** *** The encoder has the last word *)

Lemma staged_elem_of lo hi trace i :
  staged lo hi trace → i ∈ trace → lo ≤ stage_of i ≤ hi.
Proof. intros [_ F] Hi. by apply (proj1 (Forall_forall _ _) F). Qed.

(** Once [convertFile] has called the encoder, how the encoder settles is
    how the conversion settles: there is no check of the signal after the
    encoder has answered, and no further call.  The encoder is called with
    the requested type and with the given options, or the defaults of that
    type. *)
Theorem encoder_settles_conversion (fm : FeatureMeta) (w : World) (t : nat) (file : File)
    (opts : ConvertOptions) (type : EncoderType) (image : ImageData)
    (options : EncoderOptions) :
  invoke (encode type image options) ∈ (exec w t (convertFile fm file opts)).1 →
  type = encoder opts ∧
  options = default (defaultOptions (encoderMap fm (encoder opts))) (encoderOptions opts) ∧
  last (exec w t (convertFile fm file opts)).1 = Some (invoke (encode type image options)) ∧
  (exec w t (convertFile fm file opts)).2 =
    match answer w (pred (turns w t (convertFile fm file opts)))
            (encode type image options) with
    | Fulfilled bytes =>
        Fulfilled
          {| input := file;
             output := mkFile (replace_extension (file_name file)
                                 ("." ++ extension (encoderMap fm type))%string)
                         (mimeType (encoderMap fm type)) bytes;
             processed := Some image |}
    | Rejected e => Rejected e
    end.
Proof.
  intros Hin.
  pose proof (run_convertFile fm w t file opts) as H. cbv zeta in H.
  pose proof (staged_decodeImage w t file) as S0.
  destruct (exec w t (decodeImage file)).2 as [decoded|e].
  2:{ destruct H as [H _]. rewrite H in Hin.
      apply (staged_elem_of _ _ _ _ S0) in Hin. simpl in Hin. lia. }
  set (t1 := S (turns w t (decodeImage file))) in *.
  pose proof (staged_preprocessImage w t1 decoded (pre_state fm opts)) as S1.
  destruct (exec w t1 (preprocessImage _ _)).2 as [preprocessed|e].
  2:{ destruct H as [H _]. rewrite H in Hin. cbn [fst] in Hin.
      apply elem_of_app in Hin as [Hin|Hin];
        [apply (staged_elem_of _ _ _ _ S0) in Hin|apply (staged_elem_of _ _ _ _ S1) in Hin];
        simpl in Hin; lia. }
  set (t2 := S (turns w t1 _)) in *.
  pose proof (staged_processImage w t2 preprocessed decoded (proc_state fm opts)) as S2.
  destruct (exec w t2 (processImage _ _ _)).2 as [processed|e].
  2:{ destruct H as [H _]. rewrite H in Hin. cbn [fst] in Hin.
      apply elem_of_app in Hin as [Hin|[Hin|Hin]%elem_of_app];
        [apply (staged_elem_of _ _ _ _ S0) in Hin|apply (staged_elem_of _ _ _ _ S1) in Hin
        |apply (staged_elem_of _ _ _ _ S2) in Hin];
        simpl in Hin; lia. }
  set (t3 := S (turns w t2 _)) in *.
  destruct H as [H Ht]. rewrite H in Hin |- *. rewrite Ht. cbn [fst snd pred] in Hin |- *.
  rewrite !exec_encodeImage, turns_encodeImage in *. cbv zeta in *.
  apply elem_of_app in Hin as [Hin|[Hin|[Hin|Hin]%elem_of_app]%elem_of_app];
    [apply (staged_elem_of _ _ _ _ S0) in Hin; simpl in Hin; lia
    |apply (staged_elem_of _ _ _ _ S1) in Hin; simpl in Hin; lia
    |apply (staged_elem_of _ _ _ _ S2) in Hin; simpl in Hin; lia|].
  destruct (fired w t3); cbn [fst snd] in Hin |- *; [by apply elem_of_nil in Hin|].
  apply list_elem_of_singleton in Hin. apply (f_equal encode_call) in Hin.
  injection Hin as -> -> ->.
  split_and!; [done|done| |].
  - by rewrite !app_assoc, last_snoc.
  - simpl. by destruct (answer w (S t3) _).
Qed.

Lemma encoder_settles_conversion_witness :
  (exec calm 0 (convertFile sample_meta (png "a.png") sample_options)).2 =
    match answer calm (pred (turns calm 0 (convertFile sample_meta (png "a.png")
                                             sample_options)))
            (encode mozJPEG (mkImageData 1 1 (file_bits (png "a.png")))
               [("quality", 75%Z)]) with
    | Fulfilled bytes =>
        Fulfilled
          {| input := png "a.png";
             output := mkFile (replace_extension (file_name (png "a.png"))
                                 ("." ++ extension (encoderMap sample_meta mozJPEG))%string)
                         (mimeType (encoderMap sample_meta mozJPEG)) bytes;
             processed := Some (mkImageData 1 1 (file_bits (png "a.png"))) |}
    | Rejected e => Rejected e
    end.
Proof.
  assert (Hin : invoke (encode mozJPEG (mkImageData 1 1 (file_bits (png "a.png")))
                          [("quality", 75%Z)])
                ∈ (exec calm 0 (convertFile sample_meta (png "a.png") sample_options)).1).
  { vm_compute. repeat constructor. }
  exact (proj2 (proj2 (proj2 (encoder_settles_conversion sample_meta calm 0 (png "a.png")
                                sample_options mozJPEG _ _ Hin)))).
Defined.

(** *** Cancellation and the dispatch of calls *)

Lemma dispatched_settle_with {A B} w (p : Async A) (ok : A → Async B)
    (err : JsError → Async B) t :
  dispatched w t (settle_with p ok err) =
    dispatched w t p ++ dispatched w (turns w t p)
                          match (exec w t p).2 with
                          | Fulfilled a => ok a
                          | Rejected e => err e
                          end.
Proof.
  revert t; induction p as [a|e|k IH|X c k IH|k IH]; intros t; simpl; try done.
  rewrite IH. by destruct (exec w (S t) (k (answer w (S t) c))).
Qed.

Lemma dispatched_bind {A B} w (p : Async A) (f : A → Async B) t x :
  x ∈ dispatched w t (p ≫= f) →
  x ∈ dispatched w t p ∨
  ∃ a, (exec w t p).2 = Fulfilled a ∧ x ∈ dispatched w (turns w t p) (f a).
Proof.
  unfold mbind, Async_bind. rewrite dispatched_settle_with.
  intros [H|H]%elem_of_app; [by left|].
  destruct (exec w t p).2 as [a|e]; [right; by exists a|by apply elem_of_nil in H].
Qed.

Lemma dispatched_await_async {A} w (p : Async A) t :
  dispatched w t (await_async p) = dispatched w t p.
Proof.
  unfold await_async. rewrite dispatched_settle_with.
  destruct (exec w t p).2; simpl; by rewrite app_nil_r.
Qed.

Lemma turns_le {A} w (p : Async A) t : t ≤ turns w t p.
Proof.
  revert t; induction p as [a|e|k IH|X c k IH|k IH]; intros t; simpl; try done.
  - specialize (IH (answer w (S t) c) (S t)). lia.
  - specialize (IH (S t)). lia.
Qed.

Lemma dispatched_range {A} w (p : Async A) t x :
  x ∈ dispatched w t p → t ≤ x.1 < turns w t p.
Proof.
  revert t; induction p as [a|e|k IH|X c k IH|k IH]; intros t; simpl.
  - by intros ?%elem_of_nil.
  - by intros ?%elem_of_nil.
  - apply IH.
  - intros [->|Hin]%elem_of_cons; simpl.
    + pose proof (turns_le w (k (answer w (S t) c)) (S t)). lia.
    + apply IH in Hin. lia.
  - intros Hin%IH. lia.
Qed.

Lemma dispatched_mbind {A B} w (p : Async A) (f : A → Async B) t :
  dispatched w t (p ≫= f) =
    dispatched w t p ++ match (exec w t p).2 with
                        | Fulfilled a => dispatched w (turns w t p) (f a)
                        | Rejected _ => []
                        end.
Proof.
  unfold mbind, Async_bind. rewrite dispatched_settle_with.
  by destruct (exec w t p).2.
Qed.

Lemma late_calls_nil w P : late_calls w P [].
Proof. by intros i x ?. Qed.

Lemma late_calls_mono w (P Q : Invocation → Prop) l :
  (∀ c, P c → Q c) → late_calls w P l → late_calls w Q l.
Proof. intros HPQ Hl i x Hx Hf. destruct (Hl i x Hx Hf). auto. Qed.

(** A stage that follows is entered at a later turn; when the signal has
    fired and stays fired, it makes no call. *)
Lemma late_calls_bind {A B} w P (p : Async A) (f : A → Async B) t :
  late_calls w P (dispatched w t p) →
  (∀ a, (exec w t p).2 = Fulfilled a → late_calls w P (dispatched w (turns w t p) (f a))) →
  (∀ a, fired w (turns w t p) = true → dispatched w (turns w t p) (f a) = []) →
  late_calls w P (dispatched w t (p ≫= f)).
Proof.
  intros Hp Hf Hentry i x Hx Hfired. rewrite dispatched_mbind in Hx |- *.
  apply lookup_app_Some in Hx as [Hx|[Hi Hx]].
  - destruct (Hp i x Hx Hfired) as [HP Hlast]. split; [done|].
    intros Hmono. rewrite length_app, <- (Hlast Hmono).
    destruct (exec w t p).2 as [a|e]; [|simpl; lia].
    rewrite Hentry; [simpl; lia|].
    apply (Hmono x.1); [|done].
    apply list_elem_of_lookup_2, dispatched_range in Hx. lia.
  - destruct (exec w t p).2 as [a|e] eqn:Hr; [|by rewrite lookup_nil in Hx].
    destruct (Hf a eq_refl _ x Hx Hfired) as [HP Hlast]. split; [done|].
    intros Hmono. rewrite length_app, <- (Hlast Hmono). lia.
Qed.

Lemma late_calls_await_async {A} w P (p : Async A) t :
  late_calls w P (dispatched w t p) → late_calls w P (dispatched w t (await_async p)).
Proof. by rewrite dispatched_await_async. Qed.

Lemma late_calls_cons w P n c l :
  fired w n = false → late_calls w P l → late_calls w P ((n, c) :: l).
Proof.
  intros Hlive Hl [|i] x Hx Hfired; simplify_eq/=; [congruence|].
  destruct (Hl i x Hx Hfired) as [HP Hlast]. split; [done|]. intros Hmono.
  by rewrite <- (Hlast Hmono).
Qed.

Lemma late_calls_last w (P : Invocation → Prop) n c : P c → late_calls w P [(n, c)].
Proof. intros HP [|i] x Hx Hfired; by simplify_eq/=. Qed.

Ltac late_list :=
  solve [ repeat first [ apply late_calls_nil
                       | apply late_calls_cons; [done|]
                       | apply late_calls_last; simpl; auto ] ].

Lemma late_decodeImage w t blob :
  late_calls w (λ c, stage_of c = 1 ∨ stage_of c = 2) (dispatched w t (decodeImage blob)).
Proof.
  pose proof (stage_of_decoder_for) as Hd.
  unfold decodeImage. simpl.
  destruct (fired w t) eqn:F0; simpl; [late_list|]. rewrite F0; simpl.
  destruct (answer w (S t) (sniffMimeType blob)) as [mimeType|e];
    destruct (fired w (S t)) eqn:F1; simpl; try late_list.
  destruct (answer w (S (S (S t))) (canDecodeImageType mimeType)) as [canDecode|e];
    destruct (fired w (S (S t))) eqn:F2; simpl; try late_list;
    destruct (fired w (S (S (S t)))) eqn:F3; simpl; try late_list.
  specialize (Hd mimeType canDecode blob). unfold decoder_for in Hd.
  destruct (negb canDecode); simpl;
    repeat (match goal with |- context [if (?a =? ?b)%string then _ else _] =>
              destruct (a =? b)%string end); simpl;
    match goal with |- context [answer w ?n ?c] =>
      destruct (answer w n c) as [?|e]; simpl; [|destruct (is_AbortError e); simpl];
      late_list
    end.
Qed.

Lemma late_preprocessImage w t data st :
  late_calls w (λ _, False) (dispatched w t (preprocessImage data st)).
Proof.
  unfold preprocessImage. simpl.
  destruct (fired w t) eqn:F0; simpl; [late_list|].
  destruct (rotate_angle (pre_rotate st) =? 0)%Z; simpl; [late_list|].
  destruct (answer w (S t) _); simpl.
  - apply late_calls_cons; [done|apply late_calls_nil].
  - apply late_calls_cons; [done|apply late_calls_nil].
Qed.

Lemma late_processImage w t preprocessed decoded st :
  late_calls w (λ c, stage_of c = 5 ∧ resize_enabled (proc_resize st) = true)
    (dispatched w t (processImage preprocessed decoded st)).
Proof.
  unfold processImage. simpl.
  destruct (fired w t) eqn:F0; simpl; [late_list|].
  destruct (resize_enabled (proc_resize st)); simpl.
  - destruct (answer w (S t) _) as [resized|e]; simpl;
      [|apply late_calls_cons; [done|apply late_calls_nil]].
    destruct (quantize_enabled (proc_quantize st)); simpl;
      [destruct (answer w (S (S t)) _); simpl|];
      apply late_calls_cons; try done; try apply late_calls_nil;
      by apply late_calls_last.
  - destruct (quantize_enabled (proc_quantize st)); simpl;
      [destruct (answer w (S t) _); simpl|];
      try apply late_calls_nil; (apply late_calls_cons; [done|apply late_calls_nil]).
Qed.

Lemma late_encodeImage fm w t image st name :
  late_calls w (λ _, False) (dispatched w t (encodeImage fm image st name)).
Proof.
  unfold encodeImage. simpl.
  destruct (fired w t) eqn:F0; simpl; [late_list|].
  destruct (answer w (S t) _); simpl; (apply late_calls_cons; [done|apply late_calls_nil]).
Qed.

(** A stage entered after the signal has fired makes no call. *)
Lemma cancelled_stage {A B} w t (stage : Async A) (rest : A → Async B) :
  exec w t stage = ([], Rejected AbortError) →
  dispatched w t stage = [] →
  dispatched w t (await_async stage ≫= rest) = [].
Proof.
  intros He Hd. rewrite dispatched_mbind, dispatched_await_async, exec_await_async.
  by rewrite He, Hd.
Qed.

Lemma entry_preprocessImage w t data st :
  fired w t = true →
  exec w t (preprocessImage data st) = ([], Rejected AbortError) ∧
  dispatched w t (preprocessImage data st) = [].
Proof. intros H. rewrite exec_preprocessImage. unfold preprocessImage. simpl. by rewrite H. Qed.

Lemma entry_processImage w t preprocessed decoded st :
  fired w t = true →
  exec w t (processImage preprocessed decoded st) = ([], Rejected AbortError) ∧
  dispatched w t (processImage preprocessed decoded st) = [].
Proof. intros H. rewrite exec_processImage. unfold processImage. simpl. by rewrite H. Qed.

Lemma entry_encodeImage fm w t image st name :
  fired w t = true →
  exec w t (encodeImage fm image st name) = ([], Rejected AbortError) ∧
  dispatched w t (encodeImage fm image st name) = [].
Proof. intros H. rewrite exec_encodeImage. unfold encodeImage. simpl. by rewrite H. Qed.

Lemma late_convertFile fm w t file opts :
  late_calls w
    (λ c, stage_of c = 1 ∨ stage_of c = 2 ∨
          stage_of c = 5 ∧ resize_enabled (proc_resize (proc_state fm opts)) = true)
    (dispatched w t (convertFile fm file opts)).
Proof.
  unfold convertFile. cbv zeta. fold (pre_state fm opts) (proc_state fm opts).
  apply late_calls_bind.
  { apply late_calls_await_async.
    eapply late_calls_mono; [|apply late_decodeImage]. simpl. tauto. }
  2:{ intros decoded Hfired. apply cancelled_stage; by apply entry_preprocessImage. }
  intros decoded _. apply late_calls_bind.
  { apply late_calls_await_async.
    eapply late_calls_mono; [|apply late_preprocessImage]. simpl. tauto. }
  2:{ intros preprocessed Hfired. apply cancelled_stage; by apply entry_processImage. }
  intros preprocessed _. apply late_calls_bind.
  { apply late_calls_await_async.
    eapply late_calls_mono; [|apply late_processImage]. simpl. tauto. }
  2:{ intros image Hfired. apply cancelled_stage; by apply entry_encodeImage. }
  intros image _. apply late_calls_bind.
  { apply late_calls_await_async.
    eapply late_calls_mono; [|apply late_encodeImage]. simpl. tauto. }
  - intros out _. apply late_calls_nil.
  - done.
Qed.

(** The signal is checked when a stage is entered, not before each call.
    A call that [convertFile] dispatches when the signal has fired is the
    decodability probe (the signal fired after MIME sniffing had settled), a
    decoder (after the probe had settled) or quantize (after resize had
    settled): never the first call of a stage, so never MIME sniffing,
    rotate, resize or the encoder.  When the signal stays fired, such a call
    is the last call of the conversion: at most one call is dispatched
    after the signal has fired. *)
Theorem dispatch_after_cancellation (fm : FeatureMeta) (w : World) (t : nat) (file : File)
    (opts : ConvertOptions) (n : nat) (c : Invocation) :
  (n, c) ∈ dispatched w t (convertFile fm file opts) →
  fired w n = true →
  (stage_of c = 1 ∨ stage_of c = 2 ∨
   stage_of c = 5 ∧ resize_enabled (proc_resize (proc_state fm opts)) = true) ∧
  (fires_once w → last (dispatched w t (convertFile fm file opts)) = Some (n, c)).
Proof.
  intros [i Hi]%list_elem_of_lookup Hfired.
  destruct (late_convertFile fm w t file opts i (n, c) Hi Hfired) as [HP Hlast].
  split; [done|]. intros Hmono%Hlast.
  rewrite last_lookup, <- Hmono. done.
Qed.

Lemma dispatch_after_cancellation_witness :
  fired gap_cancel 2 = true ∧
  stage_of (invoke (canDecodeImageType "image/png")) = 1 ∧
  last (dispatched gap_cancel 0 (convertFile sample_meta (png "a.png") all_steps))
  = Some (2, invoke (canDecodeImageType "image/png")).
Proof.
  assert (Hin : (2, invoke (canDecodeImageType "image/png"))
                ∈ dispatched gap_cancel 0 (convertFile sample_meta (png "a.png") all_steps)).
  { vm_compute. repeat constructor. }
  assert (Hmono : fires_once gap_cancel).
  { intros n m Hle. unfold gap_cancel. cbn [fired]. rewrite !Nat.leb_le. lia. }
  destruct (dispatch_after_cancellation sample_meta gap_cancel 0 (png "a.png") all_steps
              2 (invoke (canDecodeImageType "image/png")) Hin eq_refl) as [_ Hlast].
  split_and!; [reflexivity|reflexivity|exact (Hlast Hmono)].
Defined.

(** ** The Batch component's [decodeImage] *)

(** The two copies of [decodeImage] behave alike, unless the source is
    sniffed as SVG: same calls, same result. *)
Theorem decodeImage_copies_agree (dom : Dom) (w : World) (t : nat) (blob : File) :
  answer w (S t) (sniffMimeType blob) ≠ Fulfilled "image/svg+xml"%string →
  exec w t (BatchComponent.decodeImage dom blob) = exec w t (decodeImage blob) ∧
  turns w t (BatchComponent.decodeImage dom blob) = turns w t (decodeImage blob).
Proof.
  intros Hsvg. unfold BatchComponent.decodeImage, decodeImage. simpl.
  destruct (fired w t) eqn:F0; simpl; [done|]. rewrite F0; simpl.
  destruct (answer w (S t) (sniffMimeType blob)) as [mimeType|e];
    destruct (fired w (S t)) eqn:F1; simpl; try done.
  destruct (answer w (S (S (S t))) (canDecodeImageType mimeType)) as [canDecode|e];
    destruct (fired w (S (S t))) eqn:F2; simpl; try done;
    destruct (fired w (S (S (S t)))) eqn:F3; simpl; try done.
  destruct (negb canDecode); simpl; [|done].
  repeat (match goal with |- context [if (?a =? ?b)%string then _ else _] =>
            destruct (a =? b)%string eqn:? end); try done.
  exfalso. apply Hsvg. f_equal. by apply String.eqb_eq.
Qed.

Lemma decodeImage_copies_agree_witness :
  exec calm 0 (BatchComponent.decodeImage sample_dom (png "a.png"))
  = exec calm 0 (decodeImage (png "a.png")).
Proof.
  apply (decodeImage_copies_agree sample_dom calm 0 (png "a.png")).
  vm_compute. discriminate.
Defined.

(** *** Attributes of the root element *)

Lemma hasAttribute_setAttribute svg name value name' :
  hasAttribute (setAttribute svg name value) name'
  = (name =? name')%string || hasAttribute svg name'.
Proof.
  unfold hasAttribute, setAttribute. simpl.
  induction (root_attributes svg) as [|a l IH]; simpl; [done|].
  destruct (a.1 =? name)%string eqn:Ha; simpl.
  - apply String.eqb_eq in Ha. rewrite Ha.
    by destruct (name =? name')%string.
  - rewrite IH. by destruct (a.1 =? name')%string, (name =? name')%string.
Qed.

Lemma getAttribute_setAttribute_eq svg name value :
  getAttribute (setAttribute svg name value) name = Some value.
Proof.
  unfold getAttribute, setAttribute. simpl.
  induction (root_attributes svg) as [|a l IH]; simpl.
  - by rewrite String.eqb_refl.
  - destruct (a.1 =? name)%string eqn:Ha; simpl.
    + by rewrite String.eqb_refl.
    + by rewrite Ha.
Qed.

Lemma getAttribute_setAttribute_ne svg name value name' :
  name ≠ name' →
  getAttribute (setAttribute svg name value) name' = getAttribute svg name'.
Proof.
  intros Hne%String.eqb_neq. unfold getAttribute, setAttribute. simpl.
  induction (root_attributes svg) as [|a l IH]; simpl.
  - by rewrite Hne.
  - destruct (a.1 =? name)%string eqn:Ha; simpl.
    + apply String.eqb_eq in Ha. rewrite Ha. by rewrite Hne.
    + destruct (a.1 =? name')%string; [done|]. apply IH.
Qed.

(** *** [split] *)

Lemma string_app_assoc (a b c : string) : ((a ++ b) ++ c = a ++ b ++ c)%string.
Proof. induction a as [|x a IH]; simpl; [done|]. by rewrite IH. Qed.

Lemma string_app_nil_r (a : string) : (a ++ "" = a)%string.
Proof. induction a as [|x a IH]; simpl; [done|]. by rewrite IH. Qed.

Lemma space1_byte b : space1 b = true → b < 128.
Proof.
  unfold space1. rewrite orb_true_iff, andb_true_iff, Nat.eqb_eq, !Nat.leb_le. lia.
Qed.

Lemma space2_bytes b0 b1 : space2 b0 b1 = true → 192 ≤ b0 ∧ 128 ≤ b1 ≤ 191.
Proof. unfold space2. rewrite andb_true_iff, !Nat.eqb_eq. lia. Qed.

Lemma space3_bytes b0 b1 b2 :
  space3 b0 b1 b2 = true → 192 ≤ b0 ∧ 128 ≤ b1 ≤ 191 ∧ 128 ≤ b2 ≤ 191.
Proof.
  unfold space3.
  rewrite !orb_true_iff, !andb_true_iff, !orb_true_iff, !andb_true_iff,
    !Nat.eqb_eq, !Nat.leb_le.
  lia.
Qed.

(** A match of [\s] is decided by the bytes of the character matched. *)
Lemma space_length_prefix s r n :
  space_length s = S n → space_length (s ++ r) = S n.
Proof.
  destruct s as [|c0 [|c1 [|c2 s]]]; cbn [space_length append]; try done.
  - by destruct (space1 (nat_of_ascii c0)).
  - destruct (space1 (nat_of_ascii c0)); [done|].
    by destruct (space2 (nat_of_ascii c0) (nat_of_ascii c1)).
Qed.

Lemma continues_byte c t :
  continues (String c t) = false ↔ ¬ (128 ≤ nat_of_ascii c ≤ 191).
Proof. cbn [continues]. rewrite andb_false_iff, !Nat.leb_gt. lia. Qed.

(** A character that [\s] matches does not start with a continuation
    byte. *)
Lemma space_length_lead s n : space_length s = S n → continues s = false.
Proof.
  destruct s as [|c0 t0]; [done|]. rewrite continues_byte. cbn [space_length].
  destruct (space1 (nat_of_ascii c0)) eqn:H1.
  { intros _. apply space1_byte in H1. lia. }
  destruct t0 as [|c1 t1]; [done|].
  destruct (space2 (nat_of_ascii c0) (nat_of_ascii c1)) eqn:H2.
  { intros _. apply space2_bytes in H2. lia. }
  destruct t1 as [|c2 t2]; [done|].
  destruct (space3 (nat_of_ascii c0) (nat_of_ascii c1) (nat_of_ascii c2)) eqn:H3; [|done].
  intros _. apply space3_bytes in H3. lia.
Qed.

(** No match starts in a text without white space when bytes are added
    that do not continue its last character. *)
Lemma space_length_app s r :
  s ≠ ""%string → space_length s = 0 → continues r = false → space_length (s ++ r) = 0.
Proof.
  intros Hs H0 Hr.
  destruct s as [|c0 [|c1 [|c2 s]]]; [done|..]; cbn [space_length append] in *.
  - destruct (space1 (nat_of_ascii c0)); [done|].
    destruct r as [|c1 r1]; [done|]. apply continues_byte in Hr.
    destruct (space2 (nat_of_ascii c0) (nat_of_ascii c1)) eqn:H2.
    { apply space2_bytes in H2. lia. }
    destruct r1 as [|c2 r2]; [done|].
    destruct (space3 (nat_of_ascii c0) (nat_of_ascii c1) (nat_of_ascii c2)) eqn:H3; [|done].
    apply space3_bytes in H3. lia.
  - destruct (space1 (nat_of_ascii c0)); [done|].
    destruct (space2 (nat_of_ascii c0) (nat_of_ascii c1)); [done|].
    destruct r as [|c2 r2]; [done|]. apply continues_byte in Hr.
    destruct (space3 (nat_of_ascii c0) (nat_of_ascii c1) (nat_of_ascii c2)) eqn:H3; [|done].
    apply space3_bytes in H3. lia.
  - done.
Qed.

Lemma split_spaces_step c t current skipping :
  split_spaces (String c t) current skipping 0 =
    match space_length (String c t) with
    | O => split_spaces t (current ++ String c EmptyString) false 0
    | S more =>
        if skipping then split_spaces t current true more
        else current :: split_spaces t EmptyString true more
    end.
Proof. done. Qed.

(** Reading a word. *)
Lemma split_spaces_word a rest current skipping :
  no_space a = true → continues rest = false →
  split_spaces (a ++ rest) current skipping 0 =
    split_spaces rest (current ++ a) (if (a =? "")%string then skipping else false) 0.
Proof.
  intros Ha Hrest. revert current skipping Ha.
  induction a as [|c a IH]; intros current skipping Ha.
  - by rewrite string_app_nil_r.
  - change (no_space (String c a)) with
      ((space_length (String c a) =? 0)%nat && no_space a) in Ha.
    apply andb_true_iff in Ha as [Hc%Nat.eqb_eq Ha].
    change (String c a ++ rest)%string with (String c (a ++ rest)).
    rewrite split_spaces_step.
    change (String c (a ++ rest)) with (String c a ++ rest)%string.
    rewrite space_length_app by done.
    rewrite IH by done. rewrite string_app_assoc. simpl.
    by destruct (a =? "")%string.
Qed.

(** Reading a separator. *)
Lemma split_spaces_gap sep rest current pending :
  all_space sep pending = true →
  split_spaces (sep ++ rest) current true pending = split_spaces rest current true 0.
Proof.
  revert pending. induction sep as [|c sep IH]; intros pending Hsep.
  - simpl in Hsep. by apply Nat.eqb_eq in Hsep as ->.
  - destruct pending as [|pending].
    + change (all_space (String c sep) 0) with
        (match space_length (String c sep) with
         | O => false
         | S more => all_space sep more
         end) in Hsep.
      destruct (space_length (String c sep)) as [|more] eqn:Hc; [done|].
      change (String c sep ++ rest)%string with (String c (sep ++ rest)).
      rewrite split_spaces_step.
      change (String c (sep ++ rest)) with (String c sep ++ rest)%string.
      rewrite (space_length_prefix _ _ _ Hc). by apply IH.
    + simpl. by apply IH.
Qed.

Lemma split_spaces_first_gap sep rest current :
  is_gap sep = true →
  split_spaces (sep ++ rest) current false 0 = current :: split_spaces rest "" true 0.
Proof.
  unfold is_gap. destruct sep as [|c sep]; [done|]. simpl negb. rewrite andb_true_l.
  change (all_space (String c sep) 0) with
    (match space_length (String c sep) with
     | O => false
     | S more => all_space sep more
     end).
  destruct (space_length (String c sep)) as [|more] eqn:Hc; [done|]. intros Hsep.
  change (String c sep ++ rest)%string with (String c (sep ++ rest)).
  rewrite split_spaces_step.
  change (String c (sep ++ rest)) with (String c sep ++ rest)%string.
  rewrite (space_length_prefix _ _ _ Hc). f_equal. by apply split_spaces_gap.
Qed.

Lemma is_gap_lead sep rest : is_gap sep = true → continues (sep ++ rest) = false.
Proof.
  unfold is_gap. destruct sep as [|c sep]; [done|]. simpl negb. rewrite andb_true_l.
  change (all_space (String c sep) 0) with
    (match space_length (String c sep) with
     | O => false
     | S more => all_space sep more
     end).
  destruct (space_length (String c sep)) as [|more] eqn:Hc; [done|]. intros _.
  by apply space_length_lead in Hc.
Qed.

(** [split] gives back the words of a text. *)
Lemma split_spaces_join seps words skipping :
  length words = S (length seps) →
  Forall (λ word, no_space word = true) words →
  Forall (λ sep, is_gap sep = true) seps →
  (∀ i word, i < length seps → words !! i = Some word →
     word ≠ ""%string ∨ i = 0 ∧ skipping = false) →
  split_spaces (join words seps) "" skipping 0 = words.
Proof.
  revert words skipping.
  induction seps as [|sep seps IH]; intros [|word words] skipping Hlen Hwords Hseps Hne;
    try done.
  - destruct words; [|done]. simpl.
    apply Forall_cons in Hwords as [Hword _].
    rewrite <- (string_app_nil_r word) at 1.
    by rewrite split_spaces_word.
  - apply Forall_cons in Hwords as [Hword Hwords].
    apply Forall_cons in Hseps as [Hsep Hseps].
    destruct words as [|word' words']; [done|].
    change (join (word :: word' :: words') (sep :: seps))
      with (word ++ sep ++ join (word' :: words') seps)%string.
    rewrite split_spaces_word; [|done|by apply is_gap_lead].
    assert ((if (word =? "")%string then skipping else false) = false) as ->.
    { destruct (word =? "")%string eqn:Hw; [|done].
      apply String.eqb_eq in Hw.
      destruct (Hne 0 word) as [?|[_ ?]]; simpl; [lia|done..]. }
    rewrite split_spaces_first_gap by done. cbn [append]. f_equal.
    apply IH; [simpl in Hlen |- *; lia|done|done|].
    intros i w Hi Hw. left.
    destruct (Hne (S i) w) as [?|[? _]]; simpl; [lia|done..].
Qed.

Lemma split_join words seps : words_of_text words seps → split (join words seps) = words.
Proof.
  intros (Hlen & Hwords & Hseps & Hne). apply split_spaces_join; try done.
  intros i word Hi Hword. destruct i as [|i]; [by right|]. left.
  apply (Hne (S i)); [lia|done].
Qed.

(** *** [ensure_size] *)

Lemma ensure_size_cases svg :
  BatchComponent.ensure_size svg = svg ∧
  (hasAttribute svg "width" && hasAttribute svg "height" = true ∨
   getAttribute svg "viewBox" = None ∨ getAttribute svg "viewBox" = Some ""%string)
  ∨ ∃ viewBox,
      getAttribute svg "viewBox" = Some viewBox ∧ viewBox ≠ ""%string ∧
      BatchComponent.ensure_size svg =
        setAttribute (setAttribute svg "width" (part (split viewBox) 2))
          "height" (part (split viewBox) 3).
Proof.
  unfold BatchComponent.ensure_size.
  destruct (hasAttribute svg "width"), (hasAttribute svg "height"); simpl; auto;
    (destruct (getAttribute svg "viewBox") as [viewBox|]; [|by auto]);
    (destruct (viewBox =? "")%string eqn:Hempty;
       [apply String.eqb_eq in Hempty; subst; by auto|]);
    apply String.eqb_neq in Hempty; right; by exists viewBox.
Qed.

(** What "Ensure SVG has width/height" does to a document: it keeps the
    markup and every attribute other than [width] and [height]; a document
    with a non-empty [viewBox] has both attributes afterwards; and doing it
    twice is doing it once. *)
Theorem ensure_size_normalizes (svg : SvgDocument) :
  markup (BatchComponent.ensure_size svg) = markup svg ∧
  (∀ name, name ≠ "width"%string → name ≠ "height"%string →
     getAttribute (BatchComponent.ensure_size svg) name = getAttribute svg name) ∧
  (∀ viewBox, getAttribute svg "viewBox" = Some viewBox → viewBox ≠ ""%string →
     hasAttribute (BatchComponent.ensure_size svg) "width" = true ∧
     hasAttribute (BatchComponent.ensure_size svg) "height" = true) ∧
  BatchComponent.ensure_size (BatchComponent.ensure_size svg)
  = BatchComponent.ensure_size svg.
Proof.
  destruct (ensure_size_cases svg) as [[Hsame Hwhy]|(viewBox & Hvb & Hne & Hset)].
  - rewrite !Hsame. split_and!; try done.
    intros viewBox Hvb Hne. destruct Hwhy as [Hboth|[Hnone|Hempty]].
    + by apply andb_true_iff in Hboth.
    + congruence.
    + congruence.
  - assert (Hw : hasAttribute (BatchComponent.ensure_size svg) "width" = true).
    { rewrite Hset. by rewrite !hasAttribute_setAttribute. }
    assert (Hh : hasAttribute (BatchComponent.ensure_size svg) "height" = true).
    { rewrite Hset. by rewrite !hasAttribute_setAttribute. }
    split_and!; try done.
    + by rewrite Hset.
    + intros name Hnw Hnh. rewrite Hset. by rewrite !getAttribute_setAttribute_ne.
    + destruct (ensure_size_cases (BatchComponent.ensure_size svg))
        as [[Hsame _]|(vb & _ & _ & Hagain)]; [done|].
      unfold BatchComponent.ensure_size at 1. by rewrite Hw, Hh.
Qed.

(** When [width] or [height] is missing, both are taken from the
    [viewBox], which is split at every run of white space, Unicode spaces
    included: [width] becomes its third word and [height] its fourth, also
    when one of the two was present; where the [viewBox] has fewer words,
    the attribute becomes "undefined"; and a [viewBox] that starts with
    white space has an empty first word. *)
Theorem ensure_size_from_viewBox (svg : SvgDocument) (words seps : list string) :
  hasAttribute svg "width" && hasAttribute svg "height" = false →
  getAttribute svg "viewBox" = Some (join words seps) →
  join words seps ≠ ""%string →
  words_of_text words seps →
  getAttribute (BatchComponent.ensure_size svg) "width" = Some (part words 2) ∧
  getAttribute (BatchComponent.ensure_size svg) "height" = Some (part words 3) ∧
  (∀ width, words !! 2 = Some width →
     getAttribute (BatchComponent.ensure_size svg) "width" = Some width) ∧
  (∀ height, words !! 3 = Some height →
     getAttribute (BatchComponent.ensure_size svg) "height" = Some height) ∧
  (length words ≤ 3 →
     getAttribute (BatchComponent.ensure_size svg) "height" = Some "undefined"%string).
Proof.
  intros Hmiss Hvb Hne Htext.
  assert (Hw : getAttribute (BatchComponent.ensure_size svg) "width" = Some (part words 2) ∧
               getAttribute (BatchComponent.ensure_size svg) "height" = Some (part words 3)).
  { unfold BatchComponent.ensure_size.
    assert (negb (hasAttribute svg "width") || negb (hasAttribute svg "height") = true) as ->.
    { by destruct (hasAttribute svg "width"), (hasAttribute svg "height"). }
    rewrite Hvb. apply String.eqb_neq in Hne. rewrite Hne.
    rewrite split_join by done. split.
    - rewrite getAttribute_setAttribute_ne by done. apply getAttribute_setAttribute_eq.
    - apply getAttribute_setAttribute_eq. }
  destruct Hw as [Hw Hh]. split_and!; [done|done|..].
  - intros width Hwidth. rewrite Hw. unfold part. by rewrite Hwidth.
  - intros height Hheight. rewrite Hh. unfold part. by rewrite Hheight.
  - intros Hlen. rewrite Hh. unfold part. by rewrite lookup_ge_None_2.
Qed.

Lemma ensure_size_from_viewBox_witness :
  let svg := {| root_attributes :=
                  [("height", "7");
                   ("viewBox", (" 0  0" ++ nbsp ++ "10" ++ em_space ++ "20")%string)];
                markup := "<rect/>" |} in
  getAttribute (BatchComponent.ensure_size svg) "width" = Some "0"%string ∧
  getAttribute (BatchComponent.ensure_size svg) "height" = Some "10"%string.
Proof.
  intros svg.
  destruct (ensure_size_from_viewBox svg [""; "0"; "0"; "10"; "20"]
              [" "; "  "; nbsp; em_space]%string) as (_ & _ & Hw & Hh & _).
  - reflexivity.
  - reflexivity.
  - by vm_compute.
  - split_and!; [reflexivity|by repeat constructor|by repeat constructor|].
    intros [|[|[|[|i]]]] word Hi Hword; simpl in *; simplify_eq/=; try done; lia.
  - split; [by apply Hw|by apply Hh].
Defined.

(** An SVG source the browser cannot decode: the Batch component reads
    its text, normalizes the document and rasterizes the serialized result,
    not the original blob; the built-in decoder is not called, and a
    failure to rasterize surfaces as "Couldn't decode image". *)
Theorem decodeImage_svg_path (dom : Dom) (w : World) (t : nat) (blob : File)
    (text : string) :
  (∀ n, fired w n = false) →
  answer w (1 + t) (sniffMimeType blob) = Fulfilled "image/svg+xml"%string →
  answer w (3 + t) (canDecodeImageType "image/svg+xml") = Fulfilled false →
  answer w (5 + t) (blobToText blob) = Fulfilled text →
  let svg := BatchComponent.ensure_size (parseFromString dom text) in
  let imgBlob := mkFile "" "image/svg+xml" (utf8 (serializeToString dom svg)) in
  exec w t (BatchComponent.decodeImage dom blob) =
    ([invoke (sniffMimeType blob); invoke (canDecodeImageType "image/svg+xml");
      invoke (blobToText blob); invoke (createImageBitmap imgBlob)],
     match answer w (7 + t) (createImageBitmap imgBlob) with
     | Fulfilled img => Fulfilled (drawableToImageData dom img)
     | Rejected e => Rejected (if is_AbortError e then e else CouldntDecode)
     end).
Proof.
  intros Hlive Hsniff Hprobe Htext svg imgBlob. cbn [Nat.add] in *.
  unfold BatchComponent.decodeImage. simpl.
  repeat (progress (rewrite ?Hlive, ?Hsniff, ?Hprobe, ?Htext; simpl)).
  fold svg. fold imgBlob.
  destruct (answer w (S (S (S (S (S (S (S t))))))) (createImageBitmap imgBlob)) as [img|e];
    simpl; repeat (progress (rewrite ?Hlive; simpl)); [done|].
  by destruct (is_AbortError e).
Qed.

Lemma decodeImage_svg_path_witness :
  (exec reading 0 (BatchComponent.decodeImage sample_dom svg_file)).1 =
    [invoke (sniffMimeType svg_file); invoke (canDecodeImageType "image/svg+xml");
     invoke (blobToText svg_file);
     invoke (createImageBitmap
               (mkFile "" "image/svg+xml"
                  (utf8 (serializeToString sample_dom
                           (BatchComponent.ensure_size
                              (parseFromString sample_dom svg_source))))))].
Proof.
  by rewrite (decodeImage_svg_path sample_dom reading 0 svg_file svg_source).
Defined.

(** ** The scheduler, further *)

Section SchedulerFacts.
Variable fm : FeatureMeta.
Variable env : Env.
Variable files : list File.
Variable opts : BatchOptions.

Lemma spawn_shared n st :
  completions (spawn fm files opts n st) = completions st ∧
  rejection (spawn fm files opts n st) = rejection st ∧
  results (spawn fm files opts n st) = results st.
Proof.
  revert st. induction n as [|n IH]; intros st; simpl; [done|].
  unfold run. destruct (queue st); by rewrite !(proj1 (IH _)), !(proj1 (proj2 (IH _))),
                                         !(proj2 (proj2 (IH _))).
Qed.

(** The record of the [finally] block only grows. *)
Lemma completions_step st ev :
  ∃ new, completions (step fm env files opts st ev) = completions st ++ new.
Proof.
  destruct ev as [w|]; simpl; [|exists []; by rewrite app_nil_r].
  unfold resume_worker. simpl.
  destruct (workers st !! w) as [[idx p| |e]|]; try (exists []; by rewrite app_nil_r).
  destruct (resume _ _ p); simpl; try (exists []; by rewrite app_nil_r).
  - unfold run; simpl. destruct (queue st); simpl; by eexists.
  - by eexists.
Qed.

Lemma completions_run_schedule st schedule :
  ∃ new, completions (run_schedule fm env files opts st schedule) = completions st ++ new.
Proof.
  unfold run_schedule. revert st.
  induction schedule as [|ev schedule IH]; intros st; simpl.
  - exists []. by rewrite app_nil_r.
  - destruct (IH (step fm env files opts st ev)) as [new2 ->].
    destruct (completions_step st ev) as [new1 ->].
    exists (new1 ++ new2). by rewrite app_assoc.
Qed.

(** [Promise.all] has rejected with the error of the first conversion
    that failed. *)
Lemma rejection_step st ev :
  rejection st = head (failures st) →
  rejection (step fm env files opts st ev)
  = head (failures (step fm env files opts st ev)).
Proof.
  intros Hrej. destruct ev as [w|]; simpl; [|done].
  unfold resume_worker. simpl.
  destruct (workers st !! w) as [[idx p| |e]|]; try done.
  destruct (resume _ _ p); simpl; try done.
  - unfold run; simpl.
    destruct (queue st); simpl; unfold failures; simpl;
      rewrite omap_app; simpl; by rewrite app_nil_r.
  - unfold failures in *; simpl. rewrite omap_app; simpl. rewrite Hrej.
    by destruct (omap _ (completions st)).
Qed.

Lemma rejection_run_schedule st schedule :
  rejection st = head (failures st) →
  rejection (run_schedule fm env files opts st schedule)
  = head (failures (run_schedule fm env files opts st schedule)).
Proof.
  unfold run_schedule. revert st.
  induction schedule as [|ev schedule IH]; intros st Hrej; simpl; [done|].
  by apply IH, rejection_step.
Qed.

Lemma rejection_convertFiles signal_aborted schedule :
  rejection (run_schedule fm env files opts
               (convertFiles fm files opts signal_aborted) schedule)
  = head (failures (run_schedule fm env files opts
                      (convertFiles fm files opts signal_aborted) schedule)).
Proof.
  apply rejection_run_schedule. unfold convertFiles, failures.
  by rewrite (proj1 (spawn_shared _ _)), (proj1 (proj2 (spawn_shared _ _))).
Qed.

(** The items being converted are those of the suspended workers. *)
Lemma elem_of_in_flight st i : i ∈ in_flight st ↔ busy_with st i.
Proof.
  unfold in_flight, busy_with. rewrite list_elem_of_omap. split.
  - intros (wk & (w & Hw)%list_elem_of_lookup & Hi).
    destruct wk as [idx p| |e]; simplify_eq. by exists w, p.
  - intros (w & p & Hw). exists (Busy i p). split; [|done].
    apply list_elem_of_lookup. by exists w.
Qed.

Lemma NoDup_busy (ws : list Worker) :
  (∀ w w' i p p', ws !! w = Some (Busy i p) → ws !! w' = Some (Busy i p') → w = w') →
  NoDup (omap (λ wk, match wk with Busy idx _ => Some idx | _ => None end) ws).
Proof.
  induction ws as [|wk ws IH]; intros Hinj; simpl; [constructor|].
  assert (Htail : NoDup (omap (λ wk, match wk with Busy idx _ => Some idx | _ => None end) ws)).
  { apply IH. intros w w' i p p' Hw Hw'.
    assert (S w = S w') as [= ->]; [|done]. by apply (Hinj (S w) (S w') i p p'). }
  destruct wk as [idx p| |e]; [|done..].
  constructor; [|done].
  intros (wk & (w & Hw)%list_elem_of_lookup & Hi)%list_elem_of_omap.
  destruct wk as [idx' p'| |e]; simplify_eq.
  by specialize (Hinj 0 (S w) idx p p' eq_refl Hw).
Qed.

Lemma length_in_flight st : length (in_flight st) ≤ length (workers st).
Proof.
  unfold in_flight. induction (workers st) as [|wk ws IH]; simpl; [done|].
  unfold omap in IH. destruct wk; simpl; lia.
Qed.

End SchedulerFacts.

(** A batch of no files returns an empty list whatever happens: no worker
    is started and the [finally] block never runs, also when the signal has
    fired before the call or fires later. *)
Theorem empty_batch (fm : FeatureMeta) (env : Env) (opts : BatchOptions)
    (signal_aborted : bool) (schedule : list Event) :
  let st := run_schedule fm env [] opts (convertFiles fm [] opts signal_aborted) schedule in
  outcome st = Returns [] ∧ workers st = [] ∧ completions st = [].
Proof.
  assert (Hstart : ∀ st, workers st = [] → results st = [] → completions st = [] →
            rejection st = None →
            let st' := run_schedule fm env [] opts st schedule in
            outcome st' = Returns [] ∧ workers st' = [] ∧ completions st' = []).
  { unfold run_schedule.
    induction schedule as [|ev schedule IH]; intros st Hw Hr Hc Hj; simpl.
    - unfold outcome. by rewrite Hj, Hw, Hr.
    - apply IH; destruct ev as [w|]; simpl; try done;
        unfold resume_worker; simpl; by rewrite Hw. }
  assert (convertFiles fm [] opts signal_aborted =
            {| queue := []; results := []; done := 0; completions := [];
               aborted := signal_aborted; workers := []; rejection := None; turn := 0 |})
    as ->; [|by apply Hstart].
  unfold convertFiles, total. simpl.
  by replace (Z.to_nat (Z.min (conc opts) (Z.of_nat 0))) with 0 by (unfold conc; lia).
Qed.

(** At every moment of every run, each file is in exactly one of three
    states: still in the queue, being converted by a worker, or through the
    [finally] block.  The queue holds the last indices, in order: items are
    taken in the order of the input. *)
Theorem item_states (fm : FeatureMeta) (env : Env) (files : list File)
    (opts : BatchOptions) (signal_aborted : bool) (schedule : list Event) (i : nat) :
  let st := run_schedule fm env files opts
              (convertFiles fm files opts signal_aborted) schedule in
  i < length files →
  queue st = seq (length files - length (queue st)) (length (queue st)) ∧
  ((i ∈ queue st) ∧ ¬ busy_with st i ∧ ¬ completed st i
   ∨ (i ∉ queue st) ∧ busy_with st i ∧ ¬ completed st i
   ∨ (i ∉ queue st) ∧ ¬ busy_with st i ∧ completed st i).
Proof.
  intros st Hi.
  pose proof (reachable_Inv fm env files opts signal_aborted schedule) as HI.
  fold st in HI. split; [apply (inv_queue _ _ HI)|].
  assert (Hexcl : busy_with st i → completed st i → False).
  { intros Hb (c & -> & Hc)%list_elem_of_fmap. by apply (inv_done_busy _ _ HI c Hc). }
  destruct (decide (i < started files st)) as [Hlt|Hge].
  - assert (i ∉ queue st) as Hq.
    { intros Hq. apply (queued_started files st HI) in Hq. lia. }
    destruct (inv_cover _ _ HI i Hlt) as [Hb|Hc].
    + right; left. split_and!; [done..|]. intros Hc. by apply Hexcl.
    + right; right. split_and!; [done| |done]. intros Hb. by apply Hexcl.
  - left. split_and!.
    + destruct (decide (i ∈ queue st)) as [|Hq]; [done|].
      by apply (unqueued_started files st HI) in Hq.
    + intros (w & p & Hw). apply (inv_busy_lt _ _ HI) in Hw. lia.
    + intros (c & -> & Hc)%list_elem_of_fmap. apply (inv_done_lt _ _ HI) in Hc. lia.
Qed.

Lemma item_states_witness :
  let st := run_schedule sample_meta sample_env two_files (batch_options (Some 1%Z))
              (convertFiles sample_meta two_files (batch_options (Some 1%Z)) false)
              [Resume 0] in
  (1 ∈ queue st) ∧ ¬ busy_with st 1 ∧ ¬ completed st 1
  ∨ (1 ∉ queue st) ∧ busy_with st 1 ∧ ¬ completed st 1
  ∨ (1 ∉ queue st) ∧ ¬ busy_with st 1 ∧ completed st 1.
Proof.
  intros st.
  apply (item_states sample_meta sample_env two_files (batch_options (Some 1%Z)) false
           [Resume 0] 1).
  simpl. lia.
Defined.

(** No file is being converted by two workers at a time, and at most
    eight conversions are in progress at any moment. *)
Theorem conversions_in_flight (fm : FeatureMeta) (env : Env) (files : list File)
    (opts : BatchOptions) (signal_aborted : bool) (schedule : list Event) :
  let st := run_schedule fm env files opts
              (convertFiles fm files opts signal_aborted) schedule in
  NoDup (in_flight st) ∧
  length (in_flight st) ≤ 8 ∧
  length (in_flight st) ≤ length files ∧
  ∀ i, i ∈ in_flight st → i < length files ∧ (i ∉ queue st) ∧ ¬ completed st i.
Proof.
  intros st.
  pose proof (reachable_Inv fm env files opts signal_aborted schedule) as HI.
  pose proof (reachable_workers fm env files opts signal_aborted schedule) as Hlen.
  pose proof (length_in_flight st) as Hle.
  fold st in HI, Hlen. unfold conc, total in Hlen.
  split_and!; [by apply NoDup_busy, (inv_busy_inj _ _ HI)|lia|lia|].
  intros i (w & p & Hw)%elem_of_in_flight.
  pose proof (inv_busy_lt _ _ HI w i p Hw) as Hlt.
  pose proof (started_total files st) as Htot.
  split_and!; [lia| |].
  - intros Hq. apply (queued_started files st HI) in Hq. lia.
  - intros (c & -> & Hc)%list_elem_of_fmap.
    apply (inv_done_busy _ _ HI c Hc). by exists w, p.
Qed.

(** A result, once written to [results], stays: nothing that happens
    later (other items completing or failing, the signal firing) removes or
    replaces it. *)
Theorem results_stable (fm : FeatureMeta) (env : Env) (files : list File)
    (opts : BatchOptions) (signal_aborted : bool) (schedule more : list Event)
    (i : nat) (r : ConvertResult) :
  let st := run_schedule fm env files opts
              (convertFiles fm files opts signal_aborted) schedule in
  slot (results st) i = Some r →
  slot (results (run_schedule fm env files opts st more)) i = Some r.
Proof.
  intros st Hr.
  pose proof (reachable_Inv fm env files opts signal_aborted schedule) as HI.
  pose proof (reachable_Inv fm env files opts signal_aborted (schedule ++ more)) as HI'.
  rewrite run_schedule_app in HI'. fold st in HI, HI'.
  destruct (inv_results _ _ HI i r Hr) as (c & Hc & <- & Hok).
  destruct (completions_run_schedule fm env files opts st more) as [new Hnew].
  assert (c ∈ completions (run_schedule fm env files opts st more)) as Hc'.
  { rewrite Hnew. apply elem_of_app. by left. }
  by destruct (inv_snapshot _ _ HI' c r Hc' Hok) as (_ & ? & _).
Qed.

Lemma results_stable_witness :
  let st := run_schedule sample_meta sample_env one_broken (batch_options (Some 2%Z))
              (convertFiles sample_meta one_broken (batch_options (Some 2%Z)) false)
              (replicate 10 (Resume 1)) in
  slot (results (run_schedule sample_meta sample_env one_broken (batch_options (Some 2%Z))
                   st (Fire :: replicate 4 (Resume 0)))) 1
  = Some (converted (png "b.png")).
Proof.
  intros st.
  apply (results_stable sample_meta sample_env one_broken (batch_options (Some 2%Z)) false
           (replicate 10 (Resume 1)) (Fire :: replicate 4 (Resume 0)) 1
           (converted (png "b.png"))).
  vm_compute. reflexivity.
Defined.

(** The batch rejects exactly when a conversion has failed, and with the
    error of the first conversion that failed: errors of later failures are
    dropped.  When no conversion has failed and no worker is suspended, the
    batch has returned. *)
Theorem batch_rejects_with_first_failure (fm : FeatureMeta) (env : Env)
    (files : list File) (opts : BatchOptions) (signal_aborted : bool)
    (schedule : list Event) :
  let st := run_schedule fm env files opts
              (convertFiles fm files opts signal_aborted) schedule in
  (∀ e, outcome st = Rejects e ↔ head (failures st) = Some e) ∧
  (quiescent st = true → failures st = [] → outcome st = Returns (results st)).
Proof.
  intros st.
  pose proof (rejection_convertFiles fm env files opts signal_aborted schedule) as Hrej.
  pose proof (reachable_Inv fm env files opts signal_aborted schedule) as HI.
  fold st in Hrej, HI. split.
  - intros e. rewrite <- Hrej. unfold outcome.
    destruct (rejection st) as [e'|]; [split; congruence|].
    by destruct (forallb is_Finished (workers st)).
  - intros Hq Hnone. pose proof (quiescent_settled files st HI Hq) as Hset.
    unfold outcome in *. rewrite Hrej, Hnone in *. simpl in *.
    by destruct (forallb is_Finished (workers st)).
Qed.

Lemma batch_rejects_with_first_failure_witness :
  let st := run_schedule sample_meta sample_env two_files (batch_options None)
              (convertFiles sample_meta two_files (batch_options None) false)
              alternating in
  outcome st = Returns (results st).
Proof.
  intros st.
  apply (batch_rejects_with_first_failure sample_meta sample_env two_files
           (batch_options None) false alternating); vm_compute; reflexivity.
Defined.

(** Once the batch has returned, nothing happens any more: the array the
    caller holds is not written to again and the progress callback is not
    called again, whatever is resumed and whether or not the signal
    fires. *)
Theorem returned_is_final (fm : FeatureMeta) (env : Env) (files : list File)
    (opts : BatchOptions) (signal_aborted : bool) (schedule more : list Event)
    (rs : list (option ConvertResult)) :
  let st := run_schedule fm env files opts
              (convertFiles fm files opts signal_aborted) schedule in
  let st' := run_schedule fm env files opts st more in
  outcome st = Returns rs →
  outcome st' = Returns rs ∧ results st' = rs ∧ calls opts st' = calls opts st.
Proof.
  intros st st' Hret.
  destruct (returned_quiescent fm env files opts signal_aborted schedule rs Hret)
    as [Hq _]. fold st in Hq.
  destruct (quiescent_run_schedule fm env files opts st more Hq)
    as (_ & Hr & Hc & Hw & Hj). fold st' in Hr, Hc, Hw, Hj.
  unfold outcome, calls in *. rewrite Hr, Hc, Hw, Hj.
  split_and!; [done| |done].
  destruct (rejection st); [done|].
  destruct (forallb is_Finished (workers st)); [|done]. congruence.
Qed.

Lemma returned_is_final_witness :
  let st := run_schedule sample_meta sample_env two_files (batch_options None)
              (convertFiles sample_meta two_files (batch_options None) false)
              alternating in
  let st' := run_schedule sample_meta sample_env two_files (batch_options None) st
               [Fire; Resume 0; Resume 1] in
  let rs := [Some (converted (png "a.png")); Some (converted (png "b.png"))] in
  outcome st' = Returns rs ∧ results st' = rs ∧
  calls (batch_options None) st' = calls (batch_options None) st.
Proof.
  intros st st' rs.
  assert (Hret : outcome st = Returns rs) by (vm_compute; reflexivity).
  exact (returned_is_final sample_meta sample_env two_files (batch_options None) false
           alternating [Fire; Resume 0; Resume 1] rs Hret).
Defined.

(** ** Names of converted files *)

(** Converting an output again gives the name that converting the source
    gives: only the text after the last dot is replaced, so extensions do
    not pile up. *)
Theorem output_name_of_reconversion (name ext1 ext2 : string) :
  no_dot ext1 = true → no_dollar ext1 = true → no_dollar ext2 = true →
  replace_extension (replace_extension name ("." ++ ext1)) ("." ++ ext2)
  = replace_extension name ("." ++ ext2).
Proof.
  intros Hdot H1 H2. destruct (no_dot name) eqn:Hname.
  - by rewrite !(replace_extension_no_dot name).
  - destruct (last_dot_exists name Hname) as (base & old & -> & Hold).
    pose proof (replace_extension_last_dot base old ext1 Hold H1) as E1.
    pose proof (replace_extension_last_dot base old ext2 Hold H2) as E2.
    pose proof (replace_extension_last_dot base ext1 ext2 Hdot H2) as E3.
    simpl in E1, E2, E3. simpl. by rewrite E1, E2, E3.
Qed.

Lemma output_name_of_reconversion_witness :
  replace_extension (replace_extension "photo.final.png" ".webp") ".jpg"
  = replace_extension "photo.final.png" ".jpg".
Proof.
  apply (output_name_of_reconversion "photo.final.png" "webp" "jpg"); reflexivity.
Defined.

(** ** SimpleApp: [start] *)






(** ** SimpleApp: [downloadZip] *)







Section ZipProofs.
Variable inherited : list string.









End ZipProofs.

(** *** The order of the entries *)









(** ** The Batch component: [start], [processOne], [fail] *)

Lemma concurrency_range hardwareConcurrency :
  BatchApp.concurrency hardwareConcurrency = 1%Z ∨
  BatchApp.concurrency hardwareConcurrency = 2%Z.
Proof.
  unfold BatchApp.concurrency.
  destruct hardwareConcurrency as [n|]; [destruct (n =? 0)%Z|]; lia.
Qed.

Lemma lookup_update index f l i :
  BatchApp.update index f l !! i
  = (λ it, if (i =? index)%nat then f it else it) <$> l !! i.
Proof. unfold BatchApp.update. apply list_lookup_imap. Qed.

Lemma file_update index f l :
  (∀ it, BatchApp.file (f it) = BatchApp.file it) →
  BatchApp.file <$> BatchApp.update index f l = BatchApp.file <$> l.
Proof.
  intros Hf. apply list_eq. intros i. rewrite !list_lookup_fmap, lookup_update.
  destruct (l !! i) as [it|]; simpl; [|done].
  destruct (i =? index)%nat; by rewrite ?Hf.
Qed.

Lemma lookup_insert_job (js : list BatchApp.Job) w x w0 y :
  <[w := x]> js !! w0 = Some y → (w0 = w ∧ y = x) ∨ (w0 ≠ w ∧ js !! w0 = Some y).
Proof.
  rewrite list_lookup_insert_Some. intros [(-> & -> & _)|(Hne & H)]; auto.
Qed.

(** Replacing the job of one worker: the other workers' items. *)
Lemma working_other st st' w j j' i :
  BatchApp.jobs st !! w = Some j →
  BatchApp.jobs st' = <[w := j']> (BatchApp.jobs st) →
  BatchApp.job_index j ≠ Some i → BatchApp.job_index j' ≠ Some i →
  BatchApp.working st' i ↔ BatchApp.working st i.
Proof.
  intros Hw Hjobs Hj Hj'. unfold BatchApp.working. rewrite Hjobs. split.
  - intros (w0 & j0 & [[-> ->]|[Hne H]]%lookup_insert_job & Hi); [done|eauto].
  - intros (w0 & j0 & H & Hi). exists w0, j0. split; [|done].
    destruct (decide (w0 = w)) as [->|Hne]; [congruence|].
    by rewrite list_lookup_insert_ne.
Qed.

Lemma working_new st st' w j' i :
  w < length (BatchApp.jobs st) →
  BatchApp.jobs st' = <[w := j']> (BatchApp.jobs st) →
  BatchApp.job_index j' = Some i → BatchApp.working st' i.
Proof.
  intros Hlt Hjobs Hi. exists w, j'. rewrite Hjobs. split; [|done].
  by apply list_lookup_insert_eq.
Qed.

Section BatchAppProofs.
Variable fm : FeatureMeta.
Variable env : Env.
Variable dom : Dom.
Variable createObjectURL : nat → File → string.
Variable files : list File.

(** The item a worker is busy with stays in progress. *)
Lemma BatchApp_Inv_keep st st' w j j' idx (g : BatchApp.ItemState → BatchApp.ItemState) :
  BatchApp.Inv files st →
  BatchApp.jobs st !! w = Some j →
  BatchApp.job_index j = Some idx → BatchApp.job_index j' = Some idx →
  BatchApp.jobs st' = <[w := j']> (BatchApp.jobs st) →
  BatchApp.queue st' = BatchApp.queue st →
  BatchApp.snacks st' = BatchApp.snacks st →
  (∀ it, BatchApp.file (g it) = BatchApp.file it ∧
         BatchApp.status (g it) = BatchApp.status it) →
  (∀ i, BatchApp.items st' !! i
        = (λ it, if (i =? idx)%nat then g it else it) <$> BatchApp.items st !! i) →
  BatchApp.Inv files st'.
Proof.
  intros HI Hw Hj Hj' Hjobs Hq Hs Hg Hitems.
  pose proof (lookup_lt_Some _ _ _ Hw) as Hlt.
  assert (Hstarted : BatchApp.started files st' = BatchApp.started files st).
  { unfold BatchApp.started. by rewrite Hq. }
  split; rewrite ?Hstarted, ?Hq, ?Hs; try apply HI.
  - rewrite <- (BatchApp.inv_files _ _ HI). apply list_eq. intros i.
    rewrite !list_lookup_fmap, Hitems.
    destruct (BatchApp.items st !! i) as [it|]; simpl; [|done].
    destruct (i =? idx)%nat; [|done]. by rewrite (proj1 (Hg it)).
  - intros w0 j0 i. rewrite Hjobs.
    intros [[-> ->]|[Hne H]]%lookup_insert_job Hi.
    + rewrite Hj' in Hi. injection Hi as <-. by apply (BatchApp.inv_job_lt _ _ HI w j).
    + by apply (BatchApp.inv_job_lt _ _ HI w0 j0).
  - intros w1 w2 j1 j2 i. rewrite Hjobs.
    intros [[-> ->]|[Hne1 H1]]%lookup_insert_job [[-> ->]|[Hne2 H2]]%lookup_insert_job Hi1 Hi2.
    + done.
    + rewrite Hj' in Hi1. injection Hi1 as <-.
      by apply (BatchApp.inv_job_inj _ _ HI w w2 j j2 idx).
    + rewrite Hj' in Hi2. injection Hi2 as <-.
      by apply (BatchApp.inv_job_inj _ _ HI w1 w j1 j idx).
    + by apply (BatchApp.inv_job_inj _ _ HI w1 w2 j1 j2 i).
  - intros i it'. rewrite Hitems.
    destruct (BatchApp.items st !! i) as [it|] eqn:Hit; simpl; [|done].
    intros [= <-]. pose proof (BatchApp.inv_item _ _ HI i it Hit) as Hold.
    destruct (decide (BatchApp.started files st ≤ i)) as [Hge|Hlt'].
    + destruct (i =? idx)%nat; [|done]. by rewrite (proj2 (Hg it)).
    + destruct (Nat.eqb_spec i idx) as [->|Hne].
      * left. split; [by apply (working_new st st' w j')|].
        rewrite (proj2 (Hg it)).
        destruct Hold as [[_ ?]|[Hidle _]]; [done|].
        exfalso. apply Hidle. by exists w, j.
      * assert (BatchApp.working st' i ↔ BatchApp.working st i) as ->; [|done].
        apply (working_other st st' w j j'); congruence.
  - intros (w0 & H0)%list_elem_of_lookup. rewrite Hjobs in H0.
    apply lookup_insert_job in H0 as [[_ Heq]|[Hne H0]].
    + by rewrite <- Heq in Hj'.
    + apply (BatchApp.inv_returned _ _ HI). apply list_elem_of_lookup. eauto.
Qed.

(** [processOne] has come to its end for the item of worker [w]. *)
Lemma BatchApp_Inv_settle st st' w j idx (g : BatchApp.ItemState → BatchApp.ItemState) :
  BatchApp.Inv files st →
  BatchApp.jobs st !! w = Some j →
  BatchApp.job_index j = Some idx →
  BatchApp.jobs st' = <[w := BatchApp.Looping]> (BatchApp.jobs st) →
  BatchApp.queue st' = BatchApp.queue st →
  Forall (λ msg, msg = "Decode failed"%string ∨ msg = "Encode failed"%string)
    (BatchApp.snacks st') →
  (∀ it, BatchApp.file (g it) = BatchApp.file it ∧ BatchApp.settled (g it)) →
  BatchApp.items st' = BatchApp.update idx g (BatchApp.items st) →
  BatchApp.Inv files st'.
Proof.
  intros HI Hw Hj Hjobs Hq Hs Hg Hitems.
  pose proof (lookup_lt_Some _ _ _ Hw) as Hlt.
  assert (Hstarted : BatchApp.started files st' = BatchApp.started files st).
  { unfold BatchApp.started. by rewrite Hq. }
  split; rewrite ?Hstarted, ?Hq; try apply HI; try done.
  - rewrite Hitems, file_update; [apply HI|]. intros it. apply Hg.
  - intros w0 j0 i. rewrite Hjobs.
    intros [[-> ->]|[Hne H]]%lookup_insert_job Hi; [done|].
    by apply (BatchApp.inv_job_lt _ _ HI w0 j0).
  - intros w1 w2 j1 j2 i. rewrite Hjobs.
    intros [[-> ->]|[Hne1 H1]]%lookup_insert_job [[-> ->]|[Hne2 H2]]%lookup_insert_job
      Hi1 Hi2; try done.
    by apply (BatchApp.inv_job_inj _ _ HI w1 w2 j1 j2 i).
  - intros i it'. rewrite Hitems, lookup_update.
    destruct (BatchApp.items st !! i) as [it|] eqn:Hit; simpl; [|done].
    intros [= <-]. pose proof (BatchApp.inv_item _ _ HI i it Hit) as Hold.
    pose proof (BatchApp.inv_job_lt _ _ HI w j idx Hw Hj) as Hidx.
    destruct (Nat.eqb_spec i idx) as [->|Hne].
    + destruct (decide (BatchApp.started files st ≤ idx)) as [Hge|_]; [lia|].
      right. split; [|apply Hg].
      intros (w0 & j0 & H0 & Hi). rewrite Hjobs in H0.
      apply lookup_insert_job in H0 as [[-> ->]|[Hne H0]]; [done|].
      apply Hne. by apply (BatchApp.inv_job_inj _ _ HI w0 w j0 j idx).
    + destruct (decide (BatchApp.started files st ≤ i)) as [Hge|Hlt']; [done|].
      assert (BatchApp.working st' i ↔ BatchApp.working st i) as ->; [|done].
      apply (working_other st st' w j BatchApp.Looping); [done..|congruence|done].
  - intros (w0 & H0)%list_elem_of_lookup. rewrite Hjobs in H0.
    apply lookup_insert_job in H0 as [[_ ?]|[Hne H0]]; [done|].
    apply (BatchApp.inv_returned _ _ HI). apply list_elem_of_lookup. eauto.
Qed.

(** A worker that is busy with no item, before and after. *)
Lemma BatchApp_Inv_idle st st' w j j' :
  BatchApp.Inv files st →
  BatchApp.jobs st !! w = Some j →
  BatchApp.job_index j = None → BatchApp.job_index j' = None →
  BatchApp.jobs st' = <[w := j']> (BatchApp.jobs st) →
  BatchApp.queue st' = BatchApp.queue st →
  BatchApp.snacks st' = BatchApp.snacks st →
  BatchApp.items st' = BatchApp.items st →
  (j' = BatchApp.Returned → BatchApp.queue st = []) →
  BatchApp.Inv files st'.
Proof.
  intros HI Hw Hj Hj' Hjobs Hq Hs Hitems Hret.
  assert (Hstarted : BatchApp.started files st' = BatchApp.started files st).
  { unfold BatchApp.started. by rewrite Hq. }
  split; rewrite ?Hstarted, ?Hq, ?Hs, ?Hitems; try apply HI.
  - intros w0 j0 i. rewrite Hjobs.
    intros [[-> ->]|[Hne H]]%lookup_insert_job Hi; [congruence|].
    by apply (BatchApp.inv_job_lt _ _ HI w0 j0).
  - intros w1 w2 j1 j2 i. rewrite Hjobs.
    intros [[-> ->]|[Hne1 H1]]%lookup_insert_job [[-> ->]|[Hne2 H2]]%lookup_insert_job
      Hi1 Hi2; try congruence.
    by apply (BatchApp.inv_job_inj _ _ HI w1 w2 j1 j2 i).
  - intros i it Hit. pose proof (BatchApp.inv_item _ _ HI i it Hit) as Hold.
    destruct (decide (BatchApp.started files st ≤ i)); [done|].
    assert (BatchApp.working st' i ↔ BatchApp.working st i) as ->; [|done].
    apply (working_other st st' w j j'); congruence.
  - intros (w0 & H0)%list_elem_of_lookup. rewrite Hjobs in H0.
    apply lookup_insert_job in H0 as [[_ Heq]|[Hne H0]]; [by apply Hret|].
    apply (BatchApp.inv_returned _ _ HI). apply list_elem_of_lookup. eauto.
Qed.

Lemma queue_first st idx rest :
  BatchApp.Inv files st → BatchApp.queue st = idx :: rest →
  idx = BatchApp.started files st ∧
  rest = seq (S (BatchApp.started files st)) (length rest) ∧
  BatchApp.started files st < length files ∧
  length files - length rest = S (BatchApp.started files st).
Proof.
  intros HI Hq. pose proof (BatchApp.inv_queue _ _ HI) as Hseq.
  pose proof (BatchApp.inv_queue_le _ _ HI) as Hle.
  unfold BatchApp.started in *. rewrite Hq in *. simpl in *.
  injection Hseq as Hidx Hrest. repeat split; try done; lia.
Qed.

(** The loop of [runWorker]: the worker returns, or takes the next item. *)
Lemma BatchApp_Inv_runWorker st w :
  BatchApp.Inv files st → BatchApp.jobs st !! w = Some BatchApp.Looping →
  BatchApp.Inv files (BatchApp.runWorker dom w st).
Proof.
  intros HI Hw. pose proof (lookup_lt_Some _ _ _ Hw) as Hlt.
  unfold BatchApp.runWorker.
  destruct (BatchApp.queue st) as [|idx rest] eqn:Hq.
  - by apply (BatchApp_Inv_idle st _ w BatchApp.Looping BatchApp.Returned).
  - destruct (queue_first st idx rest HI Hq) as (Hidx & Hrest & Hfirst & Hnext).
    unfold BatchApp.processOne. cbn [BatchApp.with_items BatchApp.items BatchApp.aborted].
    assert (is_Some (BatchApp.items st !! idx)) as [it Hit].
    { apply lookup_lt_is_Some. rewrite <- (length_fmap BatchApp.file).
      rewrite (BatchApp.inv_files _ _ HI). lia. }
    rewrite lookup_update, Hit. simpl.
    rewrite Nat.eqb_refl. simpl.
    set (job := BatchApp.Decoding idx (BatchApp.file it) _).
    set (st' := BatchApp.set_job w job _).
    assert (Hstarted : BatchApp.started files st' = S (BatchApp.started files st)).
    { unfold BatchApp.started at 1. simpl. exact Hnext. }
    assert (Hjobs : BatchApp.jobs st' = <[w := job]> (BatchApp.jobs st)) by done.
    assert (Hqueue : BatchApp.queue st' = rest) by done.
    assert (Hsnacks : BatchApp.snacks st' = BatchApp.snacks st) by done.
    assert (Hitems : BatchApp.items st' =
              BatchApp.update idx
                (λ it, {| BatchApp.file := BatchApp.file it;
                          BatchApp.status := BatchApp.processing;
                          BatchApp.downloadUrl := BatchApp.downloadUrl it;
                          BatchApp.message := Some "Decoding…"%string |})
                (BatchApp.items st)) by done.
    assert (Hjob : BatchApp.job_index job = Some idx) by done.
    clearbody st' job.
    split; rewrite ?Hstarted, ?Hqueue, ?Hsnacks.
    + rewrite Hitems, file_update; [apply HI|done].
    + done.
    + pose proof (BatchApp.inv_queue_le _ _ HI) as H. rewrite Hq in H. simpl in H. lia.
    + intros w0 j0 i. rewrite Hjobs. intros [[-> ->]|[Hne H]]%lookup_insert_job Hi.
      * rewrite Hjob in Hi. injection Hi as <-. lia.
      * pose proof (BatchApp.inv_job_lt _ _ HI w0 j0 i H Hi). lia.
    + intros w1 w2 j1 j2 i. rewrite Hjobs.
      intros [[-> ->]|[Hne1 H1]]%lookup_insert_job [[-> ->]|[Hne2 H2]]%lookup_insert_job
        Hi1 Hi2; try done.
      * rewrite Hjob in Hi1. injection Hi1 as <-.
        pose proof (BatchApp.inv_job_lt _ _ HI w2 j2 idx H2 Hi2). lia.
      * rewrite Hjob in Hi2. injection Hi2 as <-.
        pose proof (BatchApp.inv_job_lt _ _ HI w1 j1 idx H1 Hi1). lia.
      * by apply (BatchApp.inv_job_inj _ _ HI w1 w2 j1 j2 i).
    + intros i it'. rewrite Hitems, lookup_update.
      destruct (BatchApp.items st !! i) as [it0|] eqn:Hit0; simpl; [|done].
      intros [= <-]. pose proof (BatchApp.inv_item _ _ HI i it0 Hit0) as Hold.
      destruct (Nat.eqb_spec i idx) as [->|Hne].
      * destruct (decide (S (BatchApp.started files st) ≤ idx)); [lia|].
        left. split; [|done]. by apply (working_new st st' w job).
      * destruct (decide (S (BatchApp.started files st) ≤ i)).
        { destruct (decide (BatchApp.started files st ≤ i)); [done|lia]. }
        destruct (decide (BatchApp.started files st ≤ i)); [lia|].
        assert (BatchApp.working st' i ↔ BatchApp.working st i) as ->; [|done].
        apply (working_other st st' w BatchApp.Looping job); [done|done|done|].
        rewrite Hjob. congruence.
    + apply HI.
    + intros (w0 & H0)%list_elem_of_lookup. rewrite Hjobs in H0.
      apply lookup_insert_job in H0 as [[_ Heq]|[Hne H0]].
      * by rewrite <- Heq in Hjob.
      * assert (BatchApp.queue st = []) as Hnil; [|congruence].
        apply (BatchApp.inv_returned _ _ HI). apply list_elem_of_lookup. eauto.
Qed.

Lemma BatchApp_Inv_resume_job st w :
  BatchApp.Inv files st →
  BatchApp.Inv files (BatchApp.resume_job fm env dom createObjectURL w st).
Proof.
  intros HI. unfold BatchApp.resume_job.
  destruct (BatchApp.jobs st !! w) as [[idx f p|idx f decoded| |]|] eqn:Hw; try done.
  - assert (Hsame : ∀ i, BatchApp.items st !! i
              = (λ it, if (i =? idx)%nat then it else it) <$> BatchApp.items st !! i).
    { intros i. destruct (BatchApp.items st !! i); simpl; [|done].
      by destruct (i =? idx)%nat. }
    destruct (resume _ _ p) as [decoded|e|k|X c k|k] eqn:Hr.
    + apply (BatchApp_Inv_keep st _ w (BatchApp.Decoding idx f p) (BatchApp.Encoding idx f decoded) idx
               (λ it, {| BatchApp.file := BatchApp.file it;
                         BatchApp.status := BatchApp.status it;
                         BatchApp.downloadUrl := BatchApp.downloadUrl it;
                         BatchApp.message := Some "Encoding (mozJPEG)…"%string |}));
        try done.
      intros i. simpl. apply lookup_update.
    + apply (BatchApp_Inv_settle st _ w (BatchApp.Decoding idx f p) idx
               (λ it, {| BatchApp.file := BatchApp.file it;
                         BatchApp.status := BatchApp.error;
                         BatchApp.downloadUrl := BatchApp.downloadUrl it;
                         BatchApp.message := Some "Decode failed"%string |}));
        try done.
      * simpl. apply Forall_app. split; [apply HI|]. apply Forall_singleton. by left.
      * intros it. split; [done|]. right. simpl. auto.
    + by apply (BatchApp_Inv_keep st _ w (BatchApp.Decoding idx f p)
                  (BatchApp.Decoding idx f (Signal k)) idx (λ it, it)).
    + by apply (BatchApp_Inv_keep st _ w (BatchApp.Decoding idx f p)
                  (BatchApp.Decoding idx f (Await c k)) idx (λ it, it)).
    + by apply (BatchApp_Inv_keep st _ w (BatchApp.Decoding idx f p)
                  (BatchApp.Decoding idx f (Yield k)) idx (λ it, it)).
  - cbv zeta. destruct (env _ _ _ _) as [blob|e].
    + apply (BatchApp_Inv_settle st _ w (BatchApp.Encoding idx f decoded) idx
               (λ it, {| BatchApp.file := BatchApp.file it;
                         BatchApp.status := BatchApp.done;
                         BatchApp.downloadUrl :=
                           Some (createObjectURL idx
                                   (mkFile (replace_extension (file_name f)
                                              ("." ++ extension (encoderMap fm mozJPEG)))
                                      (mimeType (encoderMap fm mozJPEG)) blob));
                         BatchApp.message := Some "Done"%string |}));
        try done.
      * apply HI.
      * intros it. split; [done|]. left. simpl. eauto.
    + apply (BatchApp_Inv_settle st _ w (BatchApp.Encoding idx f decoded) idx
               (λ it, {| BatchApp.file := BatchApp.file it;
                         BatchApp.status := BatchApp.error;
                         BatchApp.downloadUrl := BatchApp.downloadUrl it;
                         BatchApp.message := Some "Encode failed"%string |}));
        try done.
      * simpl. apply Forall_app. split; [apply HI|]. apply Forall_singleton. by right.
      * intros it. split; [done|]. right. simpl. auto.
  - by apply BatchApp_Inv_runWorker.
Qed.

Lemma BatchApp_Inv_step st ev :
  BatchApp.Inv files st →
  BatchApp.Inv files (BatchApp.step fm env dom createObjectURL st ev).
Proof.
  intros HI. destruct ev as [w|]; simpl.
  - apply BatchApp_Inv_resume_job. by destruct HI.
  - by destruct HI.
Qed.

Lemma BatchApp_Inv_run_schedule st schedule :
  BatchApp.Inv files st →
  BatchApp.Inv files (BatchApp.run_schedule fm env dom createObjectURL st schedule).
Proof.
  unfold BatchApp.run_schedule. revert st.
  induction schedule as [|ev schedule IH]; intros st HI; simpl; [done|].
  by apply IH, BatchApp_Inv_step.
Qed.

End BatchAppProofs.

(** *** The start of a run *)

Section BatchAppStart.
Variable fm : FeatureMeta.
Variable env : Env.
Variable dom : Dom.
Variable createObjectURL : nat → File → string.
Variable files : list File.

(** [runWorker] and a step only replace the job of the worker
    concerned. *)
Lemma runWorker_others w st :
  others_kept w st (BatchApp.runWorker dom w st).
Proof.
  unfold others_kept, BatchApp.runWorker, BatchApp.processOne.
  destruct (BatchApp.queue st) as [|idx rest] eqn:Hq; simpl.
  - split_and!; [|by rewrite length_insert|by rewrite Hq].
    intros w' Hne. by rewrite list_lookup_insert_ne.
  - destruct (BatchApp.update _ _ _ !! idx); simpl;
      (split_and!; [|by rewrite length_insert|simpl; lia]);
      intros w' Hne; by rewrite list_lookup_insert_ne.
Qed.

Lemma resume_job_others w st :
  others_kept w st (BatchApp.resume_job fm env dom createObjectURL w st).
Proof.
  unfold BatchApp.resume_job.
  destruct (BatchApp.jobs st !! w) as [[idx f p|idx f decoded| |]|];
    try (by unfold others_kept; split_and!; [..|lia]).
  - unfold others_kept.
    destruct (resume _ _ p); simpl;
      (split_and!; [|by rewrite length_insert|lia]);
      intros w' Hne; by rewrite list_lookup_insert_ne.
  - unfold others_kept. cbv zeta. destruct (env _ _ _ _); simpl;
      (split_and!; [|by rewrite length_insert|lia]);
      intros w' Hne; by rewrite list_lookup_insert_ne.
  - apply runWorker_others.
Qed.

Lemma others_kept_trans w st1 st2 st3 :
  others_kept w st1 st2 → others_kept w st2 st3 → others_kept w st1 st3.
Proof.
  intros (H1 & H2 & H3) (H1' & H2' & H3'). split_and!; [|congruence|lia].
  intros w' Hne. by rewrite H1', H1.
Qed.

Lemma step_others w st :
  others_kept w st (BatchApp.step fm env dom createObjectURL st (Resume w)).
Proof. apply (resume_job_others w (BatchApp.next_turn st)). Qed.

Lemma run_others w st k :
  others_kept w st
    (BatchApp.run_schedule fm env dom createObjectURL st (replicate k (Resume w))).
Proof.
  revert st. induction k as [|k IH]; intros st; simpl;
    [by unfold others_kept; split_and!; [..|lia]|].
  eapply others_kept_trans; [apply step_others|apply IH].
Qed.

Lemma length_jobs_step st ev :
  length (BatchApp.jobs (BatchApp.step fm env dom createObjectURL st ev))
  = length (BatchApp.jobs st).
Proof. destruct ev as [w|]; [|done]. apply (step_others w st). Qed.

Lemma length_jobs_run st schedule :
  length (BatchApp.jobs (BatchApp.run_schedule fm env dom createObjectURL st schedule))
  = length (BatchApp.jobs st).
Proof.
  unfold BatchApp.run_schedule. revert st.
  induction schedule as [|ev schedule IH]; intros st; simpl; [done|].
  by rewrite IH, length_jobs_step.
Qed.

(** The state before the first worker is started. *)
Lemma BatchApp_Inv_mounted n signal_aborted :
  BatchApp.Inv files
    {| BatchApp.queue := seq 0 (length files);
       BatchApp.items :=
         (λ f, {| BatchApp.file := f; BatchApp.status := BatchApp.pending;
                  BatchApp.downloadUrl := None; BatchApp.message := None |}) <$> files;
       BatchApp.snacks := [];
       BatchApp.jobs := replicate n BatchApp.Looping;
       BatchApp.aborted := signal_aborted; BatchApp.turn := 0 |}.
Proof.
  split; unfold BatchApp.started; simpl; rewrite ?length_seq, ?Nat.sub_diag; try done.
  - rewrite <- list_fmap_compose. etrans; [|apply list_fmap_id]. by apply list_fmap_ext.
  - by intros w j i [-> _]%lookup_replicate.
  - by intros w w' j j' i [-> _]%lookup_replicate.
  - intros i it. rewrite list_lookup_fmap.
    destruct (files !! i); simpl; [|done]. by intros [= <-].
  - by intros [? _]%elem_of_replicate.
Qed.

Lemma BatchApp_Inv_workers n k st :
  k ≤ n → length (BatchApp.jobs st) = n →
  (∀ w, w < n → BatchApp.jobs st !! w = Some BatchApp.Looping) →
  BatchApp.Inv files st →
  BatchApp.Inv files (fold_left (λ st w, BatchApp.runWorker dom w st) (seq 0 k) st) ∧
  length (BatchApp.jobs (fold_left (λ st w, BatchApp.runWorker dom w st) (seq 0 k) st)) = n ∧
  ∀ w, k ≤ w → w < n →
    BatchApp.jobs (fold_left (λ st w, BatchApp.runWorker dom w st) (seq 0 k) st) !! w
    = Some BatchApp.Looping.
Proof.
  intros Hk Hlen Hidle HI. induction k as [|k IH].
  - simpl. split_and!; [done..|]. intros w _. apply Hidle.
  - destruct IH as (HI' & Hlen' & Hidle'); [lia|].
    rewrite seq_S, fold_left_app. simpl.
    destruct (runWorker_others k
                (fold_left (λ st w, BatchApp.runWorker dom w st) (seq 0 k) st))
      as (Hothers & Hlength & _).
    split_and!.
    + apply BatchApp_Inv_runWorker; [done|]. apply Hidle'; lia.
    + congruence.
    + intros w Hw Hlt. rewrite Hothers by lia. apply Hidle'; lia.
Qed.

Lemma BatchApp_Inv_start hardwareConcurrency signal_aborted :
  BatchApp.Inv files (BatchApp.start dom hardwareConcurrency files signal_aborted) ∧
  length (BatchApp.jobs (BatchApp.start dom hardwareConcurrency files signal_aborted))
  = Z.to_nat (BatchApp.concurrency hardwareConcurrency).
Proof.
  unfold BatchApp.start. cbv zeta. rewrite length_fmap.
  set (n := Z.to_nat (BatchApp.concurrency hardwareConcurrency)).
  destruct (BatchApp_Inv_workers n n
              {| BatchApp.queue := seq 0 (length files);
                 BatchApp.items :=
                   (λ f, {| BatchApp.file := f; BatchApp.status := BatchApp.pending;
                            BatchApp.downloadUrl := None; BatchApp.message := None |})
                   <$> files;
                 BatchApp.snacks := [];
                 BatchApp.jobs := replicate n BatchApp.Looping;
                 BatchApp.aborted := signal_aborted; BatchApp.turn := 0 |})
    as (HI & Hlen & _); try done.
  - simpl. apply length_replicate.
  - intros w Hw. simpl. by apply lookup_replicate_2.
  - apply BatchApp_Inv_mounted.
Qed.

Lemma BatchApp_reachable hardwareConcurrency signal_aborted schedule :
  let st := BatchApp.run_schedule fm env dom createObjectURL
              (BatchApp.start dom hardwareConcurrency files signal_aborted) schedule in
  BatchApp.Inv files st ∧
  (length (BatchApp.jobs st) = 1 ∨ length (BatchApp.jobs st) = 2).
Proof.
  intros st. destruct (BatchApp_Inv_start hardwareConcurrency signal_aborted) as [HI Hlen].
  split; [by apply BatchApp_Inv_run_schedule|].
  unfold st. rewrite length_jobs_run, Hlen.
  destruct (concurrency_range hardwareConcurrency) as [-> | ->]; auto.
Qed.

(** When every worker has returned, every item has been through
    [processOne]. *)
Lemma BatchApp_finished st :
  BatchApp.Inv files st → BatchApp.jobs st ≠ [] → BatchApp.running st = false →
  BatchApp.queue st = [] ∧ Forall BatchApp.settled (BatchApp.items st).
Proof.
  intros HI Hne Hrun. unfold BatchApp.running in Hrun.
  apply negb_false_iff in Hrun. rewrite forallb_lookup in Hrun.
  assert (Hq : BatchApp.queue st = []).
  { apply (BatchApp.inv_returned _ _ HI).
    destruct (BatchApp.jobs st) as [|j js] eqn:Hjobs; [done|].
    specialize (Hrun 0 j eq_refl). destruct j; try done. apply elem_of_cons. by left. }
  split; [done|]. apply Forall_lookup. intros i it Hit.
  pose proof (BatchApp.inv_item _ _ HI i it Hit) as Hitem.
  assert (i < length files) as Hi.
  { rewrite <- (BatchApp.inv_files _ _ HI), length_fmap. by eapply lookup_lt_Some. }
  unfold BatchApp.started in Hitem. rewrite Hq in Hitem. simpl in Hitem.
  destruct (decide (length files - 0 ≤ i)); [lia|].
  destruct Hitem as [[(w & j & Hw & Hj) _]|[_ ?]]; [|done].
  specialize (Hrun w j Hw). by destruct j.
Qed.

End BatchAppStart.

(** At every moment of every run of the Batch component: the items keep
    their files; one or two workers run; an item is pending exactly as long
    as it is in the queue, processing exactly while a worker is busy with
    it, and afterwards done (with a download URL) or in error with the
    message of the stage that failed; [showSnack] is only called with these
    two messages.  A failing item stops nothing: when the workers have
    returned, the queue is empty and every item is done or in error. *)
Theorem BatchApp_settles_every_item (fm : FeatureMeta) (env : Env) (dom : Dom)
    (createObjectURL : nat → File → string) (hardwareConcurrency : option Z)
    (files : list File) (signal_aborted : bool) (schedule : list Event) :
  let st := BatchApp.run_schedule fm env dom createObjectURL
              (BatchApp.start dom hardwareConcurrency files signal_aborted) schedule in
  BatchApp.file <$> BatchApp.items st = files ∧
  (length (BatchApp.jobs st) = 1 ∨ length (BatchApp.jobs st) = 2) ∧
  (∀ i it, BatchApp.items st !! i = Some it →
     (i ∈ BatchApp.queue st) ∧ BatchApp.status it = BatchApp.pending
     ∨ (i ∉ BatchApp.queue st) ∧ BatchApp.working st i ∧
       BatchApp.status it = BatchApp.processing
     ∨ (i ∉ BatchApp.queue st) ∧ ¬ BatchApp.working st i ∧ BatchApp.settled it) ∧
  Forall (λ msg, msg = "Decode failed"%string ∨ msg = "Encode failed"%string)
    (BatchApp.snacks st) ∧
  (BatchApp.running st = false →
   BatchApp.queue st = [] ∧ Forall BatchApp.settled (BatchApp.items st)).
Proof.
  intros st.
  destruct (BatchApp_reachable fm env dom createObjectURL files hardwareConcurrency
              signal_aborted schedule) as [HI Hjobs]. fold st in HI, Hjobs.
  split_and!; [apply HI|done| |apply HI|].
  - intros i it Hit. pose proof (BatchApp.inv_item _ _ HI i it Hit) as Hitem.
    assert (i < length files) as Hi.
    { rewrite <- (BatchApp.inv_files _ _ HI), length_fmap. by eapply lookup_lt_Some. }
    pose proof (BatchApp.inv_queue _ _ HI) as Hq.
    pose proof (BatchApp.inv_queue_le _ _ HI) as Hle.
    assert (i ∈ BatchApp.queue st ↔ BatchApp.started files st ≤ i) as Hin.
    { rewrite Hq, elem_of_seq. unfold BatchApp.started. lia. }
    destruct (decide (BatchApp.started files st ≤ i)) as [Hge|Hlt].
    + left. by rewrite Hin.
    + right. rewrite Hin. destruct Hitem as [[? ?]|[? ?]]; [left|right]; done.
  - apply (BatchApp_finished files st HI). destruct (BatchApp.jobs st); [|done].
    simpl in Hjobs. lia.
Qed.

(** *** Every run of the Batch component can be completed *)

Section BatchAppTermination.
Variable fm : FeatureMeta.
Variable env : Env.
Variable dom : Dom.
Variable createObjectURL : nat → File → string.

Lemma BatchApp_run_app st s1 s2 :
  BatchApp.run_schedule fm env dom createObjectURL st (s1 ++ s2) =
  BatchApp.run_schedule fm env dom createObjectURL
    (BatchApp.run_schedule fm env dom createObjectURL st s1) s2.
Proof. apply fold_left_app. Qed.

Lemma BatchApp_run_cons st ev s :
  BatchApp.run_schedule fm env dom createObjectURL st (ev :: s) =
  BatchApp.run_schedule fm env dom createObjectURL
    (BatchApp.step fm env dom createObjectURL st ev) s.
Proof. done. Qed.

Lemma BatchApp_run_more st w k1 k2 :
  BatchApp.run_schedule fm env dom createObjectURL st (replicate (k1 + k2) (Resume w)) =
  BatchApp.run_schedule fm env dom createObjectURL
    (BatchApp.run_schedule fm env dom createObjectURL st (replicate k1 (Resume w)))
    (replicate k2 (Resume w)).
Proof. by rewrite replicate_add, BatchApp_run_app. Qed.

(** The encoder answers: the item is done or in error. *)
Lemma encoding_step st w idx f d :
  BatchApp.jobs st !! w = Some (BatchApp.Encoding idx f d) →
  between_items w st (BatchApp.step fm env dom createObjectURL st (Resume w)).
Proof.
  intros Hw. pose proof (lookup_lt_Some _ _ _ Hw) as Hlt.
  unfold between_items, BatchApp.step, BatchApp.resume_job. simpl. rewrite Hw.
  destruct (env _ _ _ _); simpl; (split; [|done]); left; by apply list_lookup_insert_eq.
Qed.

(** One step of the decoding that ends it. *)
Lemma decoding_settled st w idx f t :
  BatchApp.jobs st !! w = Some (BatchApp.Decoding idx f t) →
  is_done (resume (env (S (BatchApp.turn st)) (BatchApp.aborted st))
             (BatchApp.aborted st) t) = true →
  decoded_or_failed w idx f st (BatchApp.step fm env dom createObjectURL st (Resume w)).
Proof.
  intros Hw Hdone. pose proof (lookup_lt_Some _ _ _ Hw) as Hlt.
  unfold decoded_or_failed, BatchApp.step, BatchApp.resume_job. simpl. rewrite Hw.
  destruct (resume _ _ t) as [decoded|e|k|X c k|k]; try done; simpl; (split; [|done]).
  - right. exists decoded. by apply list_lookup_insert_eq.
  - left. by apply list_lookup_insert_eq.
Qed.

(** One step after which the decoding is still suspended. *)
Lemma decoding_suspended st w idx f t :
  BatchApp.jobs st !! w = Some (BatchApp.Decoding idx f t) →
  is_done (resume (env (S (BatchApp.turn st)) (BatchApp.aborted st))
             (BatchApp.aborted st) t) = false →
  BatchApp.step fm env dom createObjectURL st (Resume w) =
    BatchApp.set_job w
      (BatchApp.Decoding idx f
         (resume (env (S (BatchApp.turn st)) (BatchApp.aborted st))
            (BatchApp.aborted st) t))
      (BatchApp.next_turn st).
Proof.
  intros Hw Hdone. unfold BatchApp.step, BatchApp.resume_job. simpl. rewrite Hw.
  by destruct (resume _ _ t).
Qed.

Lemma decoding_step st w idx f t :
  BatchApp.jobs st !! w = Some (BatchApp.Decoding idx f t) →
  let r := resume (env (S (BatchApp.turn st)) (BatchApp.aborted st))
             (BatchApp.aborted st) t in
  let st1 := BatchApp.set_job w (BatchApp.Decoding idx f r) (BatchApp.next_turn st) in
  (is_done r = false →
   ∃ k, decoded_or_failed w idx f st1
          (BatchApp.run_schedule fm env dom createObjectURL st1 (replicate k (Resume w)))) →
  ∃ k, decoded_or_failed w idx f st
         (BatchApp.run_schedule fm env dom createObjectURL st (replicate k (Resume w))).
Proof.
  intros Hw r st1 Hrest. destruct (is_done r) eqn:Hdone.
  - exists 1. by apply (decoding_settled st w idx f t).
  - destruct (Hrest eq_refl) as [k Hk]. exists (S k).
    simpl replicate.
    rewrite BatchApp_run_cons, (decoding_suspended st w idx f t Hw Hdone). exact Hk.
Qed.

Lemma decoding_sync p st w idx f :
  BatchApp.jobs st !! w = Some (BatchApp.Decoding idx f (sync (BatchApp.aborted st) p)) →
  ∃ k, decoded_or_failed w idx f st
         (BatchApp.run_schedule fm env dom createObjectURL st (replicate k (Resume w))).
Proof.
  revert st. induction p as [a|e|k IH|X c k IH|k IH]; intros st Hw.
  - exists 1. by apply (decoding_settled st w idx f (Ret a)).
  - exists 1. by apply (decoding_settled st w idx f (Throw e)).
  - by apply (IH (BatchApp.aborted st)).
  - apply (decoding_step st w idx f _ Hw). intros _.
    apply (IH (env (S (BatchApp.turn st)) (BatchApp.aborted st) X c)). simpl.
    apply list_lookup_insert_eq. by eapply lookup_lt_Some.
  - apply (decoding_step st w idx f _ Hw). intros _.
    apply IH. simpl. apply list_lookup_insert_eq. by eapply lookup_lt_Some.
Qed.

Lemma decoding_ends st w idx f t :
  BatchApp.jobs st !! w = Some (BatchApp.Decoding idx f t) →
  ∃ k, decoded_or_failed w idx f st
         (BatchApp.run_schedule fm env dom createObjectURL st (replicate k (Resume w))).
Proof.
  intros Hw. apply (decoding_step st w idx f t Hw). intros _.
  assert (∃ q, resume (env (S (BatchApp.turn st)) (BatchApp.aborted st))
                 (BatchApp.aborted st) t
               = sync (BatchApp.aborted st) q) as [q ->].
  { destruct t as [a|e|k|X c k|k]; simpl;
      [by exists (Ret a)|by exists (Throw e)|by exists (Signal k)|by eexists|by exists k]. }
  apply (decoding_sync q _ w idx f). simpl.
  apply list_lookup_insert_eq. by eapply lookup_lt_Some.
Qed.

(** [processOne] comes to its end. *)
Lemma processOne_ends st w j :
  BatchApp.jobs st !! w = Some j →
  ∃ k, between_items w st
         (BatchApp.run_schedule fm env dom createObjectURL st (replicate k (Resume w))).
Proof.
  intros Hw. destruct j as [idx f t|idx f d| |].
  - destruct (decoding_ends st w idx f t Hw) as [k [[Hk|[d Hk]] Hq]].
    + exists k. split; [by left|done].
    + exists (k + 1). rewrite BatchApp_run_more.
      destruct (encoding_step _ w idx f d Hk) as [Hj Hq'].
      split; [done|]. simpl in *. congruence.
  - exists 1. by apply (encoding_step st w idx f d).
  - exists 0. split; [by left|done].
  - exists 0. split; [by right|done].
Qed.

(** A worker returns: it finishes its item, and every item it takes from
    the queue afterwards. *)
Lemma runWorker_returns n st w :
  length (BatchApp.queue st) ≤ n → w < length (BatchApp.jobs st) →
  ∃ k, BatchApp.jobs (BatchApp.run_schedule fm env dom createObjectURL st
                        (replicate k (Resume w))) !! w
       = Some BatchApp.Returned.
Proof.
  revert st. induction n as [|n IH]; intros st Hn Hlt;
    destruct (lookup_lt_is_Some_2 _ _ Hlt) as [j Hw];
    destruct (processOne_ends st w j Hw) as [k [[Hk|Hk] Hq]];
    try (by exists k).
  - exists (k + 1). rewrite BatchApp_run_more.
    set (st1 := BatchApp.run_schedule _ _ _ _ st (replicate k (Resume w))) in *.
    assert (BatchApp.queue st1 = []) as Hnil.
    { destruct (BatchApp.queue st1); [done|]. rewrite <- Hq in Hn. simpl in Hn. lia. }
    simpl. unfold BatchApp.resume_job. simpl. rewrite Hk.
    unfold BatchApp.runWorker. simpl. rewrite Hnil. simpl.
    apply list_lookup_insert_eq. by eapply lookup_lt_Some.
  - set (st1 := BatchApp.run_schedule _ _ _ _ st (replicate k (Resume w))) in *.
    destruct (BatchApp.queue st1) as [|idx rest] eqn:Hq1.
    + exists (k + 1). rewrite BatchApp_run_more. fold st1.
      simpl. unfold BatchApp.resume_job. simpl. rewrite Hk.
      unfold BatchApp.runWorker. simpl. rewrite Hq1. simpl.
      apply list_lookup_insert_eq. by eapply lookup_lt_Some.
    + destruct (IH (BatchApp.step fm env dom createObjectURL st1 (Resume w)))
        as [k2 Hk2].
      * simpl. unfold BatchApp.resume_job. simpl. rewrite Hk.
        unfold BatchApp.runWorker, BatchApp.processOne. simpl. rewrite Hq1.
        destruct (BatchApp.update _ _ _ !! idx); simpl;
          rewrite <- Hq in Hn; simpl in Hn; lia.
      * rewrite length_jobs_step. unfold st1. rewrite length_jobs_run. done.
      * exists (k + S k2). rewrite BatchApp_run_more. fold st1. exact Hk2.
Qed.

(** All workers return, one after the other. *)
Lemma workers_return k st :
  k ≤ length (BatchApp.jobs st) →
  ∃ schedule,
    let st' := BatchApp.run_schedule fm env dom createObjectURL st schedule in
    length (BatchApp.jobs st') = length (BatchApp.jobs st) ∧
    ∀ w, w < k → BatchApp.jobs st' !! w = Some BatchApp.Returned.
Proof.
  induction k as [|k IH]; intros Hk.
  - exists []. simpl. split; [done|]. intros w Hw. lia.
  - destruct IH as (s1 & Hlen1 & Hret1); [lia|].
    destruct (runWorker_returns
                (length (BatchApp.queue
                           (BatchApp.run_schedule fm env dom createObjectURL st s1)))
                (BatchApp.run_schedule fm env dom createObjectURL st s1) k)
      as [k2 Hk2]; [done|lia|].
    exists (s1 ++ replicate k2 (Resume k)). rewrite BatchApp_run_app. simpl.
    destruct (run_others fm env dom createObjectURL k
                (BatchApp.run_schedule fm env dom createObjectURL st s1) k2)
      as (Hothers & Hlen2 & _).
    split; [congruence|].
    intros w Hw. destruct (decide (w = k)) as [->|Hne]; [done|].
    rewrite Hothers by done. apply Hret1. lia.
Qed.

Lemma BatchApp_run_completes st :
  ∃ schedule,
    BatchApp.running (BatchApp.run_schedule fm env dom createObjectURL st schedule)
    = false.
Proof.
  destruct (workers_return (length (BatchApp.jobs st)) st) as (s & Hlen & Hret); [done|].
  exists s. unfold BatchApp.running. apply negb_false_iff, forallb_lookup.
  intros w j Hj. rewrite Hret in Hj; [by injection Hj as <-|].
  rewrite <- Hlen. by eapply lookup_lt_Some.
Qed.

End BatchAppTermination.

(** Whatever has happened so far, the run of the Batch component can be
    continued until every worker has returned; every item is then done or
    in error, whatever failed on the way. *)
Theorem BatchApp_completes (fm : FeatureMeta) (env : Env) (dom : Dom)
    (createObjectURL : nat → File → string) (hardwareConcurrency : option Z)
    (files : list File) (signal_aborted : bool) (schedule : list Event) :
  ∃ more,
    let st := BatchApp.run_schedule fm env dom createObjectURL
                (BatchApp.start dom hardwareConcurrency files signal_aborted)
                (schedule ++ more) in
    BatchApp.running st = false ∧
    BatchApp.queue st = [] ∧
    Forall BatchApp.settled (BatchApp.items st).
Proof.
  destruct (BatchApp_run_completes fm env dom createObjectURL
              (BatchApp.run_schedule fm env dom createObjectURL
                 (BatchApp.start dom hardwareConcurrency files signal_aborted) schedule))
    as [more Hdone].
  exists more. simpl. rewrite BatchApp_run_app. split; [done|].
  rewrite <- BatchApp_run_app in *.
  destruct (BatchApp_reachable fm env dom createObjectURL files hardwareConcurrency
              signal_aborted (schedule ++ more)) as [HI Hjobs].
  apply (BatchApp_finished files _ HI); [|done].
  intros Hnil. rewrite Hnil in Hjobs. simpl in Hjobs. lia.
Qed.

(** *** A run of the Batch component whose signal had fired *)

Lemma length_omap_insert (js : list BatchApp.Job) w j j' :
  js !! w = Some j →
  length (omap BatchApp.job_index (<[w := j']> js))
  + match BatchApp.job_index j with Some _ => 1 | None => 0 end
  = length (omap BatchApp.job_index js)
    + match BatchApp.job_index j' with Some _ => 1 | None => 0 end.
Proof.
  revert w. induction js as [|a js IH]; intros w Hw; [done|].
  destruct w as [|w]; simpl in *.
  - injection Hw as ->. unfold omap. simpl.
    destruct (BatchApp.job_index j), (BatchApp.job_index j'); simpl; lia.
  - specialize (IH w Hw). unfold omap in *. simpl.
    destruct (BatchApp.job_index a); simpl; lia.
Qed.

Lemma omap_replicate_Looping n :
  omap BatchApp.job_index (replicate n BatchApp.Looping) = [].
Proof. induction n as [|n IH]; [done|]. simpl. unfold omap in *. simpl. exact IH. Qed.

Lemma decode_doomed dom f :
  sync true (BatchComponent.decodeImage dom f) = Throw AbortError.
Proof. reflexivity. Qed.

Section BatchAppCancelled.
Variable fm : FeatureMeta.
Variable env : Env.
Variable dom : Dom.
Variable createObjectURL : nat → File → string.
Variable files : list File.

Lemma BatchApp_Cancelled_runWorker st w :
  BatchApp.Inv files st → BatchApp.Cancelled files st →
  BatchApp.jobs st !! w = Some BatchApp.Looping →
  BatchApp.Cancelled files (BatchApp.runWorker dom w st).
Proof.
  intros HI [Ca Cj Ci Cs Cc] Hw. unfold BatchApp.runWorker.
  destruct (BatchApp.queue st) as [|idx rest] eqn:Hq.
  - split; simpl; try done.
    + intros w0 j0 [[_ ->]|[_ H]]%lookup_insert_job; eauto.
    + pose proof (length_omap_insert (BatchApp.jobs st) w _ BatchApp.Returned Hw) as Hlen.
      simpl in Hlen. unfold BatchApp.started in *. simpl. rewrite Hq in *. lia.
  - destruct (queue_first files st idx rest HI Hq) as (Hidx & Hrest & Hfirst & Hnext).
    unfold BatchApp.processOne. cbn [BatchApp.with_items BatchApp.items BatchApp.aborted].
    assert (is_Some (BatchApp.items st !! idx)) as [it Hit].
    { apply lookup_lt_is_Some. rewrite <- (length_fmap BatchApp.file).
      rewrite (BatchApp.inv_files _ _ HI). lia. }
    rewrite lookup_update, Hit. cbn -[sync BatchComponent.decodeImage Nat.eqb].
    rewrite Nat.eqb_refl. cbn -[sync BatchComponent.decodeImage].
    rewrite Ca, decode_doomed.
    split; simpl; try done.
    + intros w0 j0 [[_ ->]|[_ H]]%lookup_insert_job; eauto.
    + intros i it'. rewrite lookup_update.
      destruct (BatchApp.items st !! i) as [it0|] eqn:Hit0; simpl; [|done].
      intros [= <-]. destruct (i =? idx)%nat; simpl; eauto.
    + pose proof (length_omap_insert (BatchApp.jobs st) w _
                    (BatchApp.Decoding idx (BatchApp.file it) (Throw AbortError)) Hw)
        as Hlen.
      simpl in Hlen. unfold BatchApp.started in *. simpl. lia.
Qed.

Lemma BatchApp_Cancelled_step st ev :
  BatchApp.Inv files st → BatchApp.Cancelled files st →
  BatchApp.Cancelled files (BatchApp.step fm env dom createObjectURL st ev).
Proof.
  intros HI HC. destruct ev as [w|]; [|by destruct HC].
  assert (HI' : BatchApp.Inv files (BatchApp.next_turn st)) by (by destruct HI).
  assert (HC' : BatchApp.Cancelled files (BatchApp.next_turn st)) by (by destruct HC).
  unfold BatchApp.step. revert HI' HC'. generalize (BatchApp.next_turn st).
  clear st HI HC. intros st HI HC. unfold BatchApp.resume_job.
  destruct (BatchApp.jobs st !! w) as [j|] eqn:Hw; [|done].
  destruct (BatchApp.can_jobs _ _ HC w j Hw) as [->|[->|(i & f & ->)]].
  - by apply BatchApp_Cancelled_runWorker.
  - done.
  - simpl. destruct HC as [Ca Cj Ci Cs Cc]. split; simpl; try done.
    + intros w0 j0 [[_ ->]|[_ H]]%lookup_insert_job; eauto.
    + intros i0 it'. rewrite lookup_update.
      destruct (BatchApp.items st !! i0) as [it0|] eqn:Hit0; simpl; [|done].
      intros [= <-]. destruct (i0 =? i)%nat; simpl; eauto.
    + rewrite length_app. simpl. rewrite Nat.add_1_r, replicate_S_end. by f_equal.
    + pose proof (length_omap_insert (BatchApp.jobs st) w _ BatchApp.Looping Hw) as Hlen.
      simpl in Hlen. rewrite length_app. simpl. unfold BatchApp.started in *. simpl. lia.
Qed.

Lemma BatchApp_Cancelled_run st schedule :
  BatchApp.Inv files st → BatchApp.Cancelled files st →
  BatchApp.Cancelled files (BatchApp.run_schedule fm env dom createObjectURL st schedule).
Proof.
  unfold BatchApp.run_schedule. revert st.
  induction schedule as [|ev schedule IH]; intros st HI HC; simpl; [done|].
  apply IH; [by apply BatchApp_Inv_step|by apply BatchApp_Cancelled_step].
Qed.

Lemma BatchApp_Cancelled_workers n k st :
  k ≤ n → length (BatchApp.jobs st) = n →
  (∀ w, w < n → BatchApp.jobs st !! w = Some BatchApp.Looping) →
  BatchApp.Inv files st → BatchApp.Cancelled files st →
  BatchApp.Cancelled files (fold_left (λ st w, BatchApp.runWorker dom w st) (seq 0 k) st).
Proof.
  intros Hk Hlen Hidle HI HC. induction k as [|k IH]; [done|].
  destruct (BatchApp_Inv_workers dom files n k st) as (HI' & _ & Hidle'); [lia|done..|].
  rewrite seq_S, fold_left_app. simpl.
  apply BatchApp_Cancelled_runWorker; [done|apply IH; lia|apply Hidle'; lia].
Qed.

Lemma BatchApp_Cancelled_start hardwareConcurrency :
  BatchApp.Cancelled files (BatchApp.start dom hardwareConcurrency files true).
Proof.
  unfold BatchApp.start. cbv zeta. rewrite length_fmap.
  set (n := Z.to_nat (BatchApp.concurrency hardwareConcurrency)).
  apply (BatchApp_Cancelled_workers n n); try done.
  - simpl. apply length_replicate.
  - intros w Hw. simpl. by apply lookup_replicate_2.
  - apply BatchApp_Inv_mounted.
  - split; simpl; try done.
    + intros w j [-> _]%lookup_replicate. by left.
    + intros i it. rewrite list_lookup_fmap.
      destruct (files !! i); simpl; [|done]. intros [= <-]. by left.
    + rewrite omap_replicate_Looping. unfold BatchApp.started. simpl.
      rewrite length_seq. lia.
Qed.

End BatchAppCancelled.

(** When the signal has fired before the run starts (the component was
    unmounted), the workers still go through the whole queue: no item is
    ever done, and when the workers have returned every item is in error
    with the message "Decode failed", [showSnack] having been called with
    that message once per file. *)
Theorem BatchApp_cancelled_run (fm : FeatureMeta) (env : Env) (dom : Dom)
    (createObjectURL : nat → File → string) (hardwareConcurrency : option Z)
    (files : list File) (schedule : list Event) :
  let st := BatchApp.run_schedule fm env dom createObjectURL
              (BatchApp.start dom hardwareConcurrency files true) schedule in
  Forall (λ it, BatchApp.status it ≠ BatchApp.done) (BatchApp.items st) ∧
  (BatchApp.running st = false →
   Forall (λ it, BatchApp.status it = BatchApp.error ∧
                 BatchApp.message it = Some "Decode failed"%string) (BatchApp.items st) ∧
   BatchApp.snacks st = replicate (length files) "Decode failed"%string).
Proof.
  intros st.
  destruct (BatchApp_reachable fm env dom createObjectURL files hardwareConcurrency
              true schedule) as [HI Hjobs].
  assert (HC : BatchApp.Cancelled files st).
  { apply BatchApp_Cancelled_run; [apply BatchApp_Inv_start|apply BatchApp_Cancelled_start]. }
  fold st in HI, Hjobs. split.
  - apply Forall_lookup. intros i it Hit.
    destruct (BatchApp.can_items _ _ HC i it Hit) as [->|[->|[-> _]]]; done.
  - intros Hrun.
    destruct (BatchApp_finished files st HI) as [Hq Hsettled]; [|done|].
    { intros Hnil. rewrite Hnil in Hjobs. simpl in Hjobs. lia. }
    split.
    + apply Forall_lookup. intros i it Hit.
      rewrite Forall_lookup in Hsettled. specialize (Hsettled i it Hit).
      destruct (BatchApp.can_items _ _ HC i it Hit) as [Hs|[Hs|[Hs Hm]]]; [| |done];
        destruct Hsettled as [(Hd & _)|(He & _)]; congruence.
    + assert (omap BatchApp.job_index (BatchApp.jobs st) = []) as Hidle.
      { unfold BatchApp.running in Hrun. apply negb_false_iff in Hrun.
        rewrite forallb_lookup in Hrun.
        destruct (omap BatchApp.job_index (BatchApp.jobs st)) as [|i l] eqn:Hl; [done|].
        assert (i ∈ omap BatchApp.job_index (BatchApp.jobs st)) as Hi.
        { rewrite Hl. apply elem_of_cons. by left. }
        apply list_elem_of_omap in Hi as (j & (w & Hw)%list_elem_of_lookup & Hj).
        specialize (Hrun w j Hw). by destruct j. }
      pose proof (BatchApp.can_count _ _ HC) as Hcount.
      rewrite Hidle in Hcount. unfold BatchApp.started in Hcount.
      rewrite Hq in Hcount. simpl in Hcount.
      rewrite (BatchApp.can_snacks _ _ HC). f_equal. lia.
Qed.

Lemma BatchApp_cancelled_run_witness :
  let st := BatchApp.run_schedule sample_meta sample_env sample_dom blob_url
              (BatchApp.start sample_dom None two_files true)
              [Resume 0; Resume 1; Resume 0; Resume 1] in
  BatchApp.running st = false ∧
  BatchApp.snacks st = replicate (length two_files) "Decode failed"%string.
Proof.
  intros st.
  assert (Hrun : BatchApp.running st = false) by (vm_compute; reflexivity).
  split; [exact Hrun|].
  exact (proj2 (proj2 (BatchApp_cancelled_run sample_meta sample_env sample_dom blob_url
                         None two_files [Resume 0; Resume 1; Resume 0; Resume 1])
                  Hrun)).
Defined.

Lemma BatchApp_settles_every_item_witness :
  let st := BatchApp.run_schedule sample_meta sample_env sample_dom blob_url
              (BatchApp.start sample_dom (Some 1%Z) one_broken false)
              (replicate 16 (Resume 0)) in
  BatchApp.running st = false ∧
  BatchApp.status <$> BatchApp.items st = [BatchApp.error; BatchApp.done] ∧
  BatchApp.snacks st = ["Decode failed"%string] ∧
  Forall BatchApp.settled (BatchApp.items st).
Proof.
  intros st.
  assert (Hrun : BatchApp.running st = false) by (vm_compute; reflexivity).
  split_and!; [exact Hrun|vm_compute; reflexivity..|].
  pose proof (BatchApp_settles_every_item sample_meta sample_env sample_dom blob_url
                (Some 1%Z) one_broken false (replicate 16 (Resume 0)))
    as (_ & _ & _ & _ & Hend).
  exact (proj2 (Hend Hrun)).
Defined.

(** ** SimpleApp: the settings of the batch *)

(** The encoder calls of [convertFile] carry the requested type and the
    given options, or the defaults. *)
Lemma encode_call_settings fm w t file opts type image options :
  invoke (encode type image options) ∈ (exec w t (convertFile fm file opts)).1 →
  type = encoder opts ∧
  options = default (defaultOptions (encoderMap fm (encoder opts))) (encoderOptions opts).
Proof.
  intros Hin.
  pose proof (run_convertFile fm w t file opts) as H. cbv zeta in H.
  pose proof (staged_decodeImage w t file) as S0.
  destruct (exec w t (decodeImage file)).2 as [decoded|e].
  2:{ destruct H as [H _]. rewrite H in Hin.
      apply (staged_elem_of _ _ _ _ S0) in Hin. simpl in Hin. lia. }
  set (t1 := S (turns w t (decodeImage file))) in *.
  pose proof (staged_preprocessImage w t1 decoded (pre_state fm opts)) as S1.
  destruct (exec w t1 (preprocessImage _ _)).2 as [preprocessed|e].
  2:{ destruct H as [H _]. rewrite H in Hin. cbn [fst] in Hin.
      apply elem_of_app in Hin as [Hin|Hin];
        [apply (staged_elem_of _ _ _ _ S0) in Hin|apply (staged_elem_of _ _ _ _ S1) in Hin];
        simpl in Hin; lia. }
  set (t2 := S (turns w t1 _)) in *.
  pose proof (staged_processImage w t2 preprocessed decoded (proc_state fm opts)) as S2.
  assert (Hearly : ∀ trace,
            invoke (encode type image options)
            ∈ (exec w t (decodeImage file)).1 ++ (exec w t1 (preprocessImage decoded
                                                     (pre_state fm opts))).1
              ++ (exec w t2 (processImage preprocessed decoded (proc_state fm opts))).1
              ++ trace →
            invoke (encode type image options) ∈ trace).
  { intros trace [Hx|[Hx|[Hx|Hx]%elem_of_app]%elem_of_app]%elem_of_app; [..|done];
      [apply (staged_elem_of _ _ _ _ S0) in Hx|apply (staged_elem_of _ _ _ _ S1) in Hx
      |apply (staged_elem_of _ _ _ _ S2) in Hx]; simpl in Hx; lia. }
  destruct (exec w t2 (processImage _ _ _)).2 as [processed|e].
  2:{ destruct H as [H _]. rewrite H in Hin. cbn [fst] in Hin.
      specialize (Hearly []). rewrite app_nil_r in Hearly.
      apply Hearly in Hin. by apply elem_of_nil in Hin. }
  destruct H as [H _]. rewrite H in Hin. cbn [fst] in Hin. apply Hearly in Hin.
  rewrite exec_encodeImage in Hin. cbv zeta in Hin.
  destruct (fired w _); cbn [fst] in Hin; [by apply elem_of_nil in Hin|].
  apply list_elem_of_singleton in Hin. apply (f_equal encode_call) in Hin.
  by injection Hin as -> -> ->.
Qed.

(** The batch SimpleApp starts runs [min(2, T)] workers, and every call
    of an encoder it leads to is for the encoder selected in the component,
    with the options [getEncoderOptions] builds from the selected quality,
    which come first in the options: the defaults of the encoder are never
    used. *)
Theorem SimpleApp_batch_settings (fm : FeatureMeta) (env : Env) (s : SimpleApp.State)
    (schedule : list Event) :
  let files := SimpleApp.file <$> SimpleApp.s_items s in
  let opts := SimpleApp.batchOpts s in
  length (workers (run_schedule fm env files opts (convertFiles fm files opts false)
                     schedule))
  = 2 `min` length files ∧
  ∀ w t file type image options,
    invoke (encode type image options) ∈ (exec w t (convertFile fm file opts)).1 →
    type = SimpleApp.s_encoder s ∧
    options = SimpleApp.getEncoderOptions (SimpleApp.s_encoder s) (SimpleApp.s_quality s) ∧
    head options = Some ("quality"%string, SimpleApp.s_quality s).
Proof.
  intros files opts. split.
  - rewrite reachable_workers. unfold conc, total.
    change (default 2%Z (concurrency opts)) with 2%Z. lia.
  - intros w t file type image options Hin.
    apply encode_call_settings in Hin as [-> ->]. simpl.
    split_and!; [done..|]. by destruct (SimpleApp.s_encoder s).
Qed.

Lemma SimpleApp_batch_settings_witness :
  head (SimpleApp.getEncoderOptions mozJPEG 75) = Some ("quality"%string, 75%Z).
Proof.
  assert (Hin : invoke (encode mozJPEG (mkImageData 1 1 (file_bits (png "a.png")))
                          (SimpleApp.getEncoderOptions mozJPEG 75))
                ∈ (exec calm 0 (convertFile sample_meta (png "a.png")
                                  (SimpleApp.batchOpts fresh_app))).1).
  { vm_compute. repeat constructor. }
  exact (proj2 (proj2 (proj2 (SimpleApp_batch_settings sample_meta sample_env fresh_app [])
                         calm 0 (png "a.png") _ _ _ Hin))).
Defined.

(** ** [convertFiles] after the signal has fired *)

Section AfterCancelProofs.
Variable fm : FeatureMeta.
Variable env : Env.
Variable files : list File.
Variable opts : BatchOptions.
Variables n0 q0 : nat.

Lemma AfterCancel_resume ws w st :
  Inv files st → AfterCancel files n0 q0 ws st →
  ∃ ws', AfterCancel files n0 q0 ws' (resume_worker fm env files opts w st).
Proof.
  intros HI HA. unfold resume_worker.
  destruct (workers st !! w) as [[idx p| |e]|] eqn:Hw; try (by exists ws).
  pose proof (lookup_lt_Some _ _ _ Hw) as Hlt.
  assert (Hdoomed : n0 ≤ idx ∨ w ∈ ws →
            resume (env (turn st) (aborted st)) (aborted st) p = Throw AbortError).
  { intros [Hge|Hin].
    - by destruct (ac_doomed _ _ _ _ _ HA w idx p Hw Hge) as [-> _].
    - destruct (ac_spent _ _ _ _ _ HA w Hin) as [[e He]|[idx' Hidx']]; [congruence|].
      rewrite Hw in Hidx'. by injection Hidx' as _ ->. }
  destruct HA as [Aa As An At Asp Ad Af].
  destruct (resume _ _ p) as [res|e|k|X c k|k] eqn:Hr.
  - assert (¬ n0 ≤ idx ∧ w ∉ ws) as [Hold Hfresh].
    { split; intros H; [specialize (Hdoomed (or_introl H))|specialize (Hdoomed (or_intror H))];
        done. }
    unfold run. simpl. destruct (queue st) as [|idx' rest] eqn:Hq.
    + exists ws. split; unfold started in *; simpl; rewrite ?Hq in *; try done.
      * intros w' Hw'. assert (w' ≠ w) by congruence.
        rewrite list_lookup_insert_ne by done. by apply Asp.
      * intros w0 i q [[_ [=]]|[_ H]]%lookup_insert_worker Hi. by apply (Ad w0 i q).
      * intros c0 [Hc| ->%list_elem_of_singleton]%elem_of_app Hi; [by apply Af|done].
    + destruct (queue_head files st idx' rest HI Hq) as (Hidx & _ & Hfirst & Hnext).
      rewrite Aa, item_doomed by lia.
      exists (w :: ws). split; simpl.
      * done.
      * unfold started at 1. simpl. lia.
      * by constructor.
      * rewrite ?Hq in At. simpl in At. lia.
      * intros w' [->|Hw']%elem_of_cons.
        { right. eexists. by apply list_lookup_insert_eq. }
        assert (w' ≠ w) by congruence.
        rewrite list_lookup_insert_ne by done. by apply Asp.
      * intros w0 i q [[-> [= _ <-]]|[_ H]]%lookup_insert_worker Hi.
        { split; [done|]. apply elem_of_cons. by left. }
        destruct (Ad w0 i q H Hi) as [? ?]. split; [done|]. apply elem_of_cons. by right.
      * intros c0 [Hc| ->%list_elem_of_singleton]%elem_of_app Hi; [by apply Af|done].
  - exists ws. split; unfold started in *; simpl; try done.
    + intros w' Hw'. destruct (decide (w' = w)) as [->|Hne].
      * left. eexists. by apply list_lookup_insert_eq.
      * rewrite list_lookup_insert_ne by done. by apply Asp.
    + intros w0 i q [[_ [=]]|[_ H]]%lookup_insert_worker Hi. by apply (Ad w0 i q).
    + intros c0 [Hc| ->%list_elem_of_singleton]%elem_of_app Hi; [by apply Af|].
      simpl in *. specialize (Hdoomed (or_introl Hi)). by injection Hdoomed as ->.
  - assert (¬ n0 ≤ idx ∧ w ∉ ws) as [Hold Hfresh].
    { split; intros H; [specialize (Hdoomed (or_introl H))|specialize (Hdoomed (or_intror H))];
        done. }
    exists ws. split; simpl; try done.
    + intros w' Hw'. assert (w' ≠ w) by congruence.
      rewrite list_lookup_insert_ne by done. by apply Asp.
    + intros w0 i q [[_ [= <- _]]|[_ H]]%lookup_insert_worker Hi; [done|].
      by apply (Ad w0 i q).
  - assert (¬ n0 ≤ idx ∧ w ∉ ws) as [Hold Hfresh].
    { split; intros H; [specialize (Hdoomed (or_introl H))|specialize (Hdoomed (or_intror H))];
        done. }
    exists ws. split; simpl; try done.
    + intros w' Hw'. assert (w' ≠ w) by congruence.
      rewrite list_lookup_insert_ne by done. by apply Asp.
    + intros w0 i q [[_ [= <- _]]|[_ H]]%lookup_insert_worker Hi; [done|].
      by apply (Ad w0 i q).
  - assert (¬ n0 ≤ idx ∧ w ∉ ws) as [Hold Hfresh].
    { split; intros H; [specialize (Hdoomed (or_introl H))|specialize (Hdoomed (or_intror H))];
        done. }
    exists ws. split; simpl; try done.
    + intros w' Hw'. assert (w' ≠ w) by congruence.
      rewrite list_lookup_insert_ne by done. by apply Asp.
    + intros w0 i q [[_ [= <- _]]|[_ H]]%lookup_insert_worker Hi; [done|].
      by apply (Ad w0 i q).
Qed.

Lemma AfterCancel_step ws st ev :
  Inv files st → AfterCancel files n0 q0 ws st →
  ∃ ws', AfterCancel files n0 q0 ws' (step fm env files opts st ev).
Proof.
  intros HI HA. destruct ev as [w|]; simpl.
  - apply (AfterCancel_resume ws); [by apply Inv_next_turn|by destruct HA].
  - exists ws. by destruct HA.
Qed.

Lemma AfterCancel_run ws st schedule :
  Inv files st → AfterCancel files n0 q0 ws st →
  ∃ ws', AfterCancel files n0 q0 ws' (run_schedule fm env files opts st schedule).
Proof.
  unfold run_schedule. revert ws st.
  induction schedule as [|ev schedule IH]; intros ws st HI HA; simpl; [by exists ws|].
  destruct (AfterCancel_step ws st ev HI HA) as [ws' HA'].
  apply (IH ws'); [by apply Inv_step|done].
Qed.

(** The workers that have taken an item are different workers. *)
Lemma AfterCancel_workers ws st :
  AfterCancel files n0 q0 ws st → length ws ≤ length (workers st).
Proof.
  intros HA. rewrite <- (length_seq (length (workers st)) 0).
  apply submseteq_length, NoDup_submseteq; [apply (ac_nodup _ _ _ _ _ HA)|].
  intros w Hw. apply elem_of_seq.
  destruct (ac_spent _ _ _ _ _ HA w Hw) as [[e H]|[idx H]];
    apply lookup_lt_Some in H; lia.
Qed.

End AfterCancelProofs.

(** Once the signal has fired, the batch winds down: each worker takes at
    most one more item from the queue; a conversion started after the
    signal has fired fails with the cancellation error; and no item that
    was still queued when the signal fired is ever converted.  (The items
    being converted when the signal fires may still succeed.) *)
Theorem cancellation_winds_down (fm : FeatureMeta) (env : Env) (files : list File)
    (opts : BatchOptions) (signal_aborted : bool) (schedule more : list Event) :
  let st := run_schedule fm env files opts
              (convertFiles fm files opts signal_aborted) schedule in
  let st' := run_schedule fm env files opts st more in
  aborted st = true →
  length (queue st) ≤ length (queue st') + length (workers st) ∧
  (∀ c, c ∈ completions st' → of_item c ∈ queue st →
        item_settled c = Rejected AbortError) ∧
  (∀ i, i ∈ queue st → slot (results st') i = None).
Proof.
  intros st st' Hfired.
  pose proof (reachable_Inv fm env files opts signal_aborted schedule) as HI.
  pose proof (reachable_Inv fm env files opts signal_aborted (schedule ++ more)) as HI'.
  rewrite run_schedule_app in HI'. fold st in HI, HI'. fold st' in HI'.
  assert (HA : AfterCancel files (started files st) (length (queue st)) [] st).
  { split; try done.
    - constructor.
    - simpl. lia.
    - by intros w ?%elem_of_nil.
    - intros w idx p Hw Hge. apply (inv_busy_lt _ _ HI) in Hw. lia.
    - intros c Hc Hge. apply (inv_done_lt _ _ HI) in Hc. lia. }
  destruct (AfterCancel_run fm env files opts _ _ [] st more HI HA) as [ws HA'].
  fold st' in HA'.
  assert (Hfailed : ∀ c, c ∈ completions st' → of_item c ∈ queue st →
            item_settled c = Rejected AbortError).
  { intros c Hc Hq. apply (ac_failed _ _ _ _ _ HA' c Hc).
    by apply (queued_started files st HI). }
  split_and!; [|done|].
  - pose proof (ac_taken _ _ _ _ _ HA') as Ht.
    pose proof (AfterCancel_workers files _ _ ws st' HA') as Hw.
    unfold st' in Hw. rewrite length_workers_run_schedule in Hw. fold st' in Ht. lia.
  - intros i Hi. destruct (slot (results st') i) as [r|] eqn:Hr; [|done].
    destruct (inv_results _ _ HI' i r Hr) as (c & Hc & <- & Hok).
    rewrite (Hfailed c Hc Hi) in Hok. done.
Qed.

Lemma cancellation_winds_down_witness :
  let opts := batch_options (Some 1%Z) in
  let st := run_schedule sample_meta sample_env [png "a.png"; png "b.png"; png "c.png"] opts
              (convertFiles sample_meta [png "a.png"; png "b.png"; png "c.png"] opts false)
              [Resume 0; Fire] in
  let st' := run_schedule sample_meta sample_env [png "a.png"; png "b.png"; png "c.png"]
               opts st (replicate 6 (Resume 0)) in
  queue st' = [1; 2] ∧ slot (results st') 2 = None.
Proof.
  intros opts st st'. split; [vm_compute; reflexivity|].
  apply (cancellation_winds_down sample_meta sample_env
           [png "a.png"; png "b.png"; png "c.png"] opts false [Resume 0; Fire]
           (replicate 6 (Resume 0))).
  - vm_compute. reflexivity.
  - vm_compute. repeat constructor.
Defined.

(** *** The Batch component after its signal has fired *)

Section BatchAppUnmounted.
Variable fm : FeatureMeta.
Variable env : Env.
Variable dom : Dom.
Variable createObjectURL : nat → File → string.
Variable files : list File.
Variable n0 : nat.

Lemma Unmounted_runWorker st w :
  BatchApp.Inv files st → Unmounted files n0 st →
  BatchApp.jobs st !! w = Some BatchApp.Looping →
  Unmounted files n0 (BatchApp.runWorker dom w st).
Proof.
  intros HI [Ua Us Uj Ui] Hw. unfold BatchApp.runWorker.
  destruct (BatchApp.queue st) as [|idx rest] eqn:Hq.
  - split; unfold BatchApp.started in *; simpl; rewrite ?Hq in *; try done.
    intros w0 j0 i [[_ ->]|[_ H]]%lookup_insert_job Hi Hge; [done|]. by apply (Uj w0).
  - destruct (queue_first files st idx rest HI Hq) as (Hidx & Hrest & Hfirst & Hnext).
    unfold BatchApp.processOne. cbn [BatchApp.with_items BatchApp.items BatchApp.aborted].
    assert (is_Some (BatchApp.items st !! idx)) as [it Hit].
    { apply lookup_lt_is_Some. rewrite <- (length_fmap BatchApp.file).
      rewrite (BatchApp.inv_files _ _ HI). lia. }
    rewrite lookup_update, Hit. cbn -[sync BatchComponent.decodeImage Nat.eqb].
    rewrite Nat.eqb_refl. cbn -[sync BatchComponent.decodeImage].
    rewrite Ua, decode_doomed.
    split; simpl; try done.
    + unfold BatchApp.started at 1. simpl. lia.
    + intros w0 j0 i [[_ ->]|[_ H]]%lookup_insert_job Hi Hge.
      * simpl in Hi. injection Hi as <-. by eexists.
      * by apply (Uj w0).
    + intros i it'. rewrite lookup_update.
      destruct (BatchApp.items st !! i) as [it0|] eqn:Hit0; simpl; [|done].
      intros [= <-] Hge. destruct (i =? idx)%nat; simpl; eauto.
Qed.

Lemma Unmounted_step st ev :
  BatchApp.Inv files st → Unmounted files n0 st →
  Unmounted files n0 (BatchApp.step fm env dom createObjectURL st ev).
Proof.
  intros HI HU. destruct ev as [w|]; [|by destruct HU].
  assert (HI' : BatchApp.Inv files (BatchApp.next_turn st)) by (by destruct HI).
  assert (HU' : Unmounted files n0 (BatchApp.next_turn st)) by (by destruct HU).
  unfold BatchApp.step. revert HI' HU'. generalize (BatchApp.next_turn st).
  clear st HI HU. intros st HI HU. unfold BatchApp.resume_job.
  destruct (BatchApp.jobs st !! w) as [[idx f p|idx f d| |]|] eqn:Hw; try done.
  - destruct (decide (n0 ≤ idx)) as [Hge|Hlt].
    + destruct (un_jobs _ _ _ HU w _ idx Hw eq_refl Hge) as [f' [= -> ->]].
      destruct HU as [Ua Us Uj Ui]. simpl. split; simpl; try done.
      * intros w0 j0 i [[_ ->]|[_ H]]%lookup_insert_job Hi Hge'; [done|]. by apply (Uj w0).
      * intros i it'. rewrite lookup_update.
        destruct (BatchApp.items st !! i) as [it0|] eqn:Hit0; simpl; [|done].
        intros [= <-] Hge'. destruct (i =? idx)%nat; simpl; eauto.
    + destruct HU as [Ua Us Uj Ui].
      assert (Hitems : ∀ g i it',
                BatchApp.update idx g (BatchApp.items st) !! i = Some it' → n0 ≤ i →
                BatchApp.status it' = BatchApp.pending
                ∨ BatchApp.status it' = BatchApp.processing
                ∨ BatchApp.status it' = BatchApp.error ∧
                  BatchApp.message it' = Some "Decode failed"%string).
      { intros g i it'. rewrite lookup_update.
        destruct (BatchApp.items st !! i) as [it0|] eqn:Hit0; simpl; [|done].
        intros [= <-] Hge. destruct (Nat.eqb_spec i idx) as [->|_]; [lia|]. by apply (Ui i). }
      destruct (resume _ _ p); split; simpl; try done; try (by apply Hitems);
        intros w0 j0 i [[_ ->]|[_ H]]%lookup_insert_job Hi Hge'; simpl in Hi;
        try done; try (injection Hi as <-; lia); by apply (Uj w0).
  - assert (¬ n0 ≤ idx) as Hlt.
    { intros Hge. by destruct (un_jobs _ _ _ HU w _ idx Hw eq_refl Hge). }
    destruct HU as [Ua Us Uj Ui].
    assert (Hitems : ∀ g i it',
              BatchApp.update idx g (BatchApp.items st) !! i = Some it' → n0 ≤ i →
              BatchApp.status it' = BatchApp.pending
              ∨ BatchApp.status it' = BatchApp.processing
              ∨ BatchApp.status it' = BatchApp.error ∧
                BatchApp.message it' = Some "Decode failed"%string).
    { intros g i it'. rewrite lookup_update.
      destruct (BatchApp.items st !! i) as [it0|] eqn:Hit0; simpl; [|done].
      intros [= <-] Hge. destruct (Nat.eqb_spec i idx) as [->|_]; [lia|]. by apply (Ui i). }
    cbv zeta. destruct (env _ _ _ _); split; simpl; try done; try (by apply Hitems);
      intros w0 j0 i [[_ ->]|[_ H]]%lookup_insert_job Hi Hge'; simpl in Hi;
      try done; by apply (Uj w0).
  - by apply Unmounted_runWorker.
Qed.

Lemma Unmounted_run st schedule :
  BatchApp.Inv files st → Unmounted files n0 st →
  Unmounted files n0 (BatchApp.run_schedule fm env dom createObjectURL st schedule).
Proof.
  unfold BatchApp.run_schedule. revert st.
  induction schedule as [|ev schedule IH]; intros st HI HU; simpl; [done|].
  apply IH; [by apply BatchApp_Inv_step|by apply Unmounted_step].
Qed.

End BatchAppUnmounted.

(** Once the signal of the Batch component has fired (the component is
    unmounted), the workers still go through the whole queue, and every
    item that was still queued ends in error with the message
    "Decode failed": the cancellation is reported as a failure to decode
    each remaining file. *)
Theorem BatchApp_unmounted (fm : FeatureMeta) (env : Env) (dom : Dom)
    (createObjectURL : nat → File → string) (hardwareConcurrency : option Z)
    (files : list File) (signal_aborted : bool) (schedule more : list Event) :
  let st := BatchApp.run_schedule fm env dom createObjectURL
              (BatchApp.start dom hardwareConcurrency files signal_aborted) schedule in
  let st' := BatchApp.run_schedule fm env dom createObjectURL st more in
  BatchApp.aborted st = true → BatchApp.running st' = false →
  ∀ i, i ∈ BatchApp.queue st →
    ∃ it, BatchApp.items st' !! i = Some it ∧
          BatchApp.status it = BatchApp.error ∧
          BatchApp.message it = Some "Decode failed"%string.
Proof.
  intros st st' Hfired Hrun i Hi.
  destruct (BatchApp_reachable fm env dom createObjectURL files hardwareConcurrency
              signal_aborted schedule) as [HI Hjobs]. fold st in HI, Hjobs.
  assert (HI' : BatchApp.Inv files st') by (by apply BatchApp_Inv_run_schedule).
  assert (HU : Unmounted files (BatchApp.started files st) st).
  { split; try done.
    - intros w j i0 Hw Hj Hge. apply (BatchApp.inv_job_lt _ _ HI w j i0 Hw) in Hj. lia.
    - intros i0 it Hit Hge. left.
      pose proof (BatchApp.inv_item _ _ HI i0 it Hit) as Hitem.
      by destruct (decide (BatchApp.started files st ≤ i0)). }
  apply (Unmounted_run fm env dom createObjectURL files _ st more HI) in HU. fold st' in HU.
  destruct (BatchApp_finished files st' HI') as [_ Hsettled]; [|done|].
  { unfold st'. intros Hnil%(f_equal length). rewrite length_jobs_run in Hnil.
    simpl in Hnil. lia. }
  pose proof (BatchApp.inv_queue _ _ HI) as Hq. pose proof (BatchApp.inv_queue_le _ _ HI) as Hle.
  rewrite Hq in Hi. apply elem_of_seq in Hi. unfold BatchApp.started in Hi.
  assert (is_Some (BatchApp.items st' !! i)) as [it Hit].
  { apply lookup_lt_is_Some. rewrite <- (length_fmap BatchApp.file).
    rewrite (BatchApp.inv_files _ _ HI'). lia. }
  exists it. split; [done|].
  rewrite Forall_lookup in Hsettled. specialize (Hsettled i it Hit).
  destruct (un_items _ _ _ HU i it Hit) as [Hs|[Hs|[Hs Hm]]];
    [unfold BatchApp.started; lia| | |done];
    destruct Hsettled as [(Hd & _)|(He & _)]; congruence.
Qed.

Lemma BatchApp_unmounted_witness :
  let st := BatchApp.run_schedule sample_meta sample_env sample_dom blob_url
              (BatchApp.start sample_dom (Some 1%Z) two_files false) [Resume 0; Fire] in
  let st' := BatchApp.run_schedule sample_meta sample_env sample_dom blob_url st
               (replicate 6 (Resume 0)) in
  BatchApp.queue st = [1] ∧
  ∃ it, BatchApp.items st' !! 1 = Some it ∧
        BatchApp.status it = BatchApp.error ∧
        BatchApp.message it = Some "Decode failed"%string.
Proof.
  intros st st'. split; [vm_compute; reflexivity|].
  apply (BatchApp_unmounted sample_meta sample_env sample_dom blob_url (Some 1%Z) two_files
           false [Resume 0; Fire] (replicate 6 (Resume 0))).
  - vm_compute. reflexivity.
  - vm_compute. reflexivity.
  - vm_compute. repeat constructor.
Defined.
